(** * Ge-Brain: the conversation tree, the turn orchestrator and the
      provider stream adapters

    A shallow embedding of [src/types.ts], [src/services/geminiService.ts]
    and of the tree and turn functions of [src/components/ChatInterface.tsx],
    followed by the properties of the specification that concern them.

    Conventions of the embedding.
    - [Record<string, Message>] is a [gmap string Message], and
      [messageMap[k]] is the lookup of an own key. The names that every
      object inherits from [Object.prototype] are listed ([inherited]);
      where [messageMap[k]] finds one of them instead of a message
      ([finds_inherited], [appendToTree_raises]), the tree functions of
      the model do not stand for the code, and the properties of the
      lookup on absent keys leave these names out.
    - [string | null] and optional fields are [option]; JavaScript
      truthiness is written out ([truthy_string]: the empty string is falsy).
    - A value of type [any] is a [JSValue]; numbers are the integers
      below [2^53] in size, which JavaScript holds exactly and prints
      digit by digit, and values without such a form (other numbers,
      cyclic objects, functions) are left out. A string is the sequence
      of bytes of its UTF-8 form; the white space that [trim] strips is
      the white space and the line terminators of ECMAScript in that
      form. The ids and names of tool calls are strings, as [types.ts]
      declares them.
    - Loops that the source does not bound ([while (currentId)],
      [while (true)], the recursive turn) take a fuel argument and return
      [None] when it runs out; every result theorem shows that enough fuel
      gives the result.
    - What the source gets from outside (random ids, the clock, the
      provider, the execution of tool source) is a [World] per turn. An
      error raised by the platform or by a provider is the message of its
      [Error] object; a value thrown by tool source is any [JSValue].
    - [JSON.parse] is a parameter of the services; [JSON.stringify] is
      defined on [JSValue].
    - A turn is modelled by the tree and head of its last [updateState]
      call; the calls before it and the [isLoading] flag are left out.
    - Record fields carry a short prefix where two interfaces of the source
      share a field name ([msg_id], [tc_id], ...). *)

From stdpp Require Import gmap strings list fin_maps option pretty.
From Stdlib Require Import ZArith Lia Ascii.

(** ** JavaScript values *)

(** The integers that a JavaScript number holds exactly and prints with
    all their digits: those below [2^53] in size. *)
Definition safe (n : Z) : bool := (Z.abs n <? 9007199254740992)%Z.

Record SafeInteger := {
  int_value : Z;
  int_safe : safe int_value = true
}.

Definition safe_integer (n : Z) : option SafeInteger :=
  match safe n as b return safe n = b → option SafeInteger with
  | true => λ H, Some {| int_value := n; int_safe := H |}
  | false => λ _, None
  end eq_refl.

#[warnings="-register-all"]
Inductive JSValue :=
| JUndefined
| JNull
| JBool (b : bool)
| JNum (n : SafeInteger)
| JStr (s : string)
| JArr (items : list JSValue)
| JObj (fields : list (string * JSValue)).

(** [if (s)] on a string. *)
Definition truthy_string (s : string) : bool := negb (String.eqb s "").

(** [if (o)] on an optional string ([undefined], [null] and [""] are falsy). *)
Definition truthy_opt (o : option string) : bool :=
  match o with
  | Some s => truthy_string s
  | None => false
  end.

(** [if (v)] on an arbitrary value. *)
Definition truthy (v : JSValue) : bool :=
  match v with
  | JUndefined | JNull => false
  | JBool b => b
  | JNum n => negb (int_value n =? 0)%Z
  | JStr s => truthy_string s
  | JArr _ | JObj _ => true
  end.

(** *** Strings *)

(** The double quote and the line feed, by their codes. *)
Definition dquote : ascii := "034"%char.
Definition newline : ascii := "010"%char.
Definition nl : string := String newline EmptyString.

(** [s] between double quotes, without escaping. *)
Definition dq (s : string) : string :=
  String dquote (s +:+ String dquote EmptyString).

(** [Number.prototype.toString] on a safe integer: its decimal digits. *)
Definition number_to_string (n : Z) : string := pretty n.

Definition hex_digit (n : N) : ascii :=
  match n with
  | 0 => "0" | 1 => "1" | 2 => "2" | 3 => "3" | 4 => "4" | 5 => "5"
  | 6 => "6" | 7 => "7" | 8 => "8" | 9 => "9" | 10 => "a" | 11 => "b"
  | 12 => "c" | 13 => "d" | 14 => "e" | _ => "f"
  end%N%char.

(** One character inside a JSON string ([QuoteJSONString]). *)
Definition quote_char (c : ascii) : string :=
  let n := N_of_ascii c in
  if (n =? 34)%N then String "\" (String dquote EmptyString)
  else if (n =? 92)%N then "\\"
  else if (n =? 8)%N then "\b"
  else if (n =? 12)%N then "\f"
  else if (n =? 10)%N then "\n"
  else if (n =? 13)%N then "\r"
  else if (n =? 9)%N then "\t"
  else if (n <? 32)%N then
    "\u00" +:+ String (hex_digit (n / 16)) (String (hex_digit (n mod 16)) EmptyString)
  else String c EmptyString.

Fixpoint quote_chars (s : string) : string :=
  match s with
  | EmptyString => EmptyString
  | String c s' => quote_char c +:+ quote_chars s'
  end.

Definition quote_string (s : string) : string := dq (quote_chars s).

(** [JSON.stringify]: [None] is [undefined]. Inside an array a value
    without a JSON form is written [null]; inside an object its property is
    left out. *)
Fixpoint JSON_stringify (v : JSValue) : option string :=
  match v with
  | JUndefined => None
  | JNull => Some "null"
  | JBool true => Some "true"
  | JBool false => Some "false"
  | JNum n => Some (number_to_string (int_value n))
  | JStr s => Some (quote_string s)
  | JArr items =>
      let fix elements (l : list JSValue) : list string :=
        match l with
        | [] => []
        | x :: l' => default "null" (JSON_stringify x) :: elements l'
        end in
      Some ("[" +:+ String.concat "," (elements items) +:+ "]")
  | JObj fields =>
      let fix properties (l : list (string * JSValue)) : list string :=
        match l with
        | [] => []
        | (k, x) :: l' =>
            match JSON_stringify x with
            | Some sx => (quote_string k +:+ ":" +:+ sx) :: properties l'
            | None => properties l'
            end
        end in
      Some ("{" +:+ String.concat "," (properties fields) +:+ "}")
  end.

(** [ToString], as string concatenation and template literals apply it. *)
Fixpoint js_to_string (v : JSValue) : string :=
  match v with
  | JUndefined => "undefined"
  | JNull => "null"
  | JBool true => "true"
  | JBool false => "false"
  | JNum n => number_to_string (int_value n)
  | JStr s => s
  | JArr items =>
      let fix elements (l : list JSValue) : list string :=
        match l with
        | [] => []
        | x :: l' =>
            match x with
            | JUndefined | JNull => EmptyString
            | _ => js_to_string x
            end :: elements l'
        end in
      String.concat "," (elements items)
  | JObj _ => "[object Object]"
  end.

(** *** Property access *)

Fixpoint lookup_field (k : string) (fields : list (string * JSValue))
    : JSValue :=
  match fields with
  | [] => JUndefined
  | (k', x) :: fields' =>
      if String.eqb k' k then x else lookup_field k fields'
  end.

(** [v.k] for the property names the source reads; [None] is the
    [TypeError] raised when [v] is [null] or [undefined]. Arrays, strings,
    numbers and booleans have none of those names. *)
Definition get_prop (v : JSValue) (k : string) : option JSValue :=
  match v with
  | JUndefined | JNull => None
  | JObj fields => Some (lookup_field k fields)
  | _ => Some JUndefined
  end.

(** [v?.k] *)
Definition get_prop_opt (v : JSValue) (k : string) : JSValue :=
  default JUndefined (get_prop v k).

(** The characters of a string: a byte of the form [10xxxxxx] continues
    the character before it. *)
Definition continuation (c : ascii) : bool :=
  let n := N_of_ascii c in (128 <=? n)%N && (n <? 192)%N.

Fixpoint characters (s : string) : list string :=
  match s with
  | EmptyString => []
  | String c s' =>
      match s' with
      | String c' _ =>
          if continuation c' then
            match characters s' with
            | r :: rs => String c r :: rs
            | [] => [String c EmptyString]
            end
          else String c EmptyString :: characters s'
      | EmptyString => [String c EmptyString]
      end
  end.

(** [v[0]]; on a string its first character (which stands for its first
    code unit). *)
Definition get_index0 (v : JSValue) : option JSValue :=
  match v with
  | JUndefined | JNull => None
  | JArr items => Some (default JUndefined (head items))
  | JObj fields => Some (lookup_field "0" fields)
  | JStr s =>
      Some (match characters s with
            | c :: _ => JStr c
            | [] => JUndefined
            end)
  | _ => Some JUndefined
  end.

(** What [for (const x of v)] visits; [None] when [v] is not iterable. *)
Definition iterate (v : JSValue) : option (list JSValue) :=
  match v with
  | JArr items => Some items
  | JStr s => Some (map JStr (characters s))
  | _ => None
  end.

(** [SameValueZero], the key equality of [Map]: by value on primitives,
    by identity on objects; two objects read from the wire are never the
    same object. *)
Definition same_value_zero (a b : JSValue) : bool :=
  match a, b with
  | JUndefined, JUndefined => true
  | JNull, JNull => true
  | JBool x, JBool y => Bool.eqb x y
  | JNum x, JNum y => (int_value x =? int_value y)%Z
  | JStr x, JStr y => String.eqb x y
  | _, _ => false
  end.

(** *** Lines of text *)

(** [s.split('\n')] *)
Fixpoint split_lines (s : string) : list string :=
  match s with
  | EmptyString => [EmptyString]
  | String c s' =>
      if Ascii.eqb c newline then EmptyString :: split_lines s'
      else match split_lines s' with
           | l :: ls => String c l :: ls
           | [] => [String c EmptyString]
           end
  end.

(** The white space of [String.prototype.trim] (the [WhiteSpace] and
    [LineTerminator] code points), by the bytes of the character. One
    byte: U+0009 to U+000D and U+0020. *)
Definition is_space (c : ascii) : bool :=
  let n := N_of_ascii c in
  (n =? 32)%N || ((9 <=? n)%N && (n <=? 13)%N).

(** Two bytes: U+00A0. *)
Definition is_space2 (a b : ascii) : bool :=
  (N_of_ascii a =? 194)%N && (N_of_ascii b =? 160)%N.

(** Three bytes: U+1680, U+2000 to U+200A, U+2028, U+2029, U+202F,
    U+205F, U+3000 and U+FEFF. *)
Definition is_space3 (a b c : ascii) : bool :=
  let x := N_of_ascii a in
  let y := N_of_ascii b in
  let z := N_of_ascii c in
  ((x =? 225) && (y =? 154) && (z =? 128)
   || (x =? 226) && (y =? 128)
      && ((128 <=? z) && (z <=? 138) || (z =? 168) || (z =? 169)
          || (z =? 175))
   || (x =? 226) && (y =? 129) && (z =? 159)
   || (x =? 227) && (y =? 128) && (z =? 128)
   || (x =? 239) && (y =? 187) && (z =? 191))%N.

Fixpoint trim_start (s : string) : string :=
  match s with
  | EmptyString => EmptyString
  | String a s1 =>
      if is_space a then trim_start s1
      else
        match s1 with
        | EmptyString => s
        | String b s2 =>
            if is_space2 a b then trim_start s2
            else
              match s2 with
              | EmptyString => s
              | String c s3 =>
                  if is_space3 a b c then trim_start s3 else s
              end
        end
  end.

(** Nothing but white space. *)
Definition blank (s : string) : bool :=
  String.eqb (trim_start s) EmptyString.

Fixpoint trim_end (s : string) : string :=
  match s with
  | EmptyString => EmptyString
  | String c s' => if blank s then EmptyString else String c (trim_end s')
  end.

Definition trim (s : string) : string := trim_end (trim_start s).

(** [s.slice(n)] for a non-negative [n]. *)
Fixpoint slice_from (n : nat) (s : string) : string :=
  match n, s with
  | O, _ => s
  | S n', String _ s' => slice_from n' s'
  | S _, EmptyString => EmptyString
  end.

(** [s.replace(/\/$/, '')]: drops one trailing slash. *)
Fixpoint strip_trailing_slash (s : string) : string :=
  match s with
  | EmptyString => EmptyString
  | String c EmptyString =>
      if Ascii.eqb c "/"%char then EmptyString else s
  | String c s' => String c (strip_trailing_slash s')
  end.

(** [s.split('-')[0]] *)
Fixpoint before_dash (s : string) : string :=
  match s with
  | EmptyString => EmptyString
  | String c s' =>
      if Ascii.eqb c "-"%char then EmptyString else String c (before_dash s')
  end.

(** ** [src/types.ts] *)

Inductive Role := user | model | tool.

Record ToolCall := {
  tc_id : string;
  tc_name : string;
  tc_args : JSValue
}.

(** [result] is typed [string]; it holds what [JSON.stringify] returned,
    which is [undefined] ([None]) for a value without a JSON form. *)
Record ToolResult := {
  callId : string;
  result : option string
}.

Record Message := {
  msg_id : string;
  role : Role;
  content : option string;
  toolCalls : option (list ToolCall);
  toolResults : option (list ToolResult);
  timestamp : Z;
  parentId : option string;
  childrenIds : list string
}.

(** [{ ...m, childrenIds: c }] *)
Definition with_childrenIds (m : Message) (c : list string) : Message :=
  {| msg_id := msg_id m; role := role m; content := content m;
     toolCalls := toolCalls m; toolResults := toolResults m;
     timestamp := timestamp m; parentId := parentId m; childrenIds := c |}.

(** [{ ...m, content: c, toolCalls: tcs }] *)
Definition with_content_toolCalls (m : Message) (c : option string)
    (tcs : option (list ToolCall)) : Message :=
  {| msg_id := msg_id m; role := role m; content := c;
     toolCalls := tcs; toolResults := toolResults m;
     timestamp := timestamp m; parentId := parentId m;
     childrenIds := childrenIds m |}.

(** [{ ...m, content: c }] *)
Definition with_content (m : Message) (c : option string) : Message :=
  with_content_toolCalls m c (toolCalls m).

(** ** The message tree ([ChatInterface.tsx], [geminiService.ts]) *)

(** The names that every object inherits from [Object.prototype]: under
    them [messageMap[k]] finds a function (for [__proto__], the prototype
    itself) when the map holds no such key. *)
Definition inherited_names : list string :=
  ["constructor"; "__proto__"; "hasOwnProperty"; "isPrototypeOf";
   "propertyIsEnumerable"; "toLocaleString"; "toString"; "valueOf";
   "__defineGetter__"; "__defineSetter__"; "__lookupGetter__";
   "__lookupSetter__"].

Definition inherited (k : string) : bool :=
  existsb (String.eqb k) inherited_names.

(** [messageMap[k]] finds an inherited value, which is truthy and is no
    message. *)
Definition finds_inherited (messageMap : gmap string Message) (k : string)
    : bool :=
  inherited k &&
  match messageMap !! k with
  | Some _ => false
  | None => true
  end.

(** [appendToTree]: the new node is stored under its own id; the parent is
    looked up in the map that already holds the new node. This is the map
    that the call returns; [appendToTree_raises] tells when it raises
    instead. *)
Definition appendToTree (parent : option string) (newMessage : Message)
    (updatesMap : gmap string Message) : gmap string Message :=
  let updatedMap := <[msg_id newMessage := newMessage]> updatesMap in
  match parent with
  | Some p =>
      if truthy_string p then
        match updatedMap !! p with
        | Some pm =>
            <[p := with_childrenIds pm (childrenIds pm ++ [msg_id newMessage])]>
              updatedMap
        | None => updatedMap
        end
      else updatedMap
  | None => updatedMap
  end.

(** [appendToTree] raises a [TypeError]: the parent id is truthy and
    [updatedMap[parentId]] is an inherited value, whose [childrenIds] is
    [undefined] and cannot be spread. *)
Definition appendToTree_raises (parent : option string)
    (newMessage : Message) (updatesMap : gmap string Message) : bool :=
  match parent with
  | Some p =>
      truthy_string p &&
      finds_inherited (<[msg_id newMessage := newMessage]> updatesMap) p
  | None => false
  end.

(** The [while (currentId)] loop of [getThread]; [thread.unshift(msg)] is
    a cons. One unit of fuel per loop test. The walk of the model is the
    walk of the code as long as no id on it is found as an inherited
    value ([finds_inherited]). *)
Fixpoint getThread_loop (fuel : nat) (messageMap : gmap string Message)
    (currentId : option string) (thread : list Message)
    : option (list Message) :=
  match fuel with
  | O => None
  | S fuel' =>
      match currentId with
      | None => Some thread
      | Some cid =>
          if truthy_string cid then
            match messageMap !! cid with
            | None => Some thread
            | Some msg =>
                getThread_loop fuel' messageMap (parentId msg) (msg :: thread)
            end
          else Some thread
      end
  end.

Definition getThread (fuel : nat) (messageMap : gmap string Message)
    (headId : option string) : option (list Message) :=
  match headId with
  | None => Some []
  | Some h =>
      if truthy_string h then
        match messageMap !! h with
        | None => Some []
        | Some _ => getThread_loop fuel messageMap headId []
        end
      else Some []
  end.

Inductive Direction := prev | next.

(** [Array.prototype.indexOf]: the first position, [None] for [-1]. *)
Fixpoint indexOf (l : list string) (x : string) : option nat :=
  match l with
  | [] => None
  | y :: l' =>
      if String.eqb y x then Some O
      else match indexOf l' x with
           | Some i => Some (S i)
           | None => None
           end
  end.

(** The [while (true)] loop of [navigateBranch] that follows the latest
    child down to a leaf. *)
Fixpoint descend (fuel : nat) (messageMap : gmap string Message)
    (ptr : string) : option string :=
  match fuel with
  | O => None
  | S fuel' =>
      match messageMap !! ptr with
      | None => Some ptr
      | Some node =>
          match last (childrenIds node) with
          | None => Some ptr
          | Some c => descend fuel' messageMap c
          end
      end
  end.

(** The index after the two clamping tests. *)
Definition clampIndex (direction : Direction) (currentIndex : nat)
    (len : nat) : Z :=
  let nextIndex :=
    match direction with
    | prev => (Z.of_nat currentIndex - 1)%Z
    | next => (Z.of_nat currentIndex + 1)%Z
    end in
  let nextIndex := if (nextIndex <? 0)%Z then 0%Z else nextIndex in
  if (nextIndex >=? Z.of_nat len)%Z then (Z.of_nat len - 1)%Z else nextIndex.

(** What [navigateBranch] does to the head: it returns early, or it calls
    [updateState(messageMap, ptr)]. *)
Inductive Navigation :=
| Unchanged
| SetHead (ptr : string).

(** [navigateBranch]. [childrenIds[nextIndex]] is in range whenever it is
    reached, since the clamped index lies between the first and the last
    position; the default of [nth] is never read. *)
Definition navigateBranch (fuel : nat) (messageMap : gmap string Message)
    (msgId : string) (direction : Direction) : option Navigation :=
  match messageMap !! msgId with
  | None => Some Unchanged
  | Some msg =>
      match parentId msg with
      | None => Some Unchanged
      | Some p =>
          if truthy_string p then
            match messageMap !! p with
            | None => Some Unchanged
            | Some pm =>
                match indexOf (childrenIds pm) msgId with
                | None => Some Unchanged
                | Some currentIndex =>
                    let nextIndex :=
                      clampIndex direction currentIndex
                        (length (childrenIds pm)) in
                    let nextChildId :=
                      nth (Z.to_nat nextIndex) (childrenIds pm) msgId in
                    match descend fuel messageMap nextChildId with
                    | Some ptr => Some (SetHead ptr)
                    | None => None
                    end
                end
            end
          else Some Unchanged
      end
  end.

(** ** Configuration ([src/types.ts]) *)

Record VirtualMemory := {
  vm_id : string;
  vm_name : string;
  vm_content : string;
  vm_active : bool
}.

(** [FunctionDeclaration] of the Gemini SDK, as far as the source reads
    it. *)
Record FunctionDeclaration := {
  fd_name : string;
  fd_description : option string;
  fd_parameters : JSValue
}.

Record UserTool := {
  ut_id : string;
  definition : FunctionDeclaration;
  active : bool;
  implementation : option string;
  autoExecute : option bool
}.

(** [provider] is typed ['gemini' | 'openai']; an imported configuration
    can hold any string. *)
Record ModelConfig := {
  mc_id : string;
  mc_name : string;
  provider : string;
  modelId : string;
  apiKey : string;
  baseUrl : option string
}.

Record AppConfig := {
  activeModelId : string;
  models : list ModelConfig;
  systemPrompt : string;
  memories : list VirtualMemory;
  tools : list UserTool
}.

Definition DEFAULT_CONFIG : AppConfig :=
  {| activeModelId := "default-gemini";
     models :=
       [ {| mc_id := "default-gemini"; mc_name := "Gemini 2.5 Flash";
            provider := "gemini"; modelId := "gemini-2.5-flash";
            apiKey := EmptyString; baseUrl := None |} ];
     systemPrompt := "You are a helpful AI assistant.";
     memories := [];
     tools := [] |}.

(** ** [src/services/geminiService.ts] *)

Record StreamChunk := {
  textDelta : option string;
  chunk_toolCalls : option (list ToolCall)
}.

(** A function of the source that may throw an [Error]: the value it
    returns, or the message of the error. *)
Inductive Result (A : Type) :=
| Ok (a : A)
| Err (message : string).
Arguments Ok {A} a.
Arguments Err {A} message.

Definition nonempty {A : Type} (l : list A) : bool :=
  match l with
  | [] => false
  | _ :: _ => true
  end.

Definition buildSystemInstruction (config : AppConfig) : string :=
  let activeMemories :=
    String.concat (nl +:+ nl)
      (map (λ m, "<Memory name=" +:+ dq (vm_name m) +:+ ">" +:+ nl
                 +:+ vm_content m +:+ nl +:+ "</Memory>")
           (List.filter vm_active (memories config))) in
  if truthy_string activeMemories then
    systemPrompt config +:+ nl +:+ nl +:+ "=== VIRTUAL MEMORY CONTEXT ==="
      +:+ nl +:+ activeMemories
  else systemPrompt config.

(** The parts of a Gemini [Content] that the converter builds. *)
Inductive Part :=
| TextPart (text : string)
| FunctionCallPart (name : string) (args : JSValue)
| FunctionResponsePart (id : string) (name : string)
    (response_result : JSValue).

Record Content := {
  c_role : string;
  c_parts : list Part
}.

Section Services.

(** [JSON.parse]: [None] when it throws. *)
Variable JSON_parse : string → option JSValue.

(** [JSON.parse(r)] on a stored result, which may be [undefined]. *)
Definition parse_stored (r : option string) : option JSValue :=
  match r with
  | Some s => JSON_parse s
  | None => None
  end.

(** A stored result as a value. *)
Definition stored_value (r : option string) : JSValue :=
  match r with
  | Some s => JStr s
  | None => JUndefined
  end.

Definition convertHistoryToGemini (messages : list Message) : list Content :=
  map (λ msg,
    let parts :=
      match role msg with
      | model =>
          (if truthy_opt (content msg)
           then [TextPart (default EmptyString (content msg))] else [])
          ++ match toolCalls msg with
             | Some tcs =>
                 map (λ tc, FunctionCallPart (tc_name tc) (tc_args tc)) tcs
             | None => []
             end
      | user =>
          [TextPart (if truthy_opt (content msg)
                     then default EmptyString (content msg)
                     else EmptyString)]
      | tool =>
          match toolResults msg with
          | Some trs =>
              map (λ tr,
                let parsedResult :=
                  match parse_stored (result tr) with
                  | Some v => v
                  | None => stored_value (result tr)
                  end in
                FunctionResponsePart (callId tr) (callId tr) parsedResult) trs
          | None => []
          end
      end in
    {| c_role := match role msg with
                 | tool => "tool"
                 | model => "model"
                 | user => "user"
                 end;
       c_parts := parts |}) messages.

(** One history message as OpenAI messages. *)
Definition openai_messages_of (m : Message) : list JSValue :=
  match role m with
  | user =>
      [JObj [("role", JStr "user");
             ("content", JStr (if truthy_opt (content m)
                               then default EmptyString (content m)
                               else EmptyString))]]
  | model =>
      let msg := [("role", JStr "assistant")] in
      let has_content := truthy_opt (content m) in
      let msg :=
        if has_content
        then msg ++ [("content", JStr (default EmptyString (content m)))]
        else msg in
      let msg :=
        match toolCalls m with
        | Some tcs =>
            if nonempty tcs then
              msg ++
              [("tool_calls",
                JArr (map (λ tc,
                  JObj [("id", JStr (tc_id tc));
                        ("type", JStr "function");
                        ("function",
                         JObj [("name", JStr (tc_name tc));
                               ("arguments",
                                stored_value (JSON_stringify (tc_args tc)))])])
                  tcs))]
              ++ (if has_content then [] else [("content", JNull)])
            else msg
        | None => msg
        end in
      [JObj msg]
  | tool =>
      match toolResults m with
      | Some trs =>
          map (λ tr,
            JObj [("role", JStr "tool");
                  ("tool_call_id", JStr (callId tr));
                  ("content", stored_value (result tr))]) trs
      | None => []
      end
  end.

Definition convertHistoryToOpenAI (messages : list Message)
    (systemInstruction : string) : list JSValue :=
  JObj [("role", JStr "system"); ("content", JStr systemInstruction)]
  :: concat (map openai_messages_of messages).

Definition mapToolsToOpenAI (tools : list FunctionDeclaration)
    : list JSValue :=
  map (λ t,
    JObj [("type", JStr "function");
          ("function",
           JObj [("name", JStr (fd_name t));
                 ("description",
                  match fd_description t with
                  | Some d => JStr d
                  | None => JUndefined
                  end);
                 ("parameters", fd_parameters t)])]) tools.

(** The request body that [getRawRequest] and [streamOpenAI] both build. *)
Definition openai_body (model : ModelConfig) (msgs : list JSValue)
    (activeTools : list FunctionDeclaration) : JSValue :=
  JObj ([("model", JStr (modelId model));
         ("messages", JArr msgs);
         ("stream", JBool true)]
        ++ (if nonempty activeTools
            then [("tools", JArr (mapToolsToOpenAI activeTools))]
            else [])).

(** The argument of [generateContentStream]. *)
Record GeminiArgs := {
  ga_model : string;
  ga_contents : list Content;
  ga_systemInstruction : string;
  ga_tools : option (list FunctionDeclaration)
}.

Definition gemini_args (model : ModelConfig) (messages : list Message)
    (systemInstruction : string) (activeTools : list FunctionDeclaration)
    : GeminiArgs :=
  {| ga_model := modelId model;
     ga_contents := convertHistoryToGemini messages;
     ga_systemInstruction := systemInstruction;
     ga_tools := if nonempty activeTools then Some activeTools else None |}.

(** [config.models.find(m => m.id === config.activeModelId)] *)
Definition find_active_model (config : AppConfig) : option ModelConfig :=
  List.find (λ m, String.eqb (mc_id m) (activeModelId config)) (models config).

(** [config.tools.filter(t => t.active).map(t => t.definition)] *)
Definition active_tools (config : AppConfig) : list FunctionDeclaration :=
  map definition (List.filter active (tools config)).

(** The two shapes [getRawRequest] returns. *)
Inductive RawRequest :=
| OpenAIRequest (body : JSValue)
| GeminiRequest (args : GeminiArgs).

Definition getRawRequest (config : AppConfig) (messages : list Message)
    : Result RawRequest :=
  match find_active_model config with
  | None => Err "No active model selected."
  | Some activeModel =>
      let systemInstruction := buildSystemInstruction config in
      let activeTools := active_tools config in
      if String.eqb (provider activeModel) "openai" then
        Ok (OpenAIRequest
              (openai_body activeModel
                 (convertHistoryToOpenAI messages systemInstruction)
                 activeTools))
      else
        Ok (GeminiRequest
              (gemini_args activeModel messages systemInstruction activeTools))
  end.

(** The generator [sendMessageStream] hands back, not yet started. *)
Inductive Generator :=
| streamGemini_of (model : ModelConfig) (history : list Message)
    (systemInstruction : string) (tools : list FunctionDeclaration)
| streamOpenAI_of (model : ModelConfig) (history : list Message)
    (systemInstruction : string) (tools : list FunctionDeclaration).

Definition sendMessageStream (config : AppConfig) (history : list Message)
    : Result Generator :=
  match find_active_model config with
  | None => Err "No active model selected."
  | Some activeModel =>
      if negb (truthy_string (apiKey activeModel)) then
        Err "API Key is missing for the selected model."
      else
        let systemInstruction := buildSystemInstruction config in
        let activeTools := active_tools config in
        if String.eqb (provider activeModel) "openai" then
          Ok (streamOpenAI_of activeModel history systemInstruction activeTools)
        else
          Ok (streamGemini_of activeModel history systemInstruction activeTools)
  end.

(** *** What the outside world answers *)

(** A chunk of the Gemini SDK: [chunk.text] and
    [chunk.candidates?.[0]?.content?.parts], of which only the
    [functionCall] of each part is read. *)
Record GeminiFunctionCall := {
  fc_id : option string;
  fc_name : string;
  fc_args : JSValue
}.

Record GeminiPart := {
  functionCall : option GeminiFunctionCall
}.

Record GeminiChunk := {
  g_text : option string;
  g_parts : option (list GeminiPart)
}.

(** The chunks a stream delivers, and the message of the error that ends
    it if it fails. *)
Record GeminiStream := {
  g_chunks : list GeminiChunk;
  g_failure : option string
}.

(** [fetch]: the request as the source sends it. *)
Record HttpRequest := {
  url : string;
  authorization : string;
  request_body : option string
}.

(** The decoded text of each [reader.read()], and the message of the error
    a read rejects with, if one does after them. *)
Record FetchBody := {
  reads : list string;
  read_failure : option string
}.

(** [res.json()] is [None] when the body is not JSON; [body] is [None]
    when [res.body] is null. *)
Record Response := {
  ok : bool;
  status : nat;
  statusText : string;
  json : option JSValue;
  body : option FetchBody
}.

Inductive FetchOutcome :=
| FetchRejected (message : string)
| Fetched (res : Response).

(** How the awaited call of a tool's function settles. A thrown [Error] is
    the object with its [message] field. *)
Inductive Settled :=
| Fulfilled (output : JSValue)
| Rejected (e : JSValue).

(** Everything one turn asks of its environment: the two random ids and
    clock readings of the turn, the random ids for Gemini calls without one
    (by chunk and position), the provider, and the execution of tool source
    (by position in the queue). *)
Record World := {
  w_modelMsgId : string;
  w_model_now : Z;
  w_toolMsgId : string;
  w_tool_now : Z;
  w_randomUUID : nat → nat → string;
  w_generateContentStream : string → GeminiArgs → GeminiStream;
  w_fetch : HttpRequest → FetchOutcome;
  w_execute : nat → string → JSValue → Settled
}.

(** The chunks a generator yields before it ends, and the message of the
    error it ends with, if any. *)
Record StreamRun := {
  sr_chunks : list StreamChunk;
  sr_failure : option string
}.

(** *** [streamGemini] *)

Definition gemini_chunk (w : World) (i : nat) (chunk : GeminiChunk)
    : StreamChunk :=
  {| textDelta := g_text chunk;
     chunk_toolCalls :=
       match g_parts chunk with
       | Some parts =>
           let fcs := omap functionCall parts in
           if nonempty fcs then
             Some (imap (λ j fc,
               {| tc_id := if truthy_opt (fc_id fc)
                           then default EmptyString (fc_id fc)
                           else "call_" +:+ before_dash (w_randomUUID w i j);
                  tc_name := fc_name fc;
                  tc_args := fc_args fc |}) fcs)
           else None
       | None => None
       end |}.

Definition streamGemini (w : World) (model : ModelConfig)
    (history : list Message) (systemInstruction : string)
    (tools : list FunctionDeclaration) : StreamRun :=
  let result :=
    w_generateContentStream w (apiKey model)
      (gemini_args model history systemInstruction tools) in
  {| sr_chunks := imap (gemini_chunk w) (g_chunks result);
     sr_failure := g_failure result |}.

(** *** [streamOpenAI] *)

(** An entry of [currentToolCalls]. *)
Record CallAcc := {
  acc_id : string;
  acc_name : string;
  acc_args : string
}.

(** [Map.prototype.get] and [set] on a map kept in insertion order. *)
Fixpoint map_get (calls : list (JSValue * CallAcc)) (index : JSValue)
    : option CallAcc :=
  match calls with
  | [] => None
  | (k, a) :: calls' =>
      if same_value_zero k index then Some a else map_get calls' index
  end.

Fixpoint map_set (calls : list (JSValue * CallAcc)) (index : JSValue)
    (a : CallAcc) : list (JSValue * CallAcc) :=
  match calls with
  | [] => [(index, a)]
  | (k, b) :: calls' =>
      if same_value_zero k index then (k, a) :: calls'
      else (k, b) :: map_set calls' index a
  end.

(** One [tc] of [delta.tool_calls]; [None] when [tc.index] raises. The
    ids and names that a provider sends are strings; a truthy id or name
    of another type, which the code would keep as it is, is held by its
    string form. *)
Definition merge_tool_call (calls : list (JSValue * CallAcc)) (tc : JSValue)
    : option (list (JSValue * CallAcc)) :=
  match get_prop tc "index" with
  | None => None
  | Some index =>
      let existing :=
        default {| acc_id := EmptyString; acc_name := EmptyString;
                   acc_args := EmptyString |} (map_get calls index) in
      let tc_id_v := get_prop_opt tc "id" in
      let fn := get_prop_opt tc "function" in
      let name_v := get_prop_opt fn "name" in
      let args_v := get_prop_opt fn "arguments" in
      Some (map_set calls index
        {| acc_id := if truthy tc_id_v then js_to_string tc_id_v
                     else acc_id existing;
           acc_name := if truthy name_v then js_to_string name_v
                       else acc_name existing;
           acc_args := if truthy args_v
                       then acc_args existing +:+ js_to_string args_v
                       else acc_args existing |})
  end.

(** The loop over [delta.tool_calls]: the map as far as it got, and
    whether it got to the end. *)
Fixpoint merge_tool_calls (calls : list (JSValue * CallAcc))
    (tcs : list JSValue) : list (JSValue * CallAcc) * bool :=
  match tcs with
  | [] => (calls, true)
  | tc :: tcs' =>
      match merge_tool_call calls tc with
      | Some calls' => merge_tool_calls calls' tcs'
      | None => (calls, false)
      end
  end.

Definition toolCallsSnapshot (calls : list (JSValue * CallAcc))
    : list ToolCall :=
  map (λ entry,
    {| tc_id := acc_id (snd entry);
       tc_name := acc_name (snd entry);
       tc_args := default (JObj []) (JSON_parse (acc_args (snd entry))) |})
    calls.

(** The [try] block run on the payload of a data line: the chunks yielded
    before it ends or raises, and the map afterwards. *)
Definition handle_data (calls : list (JSValue * CallAcc)) (payload : string)
    : list StreamChunk * list (JSValue * CallAcc) :=
  match JSON_parse payload with
  | None => ([], calls)
  | Some json =>
      match get_prop json "choices" with
      | None => ([], calls)
      | Some choices =>
          match get_index0 choices with
          | None => ([], calls)
          | Some choice =>
              let delta := get_prop_opt choice "delta" in
              let delta_content := get_prop_opt delta "content" in
              let text :=
                if truthy delta_content
                then [ {| textDelta := Some (js_to_string delta_content);
                          chunk_toolCalls := None |} ]
                else [] in
              let tool_calls := get_prop_opt delta "tool_calls" in
              if truthy tool_calls then
                match iterate tool_calls with
                | None => (text, calls)
                | Some tcs =>
                    let '(calls', finished) := merge_tool_calls calls tcs in
                    if finished
                    then (text ++ [ {| textDelta := None;
                                       chunk_toolCalls :=
                                         Some (toolCallsSnapshot calls') |} ],
                          calls')
                    else (text, calls')
                end
              else (text, calls)
          end
      end
  end.

(** One line of the response: the stream goes on, or it returns. *)
Inductive LineOutcome :=
| GoOn (chunks : list StreamChunk) (calls : list (JSValue * CallAcc))
| Return.

Definition process_line (calls : list (JSValue * CallAcc)) (line : string)
    : LineOutcome :=
  let trimmed := trim line in
  if negb (String.prefix "data: " trimmed) then GoOn [] calls
  else if String.eqb trimmed "data: [DONE]" then Return
  else
    let '(chunks, calls') := handle_data calls (slice_from 6 trimmed) in
    GoOn chunks calls'.

(** [for (const line of lines)]: the chunks yielded, the map, and whether
    the generator returned. *)
Fixpoint process_lines (calls : list (JSValue * CallAcc))
    (lines : list string)
    : list StreamChunk * list (JSValue * CallAcc) * bool :=
  match lines with
  | [] => ([], calls, false)
  | line :: lines' =>
      match process_line calls line with
      | Return => ([], calls, true)
      | GoOn chunks calls' =>
          let '(more, calls'', returned) := process_lines calls' lines' in
          (chunks ++ more, calls'', returned)
      end
  end.

(** The [while (true)] loop over [reader.read()]: the chunks yielded and
    whether the generator returned before the reads were used up. *)
Fixpoint read_loop (buffer : string) (calls : list (JSValue * CallAcc))
    (reads : list string) : list StreamChunk * bool :=
  match reads with
  | [] => ([], false)
  | value :: reads' =>
      let buffer := buffer +:+ value in
      let lines := split_lines buffer in
      let buffer := default EmptyString (last lines) in
      let '(chunks, calls', returned) :=
        process_lines calls (removelast lines) in
      if returned then (chunks, true)
      else
        let '(more, returned') := read_loop buffer calls' reads' in
        (chunks ++ more, returned')
  end.

(** The message of the error raised on a response that is not [ok]. *)
Definition openai_error_message (res : Response) : string :=
  let errorMsg :=
    match json res with
    | Some errJson =>
        match get_prop errJson "error" with
        | Some e =>
            let m := get_prop_opt e "message" in
            if truthy m then js_to_string m else statusText res
        | None => statusText res
        end
    | None => statusText res
    end in
  "OpenAI API Error (" +:+ number_to_string (Z.of_nat (status res)) +:+ "): "
    +:+ errorMsg.

(** The request [streamOpenAI] hands to [fetch]. *)
Definition openai_request (model : ModelConfig) (history : list Message)
    (systemInstruction : string) (tools : list FunctionDeclaration)
    : HttpRequest :=
  let messages := convertHistoryToOpenAI history systemInstruction in
  let base :=
    if truthy_opt (baseUrl model)
    then strip_trailing_slash (default EmptyString (baseUrl model))
    else "https://api.openai.com/v1" in
  {| url := base +:+ "/chat/completions";
     authorization := "Bearer " +:+ apiKey model;
     request_body := JSON_stringify (openai_body model messages tools) |}.

Definition streamOpenAI (w : World) (model : ModelConfig)
    (history : list Message) (systemInstruction : string)
    (tools : list FunctionDeclaration) : StreamRun :=
  match w_fetch w (openai_request model history systemInstruction tools) with
  | FetchRejected message => {| sr_chunks := []; sr_failure := Some message |}
  | Fetched res =>
      if negb (ok res) then
        {| sr_chunks := []; sr_failure := Some (openai_error_message res) |}
      else
        match body res with
        | None => {| sr_chunks := []; sr_failure := None |}
        | Some b =>
            let '(chunks, returned) := read_loop EmptyString [] (reads b) in
            {| sr_chunks := chunks;
               sr_failure := if returned then None else read_failure b |}
        end
  end.

(** Driving the generator that [sendMessageStream] returned. *)
Definition run_generator (w : World) (g : Generator) : StreamRun :=
  match g with
  | streamGemini_of m h s t => streamGemini w m h s t
  | streamOpenAI_of m h s t => streamOpenAI w m h s t
  end.

(** ** The turn orchestrator ([ChatInterface.tsx]) *)

(** [{ ...currentMap, [id]: f(currentMap[id]) }]. The pending node is in
    the map from the first append of the turn on; the spread of a missing
    node is not modelled. *)
Definition update_node (id : string) (f : Message → Message)
    (currentMap : gmap string Message) : gmap string Message :=
  match currentMap !! id with
  | Some m => <[id := f m]> currentMap
  | None => currentMap
  end.

(** The toolCalls field written after each chunk. *)
Definition stored_toolCalls (currentToolCalls : list ToolCall)
    : option (list ToolCall) :=
  if nonempty currentToolCalls then Some currentToolCalls else None.

(** The body of [for await (const chunk of stream)], on the triple
    [currentMap], [accumulatedText], [currentToolCalls]. *)
Definition consume_chunk (modelMsgId : string)
    (st : gmap string Message * string * list ToolCall) (chunk : StreamChunk)
    : gmap string Message * string * list ToolCall :=
  let '(currentMap, accumulatedText, currentToolCalls) := st in
  let accumulatedText :=
    if truthy_opt (textDelta chunk)
    then accumulatedText +:+ default EmptyString (textDelta chunk)
    else accumulatedText in
  let currentToolCalls :=
    match chunk_toolCalls chunk with
    | Some tcs => tcs
    | None => currentToolCalls
    end in
  (update_node modelMsgId
     (λ m, with_content_toolCalls m (Some accumulatedText)
             (stored_toolCalls currentToolCalls))
     currentMap,
   accumulatedText, currentToolCalls).

Definition consume (modelMsgId : string) (currentMap : gmap string Message)
    (chunks : list StreamChunk)
    : gmap string Message * string * list ToolCall :=
  foldl (consume_chunk modelMsgId) (currentMap, EmptyString, []) chunks.

(** [config.tools.find(t => t.definition.name === tc.name)] *)
Definition find_tool (config : AppConfig) (name : string) : option UserTool :=
  List.find (λ t, String.eqb (fd_name (definition t)) name) (tools config).

(** [toolConfig.autoExecute && toolConfig.implementation] *)
Definition runs_by_itself (toolConfig : UserTool) : bool :=
  match autoExecute toolConfig with
  | Some true => truthy_opt (implementation toolConfig)
  | _ => false
  end.

(** The callback of [finalMsg.toolCalls.map]: [None] is [null]. *)
Definition queue_item (config : AppConfig) (tc : ToolCall)
    : option (ToolCall * UserTool) :=
  match find_tool config (tc_name tc) with
  | Some toolConfig =>
      if runs_by_itself toolConfig then Some (tc, toolConfig) else None
  | None => None
  end.

(** [finalMsg.toolCalls.map(...).filter(Boolean)] *)
Definition executionQueue (config : AppConfig) (tcs : list ToolCall)
    : list (ToolCall * UserTool) :=
  omap (queue_item config) tcs.

(** The message of the [TypeError] that reading [e.message] raises when
    [e] is [null] or [undefined] (in the wording of V8). *)
Definition nullish_read_message (e : JSValue) : string :=
  "Cannot read properties of " +:+ js_to_string e
    +:+ " (reading 'message')".

(** One iteration of [for (const item of executionQueue)]: the entry
    pushed onto [results], or the message of the error that leaves the
    loop. The world is handed the tool's source and the call's [args]. *)
Definition run_item (w : World) (i : nat) (item : ToolCall * UserTool)
    : Result ToolResult :=
  match w_execute w i (default EmptyString (implementation (snd item)))
          (tc_args (fst item)) with
  | Fulfilled output =>
      Ok {| callId := tc_id (fst item); result := JSON_stringify output |}
  | Rejected e =>
      match get_prop e "message" with
      | Some message =>
          Ok {| callId := tc_id (fst item);
                result := JSON_stringify (JObj [("error", message)]) |}
      | None => Err (nullish_read_message e)
      end
  end.

Fixpoint run_queue (w : World) (i : nat) (queue : list (ToolCall * UserTool))
    : Result (list ToolResult) :=
  match queue with
  | [] => Ok []
  | item :: queue' =>
      match run_item w i item with
      | Err message => Err message
      | Ok r =>
          match run_queue w (S i) queue' with
          | Err message => Err message
          | Ok rs => Ok (r :: rs)
          end
      end
  end.

(** Where one call of [processConversationTurn] leaves the tree and the
    head, and whether it calls itself again from there. *)
Record TurnOutcome := {
  out_map : gmap string Message;
  out_head : string;
  out_continue : bool
}.

(** [`Error: ${error.message || 'Unknown error occurred'}`] *)
Definition errorMessage (message : string) : string :=
  "Error: " +:+ (if truthy_string message then message
                 else "Unknown error occurred").

(** The [catch] block. *)
Definition catch_error (currentMap : gmap string Message)
    (modelMsgId currentHead : string) (message : string) : TurnOutcome :=
  {| out_map :=
       update_node modelMsgId
         (λ m, with_content m (Some (errorMessage message))) currentMap;
     out_head := currentHead;
     out_continue := false |}.

Definition toolMsg_of (w : World) (results : list ToolResult)
    (currentHead : string) : Message :=
  {| msg_id := w_toolMsgId w; role := tool; content := None;
     toolCalls := None; toolResults := Some results;
     timestamp := w_tool_now w; parentId := Some currentHead;
     childrenIds := [] |}.

(** The part of the [try] block after the stream has ended. The pending
    node is in the map ([finalMsg] is never [undefined]). *)
Definition dispatch (w : World) (config : AppConfig)
    (currentMap : gmap string Message) (modelMsgId : string) : TurnOutcome :=
  let currentHead := modelMsgId in
  let stop :=
    {| out_map := currentMap; out_head := currentHead;
       out_continue := false |} in
  match currentMap !! modelMsgId with
  | None => stop
  | Some finalMsg =>
      match toolCalls finalMsg with
      | None => stop
      | Some tcs =>
          if nonempty tcs then
            let queue := executionQueue config tcs in
            if nonempty queue then
              match run_queue w 0 queue with
              | Err message =>
                  catch_error currentMap modelMsgId currentHead message
              | Ok results =>
                  if nonempty results then
                    {| out_map :=
                         appendToTree (Some currentHead)
                           (toolMsg_of w results currentHead) currentMap;
                       out_head := w_toolMsgId w;
                       out_continue :=
                         Nat.eqb (length results) (length tcs) |}
                  else stop
              end
            else stop
          else stop
      end
  end.

(** The [try] block, given the thread that [getThread] returned. *)
Definition respond (w : World) (config : AppConfig)
    (currentMap : gmap string Message) (modelMsgId : string)
    (historyForApi : list Message) : TurnOutcome :=
  match sendMessageStream config historyForApi with
  | Err message => catch_error currentMap modelMsgId modelMsgId message
  | Ok stream =>
      let run := run_generator w stream in
      let '(currentMap, _, _) :=
        consume modelMsgId currentMap (sr_chunks run) in
      match sr_failure run with
      | Some message => catch_error currentMap modelMsgId modelMsgId message
      | None => dispatch w config currentMap modelMsgId
      end
  end.

Definition initialModelMsg (w : World) (startHeadId : string) : Message :=
  {| msg_id := w_modelMsgId w; role := model; content := Some EmptyString;
     toolCalls := Some []; toolResults := None;
     timestamp := w_model_now w; parentId := Some startHeadId;
     childrenIds := [] |}.

(** One call of [processConversationTurn], up to the point where it would
    call itself; [None] when [getThread] runs out of fuel. *)
Definition turn (fuel : nat) (w : World) (config : AppConfig)
    (startMap : gmap string Message) (startHeadId : string)
    : option TurnOutcome :=
  let currentMap :=
    appendToTree (Some startHeadId) (initialModelMsg w startHeadId) startMap in
  match getThread fuel currentMap (Some startHeadId) with
  | None => None
  | Some historyForApi =>
      Some (respond w config currentMap (w_modelMsgId w) historyForApi)
  end.

(** [processConversationTurn]: [world n] is the environment of the [n]-th
    turn of the chain. The result is the last tree and head handed to
    [updateState]. *)
Fixpoint processConversationTurn (fuel : nat) (world : nat → World)
    (n : nat) (config : AppConfig) (startMap : gmap string Message)
    (startHeadId : string) : option (gmap string Message * string) :=
  match fuel with
  | O => None
  | S fuel' =>
      match turn fuel' (world n) config startMap startHeadId with
      | None => None
      | Some out =>
          if out_continue out then
            processConversationTurn fuel' world (S n) config
              (out_map out) (out_head out)
          else Some (out_map out, out_head out)
      end
  end.

End Services.

(** ** Reference notions for the turn properties *)

(** The last snapshot that a chunk sequence carries. *)
Definition last_snapshot (chunks : list StreamChunk)
    : option (list ToolCall) :=
  last (omap chunk_toolCalls chunks).

(** The text deltas of a chunk sequence, one after the other. *)
Definition deltas_text (chunks : list StreamChunk) : string :=
  foldr (λ chunk rest, default EmptyString (textDelta chunk) +:+ rest)
    EmptyString chunks.

(** The failure a turn meets while it builds the context or reads the
    stream: the error [sendMessageStream] throws, or the one that ends the
    stream. *)
Definition stream_failure (JSON_parse : string → option JSValue) (w : World)
    (config : AppConfig) (historyForApi : list Message) : option string :=
  match sendMessageStream config historyForApi with
  | Err message => Some message
  | Ok stream => sr_failure (run_generator JSON_parse w stream)
  end.

(** The chunks the turn reads before the stream ends or fails. *)
Definition stream_chunks (JSON_parse : string → option JSValue) (w : World)
    (config : AppConfig) (historyForApi : list Message) : list StreamChunk :=
  match sendMessageStream config historyForApi with
  | Err _ => []
  | Ok stream => sr_chunks (run_generator JSON_parse w stream)
  end.

(** The test [executionQueue] applies to a call: the first registered
    tool with the call's name is flagged for automatic execution and has
    non-empty source. *)
Definition auto_executable (config : AppConfig) (tc : ToolCall) : bool :=
  match find_tool config (tc_name tc) with
  | Some toolConfig => runs_by_itself toolConfig
  | None => false
  end.

(** [t] is the first tool of the list with that name. *)
Definition first_named (tools : list UserTool) (name : string) (t : UserTool)
    : Prop :=
  ∃ before after,
    tools = before ++ t :: after ∧
    fd_name (definition t) = name ∧
    ∀ t', t' ∈ before → fd_name (definition t') ≠ name.

(** The same configuration with other activation flags. *)
Definition with_active (f : UserTool → bool) (config : AppConfig)
    : AppConfig :=
  {| activeModelId := activeModelId config;
     models := models config;
     systemPrompt := systemPrompt config;
     memories := memories config;
     tools :=
       map (λ t, {| ut_id := ut_id t; definition := definition t;
                    active := f t; implementation := implementation t;
                    autoExecute := autoExecute t |}) (tools config) |}.

(** The test the interface applies to show a call as answered:
    [toolResults.some(tr => tr.callId === tc.id)]. *)
Definition isAnswered (tc : ToolCall) (results : list ToolResult) : bool :=
  existsb (λ tr, String.eqb (callId tr) (tc_id tc)) results.

(** ** Reference notions for the stream properties *)

(** The text of the body: the reads one after the other. *)
Definition all_text (reads : list string) : string :=
  foldr String.append EmptyString reads.

(** The complete lines of a text: those ended by a line feed. *)
Definition complete_lines (text : string) : list string :=
  removelast (split_lines text).

(** The line that ends the stream. *)
Definition done_line : string := "data: [DONE]".

(** ** Reference notions for the tree properties *)

(** A node at which the walk of [getThread] ends: no parent, an empty
    parent id, or a parent id that names no node. *)
Definition ends_walk (m : gmap string Message) (msg : Message) : Prop :=
  match parentId msg with
  | None => True
  | Some p => p = "" ∨ m !! p = None
  end.

(** [thread_of m h l]: [l] lists, root first, the nodes met when following
    [parentId] from the node stored under [h] up to a node that ends the
    walk. *)
Inductive thread_of (m : gmap string Message)
    : string → list Message → Prop :=
| thread_root h msg :
    h ≠ "" → m !! h = Some msg → ends_walk m msg →
    thread_of m h [msg]
| thread_step h msg p l :
    h ≠ "" → m !! h = Some msg → parentId msg = Some p →
    thread_of m p l →
    thread_of m h (l ++ [msg]).

(** The walk to the root of [l] does not end on an inherited name: the
    parent id of the root is not found as an inherited value. *)
Definition ends_on_own_keys (m : gmap string Message) (l : list Message)
    : Prop :=
  ∀ r p, head l = Some r → parentId r = Some p → finds_inherited m p = false.

(** Every node is stored under its own id. *)
Definition keys_are_ids (m : gmap string Message) : Prop :=
  ∀ k msg, m !! k = Some msg → msg_id msg = k.

(** Every [parentId] is null or names a stored node. *)
Definition parents_present (m : gmap string Message) : Prop :=
  ∀ k msg p, m !! k = Some msg → parentId msg = Some p → is_Some (m !! p).

(** Every id listed in a node's [childrenIds] names a stored node whose
    [parentId] is that node's id. *)
Definition children_point_back (m : gmap string Message) : Prop :=
  ∀ k msg c, m !! k = Some msg → c ∈ childrenIds msg →
    ∃ cm, m !! c = Some cm ∧ parentId cm = Some (msg_id msg).

(** A node as every call site of [appendToTree] builds it: a new id, no
    children yet, and its [parentId] field equal to the parent argument. *)
Definition fresh_node (m : gmap string Message) (parent : option string)
    (n : Message) : Prop :=
  m !! msg_id n = None ∧ childrenIds n = [] ∧ parentId n = parent.

(** The parent argument is null or names a node of the map. *)
Definition parent_known (m : gmap string Message) (parent : option string)
    : Prop :=
  match parent with
  | None => True
  | Some p => is_Some (m !! p)
  end.

(** A sequence of [appendToTree] calls, each on the result of the one
    before. *)
Definition append_all (ops : list (option string * Message))
    (m : gmap string Message) : gmap string Message :=
  foldl (λ acc op, appendToTree (fst op) (snd op) acc) m ops.

(** Every call of the sequence appends a fresh node. *)
Fixpoint fresh_appends (m : gmap string Message)
    (ops : list (option string * Message)) : Prop :=
  match ops with
  | [] => True
  | op :: ops' =>
      fresh_node m (fst op) (snd op) ∧
      fresh_appends (appendToTree (fst op) (snd op) m) ops'
  end.


(** Every call of the sequence names a parent that is null or present at
    the time of the call. *)
Fixpoint known_parents (m : gmap string Message)
    (ops : list (option string * Message)) : Prop :=
  match ops with
  | [] => True
  | op :: ops' =>
      parent_known m (fst op) ∧
      known_parents (appendToTree (fst op) (snd op) m) ops'
  end.

(** [latest_leaf m ptr leaf]: following the last child from [ptr] arrives
    at [leaf], an id with no node or a node without children. *)
Inductive latest_leaf (m : gmap string Message) : string → string → Prop :=
| leaf_unknown ptr :
    m !! ptr = None → latest_leaf m ptr ptr
| leaf_childless ptr node :
    m !! ptr = Some node → childrenIds node = [] → latest_leaf m ptr ptr
| leaf_below ptr node c leaf :
    m !! ptr = Some node → last (childrenIds node) = Some c →
    latest_leaf m c leaf →
    latest_leaf m ptr leaf.

(** A tree with a creation order: [rank] grows from every stored parent to
    its child and stays below [bound] on the stored ids. *)
Definition ranked (m : gmap string Message) (rank : string → nat)
    (bound : nat) : Prop :=
  (∀ k msg p, m !! k = Some msg → parentId msg = Some p →
     is_Some (m !! p) → rank p < rank k) ∧
  (∀ k, is_Some (m !! k) → rank k < bound).

(** The tree invariant of the store: what every sequence of appends of
    fresh nodes under known parents keeps. *)
Definition well_formed (m : gmap string Message) : Prop :=
  keys_are_ids m ∧ parents_present m ∧ children_point_back m ∧
  ∃ rank bound, ranked m rank bound.

(** A node for examples: only the tree fields matter. *)
Definition node (i : string) (r : Role) (p : option string)
    (cs : list string) : Message :=
  {| msg_id := i; role := r; content := None; toolCalls := None;
     toolResults := None; timestamp := 0%Z; parentId := p; childrenIds := cs |}.

(** ** Example trees *)

(** A two-node conversation: a user root and the model's answer. *)
Definition two_nodes : gmap string Message :=
  <["u1" := node "u1" user None ["m1"]]>
    (<["m1" := node "m1" model (Some "u1") []]> ∅).

(** A node that is its own parent, a node stored under the empty key, and
    a node stored under a key that is not its id. *)
Definition self_parent : gmap string Message :=
  <["a" := node "a" user (Some "a") ["a"]]> ∅.

Definition blank_key : gmap string Message :=
  <["" := node "" user None []]> ∅.

Definition foreign_key : gmap string Message :=
  <["k" := node "other" user None []]> ∅.


(** The two calls that build [two_nodes]. *)
Definition two_appends : list (option string * Message) :=
  [(None, node "u1" user None []);
   (Some "u1", node "m1" model (Some "u1") [])].

(** A root with two answers. *)
Definition forked : gmap string Message :=
  <["r" := node "r" user None ["b1"; "b2"]]>
    (<["b1" := node "b1" model (Some "r") []]>
      (<["b2" := node "b2" model (Some "r") []]> ∅)).

(** ** Example turns *)

(** A world in which nothing answers: the provider sends no chunk, every
    request is refused and every tool returns [undefined]. *)
Definition quiet_world : World :=
  {| w_modelMsgId := "model-1"; w_model_now := 1%Z;
     w_toolMsgId := "tool-1"; w_tool_now := 2%Z;
     w_randomUUID := λ _ _, "0f8fad5b-d9cb-469f-a165-70867728950e";
     w_generateContentStream :=
       λ _ _, {| g_chunks := []; g_failure := None |};
     w_fetch := λ _, FetchRejected "Failed to fetch";
     w_execute := λ _ _ _, Fulfilled JUndefined |}.

Definition weather_call : ToolCall :=
  {| tc_id := "c1"; tc_name := "get_weather";
     tc_args := JObj [("city", JStr "NYC")] |}.

(** Two text chunks, the first with an early snapshot, then the final
    snapshot. *)
Definition weather_chunks : list StreamChunk :=
  [ {| textDelta := Some "Hel";
       chunk_toolCalls :=
         Some [ {| tc_id := "c0"; tc_name := "get_time";
                   tc_args := JObj [] |} ] |};
    {| textDelta := Some "lo"; chunk_toolCalls := None |};
    {| textDelta := None; chunk_toolCalls := Some [weather_call] |} ].

(** A tool that runs by itself and one that waits for a manual result. *)
Definition get_weather_tool : UserTool :=
  {| ut_id := "t1";
     definition :=
       {| fd_name := "get_weather";
          fd_description := Some "Get current weather";
          fd_parameters := JObj [("type", JStr "OBJECT")] |};
     active := true;
     implementation := Some "return 'sunny';";
     autoExecute := Some true |}.

Definition get_time_tool : UserTool :=
  {| ut_id := "t2";
     definition :=
       {| fd_name := "get_time"; fd_description := None;
          fd_parameters := JUndefined |};
     active := true;
     implementation := None;
     autoExecute := None |}.

Definition openai_model : ModelConfig :=
  {| mc_id := "m-openai"; mc_name := "GPT"; provider := "openai";
     modelId := "gpt-4o"; apiKey := "sk-test";
     baseUrl := Some "https://example.test/v1/" |}.

Definition tools_config : AppConfig :=
  {| activeModelId := "m-openai";
     models := [openai_model];
     systemPrompt := "You are a helpful AI assistant.";
     memories := [];
     tools := [get_weather_tool; get_time_tool] |}.

(** The weather tool switched off. *)
Definition disabled_config : AppConfig :=
  with_active (λ _, false) tools_config.

Definition time_call : ToolCall :=
  {| tc_id := "c2"; tc_name := "get_time"; tc_args := JObj [] |}.

(** A finalized model node with the given calls, under a user root. *)
Definition finalized (tcs : list ToolCall) : gmap string Message :=
  <["u1" := node "u1" user None ["model-1"]]>
    (<["model-1" :=
         {| msg_id := "model-1"; role := model; content := Some EmptyString;
            toolCalls := Some tcs; toolResults := None; timestamp := 1%Z;
            parentId := Some "u1"; childrenIds := [] |}]> ∅).

(** Worlds that differ in how a tool's function settles. *)
Definition world_where (settle : Settled) : World :=
  {| w_modelMsgId := "model-1"; w_model_now := 1%Z;
     w_toolMsgId := "tool-1"; w_tool_now := 2%Z;
     w_randomUUID := λ _ _, "0f8fad5b-d9cb-469f-a165-70867728950e";
     w_generateContentStream :=
       λ _ _, {| g_chunks := []; g_failure := None |};
     w_fetch := λ _, FetchRejected "Failed to fetch";
     w_execute := λ _ _ _, settle |}.

Definition sunny_world : World := world_where (Fulfilled (JStr "sunny")).
Definition boom_world : World :=
  world_where (Rejected (JObj [("message", JStr "boom")])).

(** ** A JSON reader for the examples

    The properties below hold for any [JSON_parse]; the examples run with
    this reader, which accepts JSON texts whose numbers are safe integers
    and whose escapes stay within one byte. *)

Definition json_space (c : ascii) : bool :=
  let n := N_of_ascii c in
  (n =? 32)%N || (n =? 9)%N || (n =? 10)%N || (n =? 13)%N.

Fixpoint skip_spaces (s : list ascii) : list ascii :=
  match s with
  | c :: s' => if json_space c then skip_spaces s' else s
  | [] => []
  end.

Definition hex_value (c : ascii) : option N :=
  let n := N_of_ascii c in
  if ((48 <=? n) && (n <=? 57))%N then Some (n - 48)%N
  else if ((97 <=? n) && (n <=? 102))%N then Some (n - 87)%N
  else if ((65 <=? n) && (n <=? 70))%N then Some (n - 55)%N
  else None.

(** The characters of a string up to its closing quote. *)
Fixpoint read_string_body (s : list ascii) : option (string * list ascii) :=
  match s with
  | [] => None
  | c :: s' =>
      if Ascii.eqb c dquote then Some (EmptyString, s')
      else if Ascii.eqb c "\"%char then
        match s' with
        | e :: s'' =>
            let continue_with (x : ascii) (rest : list ascii) :=
              match read_string_body rest with
              | Some (str, r) => Some (String x str, r)
              | None => None
              end in
            if Ascii.eqb e dquote then continue_with dquote s''
            else if Ascii.eqb e "\"%char then continue_with "\"%char s''
            else if Ascii.eqb e "/"%char then continue_with "/"%char s''
            else if Ascii.eqb e "b"%char then continue_with "008"%char s''
            else if Ascii.eqb e "f"%char then continue_with "012"%char s''
            else if Ascii.eqb e "n"%char then continue_with "010"%char s''
            else if Ascii.eqb e "r"%char then continue_with "013"%char s''
            else if Ascii.eqb e "t"%char then continue_with "009"%char s''
            else if Ascii.eqb e "u"%char then
              match s'' with
              | h1 :: h2 :: h3 :: h4 :: s3 =>
                  match hex_value h1, hex_value h2, hex_value h3, hex_value h4 with
                  | Some 0%N, Some 0%N, Some a, Some b =>
                      continue_with (ascii_of_N (16 * a + b)) s3
                  | _, _, _, _ => None
                  end
              | _ => None
              end
            else None
        | [] => None
        end
      else if (N_of_ascii c <? 32)%N then None
      else
        match read_string_body s' with
        | Some (str, r) => Some (String c str, r)
        | None => None
        end
  end.

Fixpoint read_digits (s : list ascii) (acc : Z) : Z * list ascii :=
  match s with
  | c :: s' =>
      let n := N_of_ascii c in
      if ((48 <=? n) && (n <=? 57))%N
      then read_digits s' (10 * acc + Z.of_N (n - 48))%Z
      else (acc, s)
  | [] => (acc, [])
  end.

(** An integer without sign: a lone zero, or digits that do not start with
    zero; a fraction or an exponent is refused. *)
Definition read_natural (s : list ascii) : option (Z * list ascii) :=
  match s with
  | c :: s' =>
      let n := N_of_ascii c in
      let ends_number (r : list ascii) :=
        match r with
        | x :: _ =>
            negb (Ascii.eqb x "."%char || Ascii.eqb x "e"%char
                  || Ascii.eqb x "E"%char)
        | [] => true
        end in
      if (n =? 48)%N then
        match s' with
        | d :: _ =>
            if ((48 <=? N_of_ascii d) && (N_of_ascii d <=? 57))%N then None
            else if ends_number s' then Some (0%Z, s') else None
        | [] => Some (0%Z, [])
        end
      else if ((49 <=? n) && (n <=? 57))%N then
        let '(v, r) := read_digits s 0%Z in
        if ends_number r then Some (v, r) else None
      else None
  | [] => None
  end.

(** [obj[k] = v] while reading: a repeated key keeps its place and takes
    the later value. *)
Fixpoint set_field (k : string) (v : JSValue)
    (fields : list (string * JSValue)) : list (string * JSValue) :=
  match fields with
  | [] => [(k, v)]
  | (k', x) :: fields' =>
      if String.eqb k' k then (k', v) :: fields'
      else (k', x) :: set_field k v fields'
  end.

Fixpoint read_value (fuel : nat) (s : list ascii) {struct fuel}
    : option (JSValue * list ascii) :=
  match fuel with
  | O => None
  | S fuel' =>
      match skip_spaces s with
      | [] => None
      | c :: rest =>
          if Ascii.eqb c "{"%char then
            match skip_spaces rest with
            | x :: r =>
                if Ascii.eqb x "}"%char then Some (JObj [], r)
                else read_members fuel' rest []
            | [] => None
            end
          else if Ascii.eqb c "["%char then
            match skip_spaces rest with
            | x :: r =>
                if Ascii.eqb x "]"%char then Some (JArr [], r)
                else read_elements fuel' rest []
            | [] => None
            end
          else if Ascii.eqb c dquote then
            match read_string_body rest with
            | Some (str, r) => Some (JStr str, r)
            | None => None
            end
          else if Ascii.eqb c "-"%char then
            match read_natural rest with
            | Some (v, r) =>
                match safe_integer (- v) with
                | Some n => Some (JNum n, r)
                | None => None
                end
            | None => None
            end
          else
            match c :: rest with
            | "t" :: "r" :: "u" :: "e" :: r => Some (JBool true, r)
            | "f" :: "a" :: "l" :: "s" :: "e" :: r => Some (JBool false, r)
            | "n" :: "u" :: "l" :: "l" :: r => Some (JNull, r)
            | _ =>
                match read_natural (c :: rest) with
                | Some (v, r) =>
                    match safe_integer v with
                    | Some n => Some (JNum n, r)
                    | None => None
                    end
                | None => None
                end
            end%char
      end
  end
with read_elements (fuel : nat) (s : list ascii) (acc : list JSValue)
    {struct fuel} : option (JSValue * list ascii) :=
  match fuel with
  | O => None
  | S fuel' =>
      match read_value fuel' s with
      | Some (v, r) =>
          match skip_spaces r with
          | x :: r' =>
              if Ascii.eqb x ","%char then read_elements fuel' r' (acc ++ [v])
              else if Ascii.eqb x "]"%char then Some (JArr (acc ++ [v]), r')
              else None
          | [] => None
          end
      | None => None
      end
  end
with read_members (fuel : nat) (s : list ascii)
    (acc : list (string * JSValue)) {struct fuel}
    : option (JSValue * list ascii) :=
  match fuel with
  | O => None
  | S fuel' =>
      match skip_spaces s with
      | q :: s1 =>
          if Ascii.eqb q dquote then
            match read_string_body s1 with
            | Some (k, s2) =>
                match skip_spaces s2 with
                | colon :: s3 =>
                    if Ascii.eqb colon ":"%char then
                      match read_value fuel' s3 with
                      | Some (v, r) =>
                          match skip_spaces r with
                          | x :: r' =>
                              if Ascii.eqb x ","%char
                              then read_members fuel' r' (set_field k v acc)
                              else if Ascii.eqb x "}"%char
                              then Some (JObj (set_field k v acc), r')
                              else None
                          | [] => None
                          end
                      | None => None
                      end
                    else None
                | [] => None
                end
            | None => None
            end
          else None
      | [] => None
      end
  end.

Definition read_json (text : string) : option JSValue :=
  let s := String.list_ascii_of_string text in
  match read_value (2 * length s + 2) s with
  | Some (v, r) =>
      match skip_spaces r with
      | [] => Some v
      | _ :: _ => None
      end
  | None => None
  end.

(** A text with every apostrophe turned into a double quote, to write
    JSON in examples. *)
Fixpoint q (s : string) : string :=
  match s with
  | EmptyString => EmptyString
  | String c s' => String (if Ascii.eqb c "'"%char then dquote else c) (q s')
  end.

(** A conversation that holds one user message. *)
Definition one_user : gmap string Message :=
  <["u1" := node "u1" user None []]> ∅.

(** The body of an OpenAI-compatible response, cut into reads in the
    middle of a line: a comment line, a fragment that is not JSON, a text
    delta, a tool call whose arguments come in two pieces, the end
    marker, and a line after it. *)
Definition sse_reads : list string :=
  [ ": keep-alive" +:+ nl +:+ q "data: {not json" +:+ nl +:+ "data: {";
    q "'choices':[{'delta':{'content':'Hi'}}]}" +:+ nl;
    q "data: {'choices':[{'delta':{'tool_calls':[{'index':0,'id':'c1','function':{'name':'get_weather','arguments':'{\'city\':'}}]}}]}"
      +:+ nl;
    q "data: {'choices':[{'delta':{'tool_calls':[{'index':0,'function':{'arguments':'\'NYC\'}'}}]}}]}"
      +:+ nl +:+ "data: [DONE]" +:+ nl
      +:+ q "data: {'choices':[{'delta':{'content':'late'}}]}" +:+ nl ].

(** The same text in one read. *)
Definition sse_one_read : list string := [all_text sse_reads].

(** The body of the response to the follow-up request. *)
Definition sse_answer : list string :=
  [ q "data: {'choices':[{'delta':{'content':'It is sunny.'}}]}" +:+ nl
      +:+ "data: [DONE]" +:+ nl ].

Definition response_of (texts : list string) : FetchOutcome :=
  Fetched {| ok := true; status := 200; statusText := "OK"; json := None;
             body := Some {| reads := texts; read_failure := None |} |}.

(** The worlds of a chain of two turns: the provider first asks for the
    weather, the tool answers, and the provider then replies in text. *)
Definition chat_world (n : nat) : World :=
  match n with
  | O =>
      {| w_modelMsgId := "model-1"; w_model_now := 1%Z;
         w_toolMsgId := "tool-1"; w_tool_now := 2%Z;
         w_randomUUID := λ _ _, "0f8fad5b-d9cb-469f-a165-70867728950e";
         w_generateContentStream :=
           λ _ _, {| g_chunks := []; g_failure := None |};
         w_fetch := λ _, response_of sse_reads;
         w_execute := λ _ _ _, Fulfilled (JStr "sunny") |}
  | S _ =>
      {| w_modelMsgId := "model-2"; w_model_now := 3%Z;
         w_toolMsgId := "tool-2"; w_tool_now := 4%Z;
         w_randomUUID := λ _ _, "7c9e6679-7425-40de-944b-e07fc1f90ae7";
         w_generateContentStream :=
           λ _ _, {| g_chunks := []; g_failure := None |};
         w_fetch := λ _, response_of sse_answer;
         w_execute := λ _ _ _, Fulfilled (JStr "sunny") |}
  end.

(** The chunks that [sse_reads] yields. *)
Definition sse_chunks : list StreamChunk :=
  [ {| textDelta := Some "Hi"; chunk_toolCalls := None |};
    {| textDelta := None;
       chunk_toolCalls :=
         Some [ {| tc_id := "c1"; tc_name := "get_weather";
                   tc_args := JObj [] |} ] |};
    {| textDelta := None; chunk_toolCalls := Some [weather_call] |} ].

(** A second call of the weather tool, and a world in which the first
    execution returns and every later one throws [null]. *)
Definition weather_call_again : ToolCall :=
  {| tc_id := "c3"; tc_name := "get_weather";
     tc_args := JObj [("city", JStr "Paris")] |}.

Definition second_throws_world : World :=
  {| w_modelMsgId := "model-1"; w_model_now := 1%Z;
     w_toolMsgId := "tool-1"; w_tool_now := 2%Z;
     w_randomUUID := λ _ _, "0f8fad5b-d9cb-469f-a165-70867728950e";
     w_generateContentStream :=
       λ _ _, {| g_chunks := []; g_failure := None |};
     w_fetch := λ _, FetchRejected "Failed to fetch";
     w_execute := λ i _ _,
       match i with
       | O => Fulfilled (JStr "sunny")
       | S _ => Rejected JNull
       end |}.

(** * The rest of the services, the handlers of the interface and the
      import of a session *)

(** ** Reference notions for the request builders *)

(** The block that stands for one memory in the system instruction. *)
Definition memory_block (m : VirtualMemory) : string :=
  "<Memory name=" +:+ dq (vm_name m) +:+ ">" +:+ nl +:+ vm_content m +:+ nl
    +:+ "</Memory>".

(** The same configuration with other memories. *)
Definition with_memories (l : list VirtualMemory) (config : AppConfig)
    : AppConfig :=
  {| activeModelId := activeModelId config;
     models := models config;
     systemPrompt := systemPrompt config;
     memories := l;
     tools := tools config |}.

(** What a provider reads in an OpenAI message: its role, the ids of the
    calls it requests, and the id of the call it answers. *)
Definition openai_role (v : JSValue) : JSValue := get_prop_opt v "role".

Definition requested_ids (v : JSValue) : list JSValue :=
  match get_prop_opt v "tool_calls" with
  | JArr tcs => map (λ tc, get_prop_opt tc "id") tcs
  | _ => []
  end.

Definition answered_id (v : JSValue) : option JSValue :=
  match get_prop_opt v "tool_call_id" with
  | JUndefined => None
  | i => Some i
  end.

(** The roles, requested ids and answered ids that a history message
    stands for. *)
Definition roles_of (m : Message) : list JSValue :=
  match role m with
  | user => [JStr "user"]
  | model => [JStr "assistant"]
  | tool => map (λ _, JStr "tool") (default [] (toolResults m))
  end.

Definition call_ids_of (m : Message) : list JSValue :=
  match role m with
  | model => map (λ tc, JStr (tc_id tc)) (default [] (toolCalls m))
  | _ => []
  end.

Definition result_ids_of (m : Message) : list JSValue :=
  match role m with
  | tool => map (λ tr, JStr (callId tr)) (default [] (toolResults m))
  | _ => []
  end.

(** ** Reference notions for threads that grow *)

(** A thread in which the node [h] lists one more child, [c]. *)
Definition relink (h c : string) (l : list Message) : list Message :=
  map (λ x, if String.eqb (msg_id x) h
            then with_childrenIds x (childrenIds x ++ [c]) else x) l.

(** ** Reference notions for the streams *)

(** The sizes of the snapshots that a chunk sequence carries, in order. *)
Definition snapshot_sizes (chunks : list StreamChunk) : list nat :=
  map length (omap chunk_toolCalls chunks).

(** A text that does not end with a slash. *)
Definition no_trailing_slash (s : string) : Prop :=
  ∀ t, s ≠ t +:+ "/".

(** [l] never decreases, starts at [lo] or above and ends at [hi] or
    below. *)
Fixpoint ascending (lo : nat) (l : list nat) (hi : nat) : Prop :=
  match l with
  | [] => lo ≤ hi
  | x :: l' => lo ≤ x ∧ ascending x l' hi
  end.

(** ** The handlers of the chat interface ([ChatInterface.tsx]) *)

Inductive InputMode := user_input | fake_tool.

Record AttachedFile := {
  af_name : string;
  af_content : string
}.

(** The state of the component that the handlers read. *)
Record ChatState := {
  inputMode : InputMode;
  input : string;
  attachments : list AttachedFile;
  selectedToolName : string;
  fakeArgs : string;
  fakeOutput : string;
  isLoading : bool
}.

(** What a handler gets from [crypto.randomUUID()] and [Date.now()], by
    the position of the call among the handler's calls. *)
Record Clock := {
  h_randomUUID : nat → string;
  h_now : nat → Z
}.

(** What a handler does: nothing, an [alert], or a call of
    [processConversationTurn] from a tree and a head (which [handleSend]
    and [handleToolSubmit] hand to [updateState] first). The resets of the
    input fields and the opening of the side bar are left out. *)
Inductive Handled :=
| Ignored
| Alerted (message : string)
| Started (nextMap : gmap string Message) (nextHead : string).

(** The text that stands for one attached file. *)
Definition file_block (f : AttachedFile) : string :=
  nl +:+ "<file name=" +:+ dq (af_name f) +:+ ">" +:+ nl +:+ af_content f
    +:+ nl +:+ "</file>".

(** [finalContent] of [handleSend]. *)
Definition finalContent (input : string) (attachments : list AttachedFile)
    : string :=
  if nonempty attachments then
    input +:+ nl +:+ nl +:+ "=== ATTACHED FILES ===" +:+ nl
      +:+ String.concat nl (map file_block attachments)
  else input.

(** [!activeModel?.apiKey] *)
Definition lacks_apiKey (config : AppConfig) : bool :=
  match find_active_model config with
  | Some activeModel => negb (truthy_string (apiKey activeModel))
  | None => true
  end.

Definition userMessage (e : Clock) (headId : option string)
    (st : ChatState) : Message :=
  {| msg_id := h_randomUUID e 0; role := user;
     content := Some (finalContent (input st) (attachments st));
     toolCalls := None; toolResults := None;
     timestamp := h_now e 0; parentId := headId; childrenIds := [] |}.

(** The call id, the model node and the tool node of the fake sequence. *)
Definition fake_callId (e : Clock) : string :=
  "call_" +:+ before_dash (h_randomUUID e 0).

Definition fakeModelCall (e : Clock) (headId : option string)
    (st : ChatState) (parsedArgs : JSValue) : Message :=
  {| msg_id := h_randomUUID e 1; role := model; content := None;
     toolCalls :=
       Some [ {| tc_id := fake_callId e; tc_name := selectedToolName st;
                 tc_args := parsedArgs |} ];
     toolResults := None;
     timestamp := h_now e 0; parentId := headId; childrenIds := [] |}.

Definition fakeToolResponse (e : Clock) (st : ChatState) : Message :=
  {| msg_id := h_randomUUID e 2; role := tool; content := None;
     toolCalls := None;
     toolResults :=
       Some [ {| callId := fake_callId e; result := Some (fakeOutput st) |} ];
     timestamp := (h_now e 1 + 10)%Z;
     parentId := Some (h_randomUUID e 1); childrenIds := [] |}.

Definition handleSend (JSON_parse : string → option JSValue) (e : Clock)
    (config : AppConfig) (messageMap : gmap string Message)
    (headId : option string) (st : ChatState) : Handled :=
  if isLoading st then Ignored
  else if lacks_apiKey config then
    Alerted
      "Please configure an API Key for the active model in the settings panel."
  else
    match inputMode st with
    | user_input =>
        if negb (truthy_string (trim (input st)))
           && negb (nonempty (attachments st))
        then Ignored
        else
          let newMessage := userMessage e headId st in
          Started (appendToTree headId newMessage messageMap)
            (msg_id newMessage)
    | fake_tool =>
        if negb (truthy_string (selectedToolName st)) then
          Alerted "No tool selected."
        else
          match JSON_parse (fakeArgs st) with
          | None => Alerted "Invalid JSON in Arguments or Output fields."
          | Some parsedArgs =>
              let call := fakeModelCall e headId st parsedArgs in
              let nextMap := appendToTree headId call messageMap in
              let response := fakeToolResponse e st in
              Started (appendToTree (Some (msg_id call)) response nextMap)
                (msg_id response)
          end
    end.

Definition toolMessage (e : Clock) (headId : option string)
    (id answer : string) : Message :=
  {| msg_id := h_randomUUID e 0; role := tool; content := None;
     toolCalls := None;
     toolResults := Some [ {| callId := id; result := Some answer |} ];
     timestamp := h_now e 0; parentId := headId; childrenIds := [] |}.

Definition handleToolSubmit (e : Clock) (messageMap : gmap string Message)
    (headId : option string) (loading : bool) (id answer : string)
    : Handled :=
  if loading then Ignored
  else
    let m := toolMessage e headId id answer in
    Started (appendToTree headId m messageMap) (msg_id m).

Definition handleRegenerate (messageMap : gmap string Message)
    (loading : bool) (msgId : string) : Handled :=
  if loading then Ignored
  else
    match messageMap !! msgId with
    | None => Ignored
    | Some msg =>
        if truthy_opt (parentId msg)
        then Started messageMap (default EmptyString (parentId msg))
        else Ignored
    end.

(** [prev.filter((_, i) => i !== index)] *)
Fixpoint filter_indexed {A : Type} (p : A → nat → bool) (i : nat)
    (l : list A) : list A :=
  match l with
  | [] => []
  | x :: l' =>
      if p x i then x :: filter_indexed p (S i) l'
      else filter_indexed p (S i) l'
  end.

Definition removeAttachment (index : nat) (prev : list AttachedFile)
    : list AttachedFile :=
  filter_indexed (λ _ i, negb (Nat.eqb i index)) 0 prev.

(** *** What the interface shows for a message of the thread *)

(** [msg.parentId ? messageMap[msg.parentId] : null] *)
Definition parent_of (messageMap : gmap string Message) (msg : Message)
    : option Message :=
  if truthy_opt (parentId msg)
  then messageMap !! default EmptyString (parentId msg)
  else None.

Definition siblingCount (messageMap : gmap string Message) (msg : Message)
    : Z :=
  match parent_of messageMap msg with
  | Some parent => Z.of_nat (length (childrenIds parent))
  | None => 0%Z
  end.

(** [indexOf] gives [-1] for an id that is not listed. *)
Definition currentSiblingIndex (messageMap : gmap string Message)
    (msg : Message) : Z :=
  match parent_of messageMap msg with
  | Some parent =>
      match indexOf (childrenIds parent) (msg_id msg) with
      | Some i => Z.of_nat i
      | None => (-1)%Z
      end
  | None => 0%Z
  end.

(** The navigation is rendered, and its buttons are not disabled. *)
Definition shows_navigation (messageMap : gmap string Message)
    (msg : Message) : bool :=
  (1 <? siblingCount messageMap msg)%Z.

Definition prev_enabled (messageMap : gmap string Message) (msg : Message)
    : bool :=
  shows_navigation messageMap msg
  && negb (currentSiblingIndex messageMap msg =? 0)%Z.

Definition next_enabled (messageMap : gmap string Message) (msg : Message)
    : bool :=
  shows_navigation messageMap msg
  && negb (currentSiblingIndex messageMap msg
           =? siblingCount messageMap msg - 1)%Z.

(** A click on the button of [msg] for the previous or the next sibling:
    the buttons are there only when the navigation is rendered, a
    disabled button calls nothing, and an enabled one calls
    [navigateBranch(msg.id, direction)]. *)
Definition navigation_click (fuel : nat) (messageMap : gmap string Message)
    (msg : Message) (direction : Direction) : option Navigation :=
  if match direction with
     | prev => prev_enabled messageMap msg
     | next => next_enabled messageMap msg
     end
  then navigateBranch fuel messageMap (msg_id msg) direction
  else Some Unchanged.

(** The descent from [ptr] through the last child at every level does not
    end on an id that is found as an inherited value. *)
Definition descends_on_own_keys (m : gmap string Message) (ptr : string)
    : Prop :=
  ∀ leaf, latest_leaf m ptr leaf → finds_inherited m leaf = false.

(** [Array.prototype.findIndex]: [None] for [-1]. *)
Fixpoint findIndex {A : Type} (p : A → bool) (l : list A) : option nat :=
  match l with
  | [] => None
  | x :: l' =>
      if p x then Some 0
      else match findIndex p l' with
           | Some i => Some (S i)
           | None => None
           end
  end.

(** [currentThread[currentThread.findIndex(m => m.id === msg.id) + 1]] *)
Definition nextMsg (currentThread : list Message) (msg : Message)
    : option Message :=
  let nextMsgIndex :=
    match findIndex (λ m, String.eqb (msg_id m) (msg_id msg)) currentThread
    with
    | Some i => S i
    | None => 0
    end in
  currentThread !! nextMsgIndex.

(** Whether a call of [msg] is shown as answered ([Call History]) or with
    the field for a manual result. *)
Definition shown_answered (currentThread : list Message) (msg : Message)
    (tc : ToolCall) : bool :=
  match nextMsg currentThread msg with
  | Some n =>
      match role n, toolResults n with
      | tool, Some trs => isAnswered tc trs
      | _, _ => false
      end
  | None => false
  end.

(** ** Reference notions for the handlers *)

(** The head is null, or names a stored node. *)
Definition head_known (m : gmap string Message) (headId : option string)
    : Prop :=
  match headId with
  | None => True
  | Some h => h ≠ EmptyString ∧ is_Some (m !! h)
  end.

(** The thread of a head that may be null. *)
Definition thread_from (m : gmap string Message) (headId : option string)
    (l : list Message) : Prop :=
  match headId with
  | None => l = []
  | Some h => thread_of m h l
  end.

Definition relink_from (headId : option string) (c : string)
    (l : list Message) : list Message :=
  match headId with
  | None => l
  | Some h => relink h c l
  end.

(** The node stored under [k] has no children. *)
Definition is_leaf (m : gmap string Message) (k : string) : Prop :=
  ∃ x, m !! k = Some x ∧ childrenIds x = [].

(** ** Example trees of an imported session *)

(** The head [a] has the sibling [b], which lists itself as its child. *)
Definition looping : gmap string Message :=
  <["p" := node "p" user None ["a"; "b"]]>
    (<["a" := node "a" model (Some "p") []]>
       (<["b" := node "b" model (Some "p") ["b"]]> ∅)).

(** The head [a] names the parent [p], which lists [b] and [c] only. *)
Definition unlisted : gmap string Message :=
  <["p" := node "p" user None ["b"; "c"]]>
    (<["a" := node "a" model (Some "p") []]>
       (<["b" := node "b" model (Some "p") []]>
          (<["c" := node "c" model (Some "p") []]> ∅))).

(** ** Example states of the interface *)

Definition typing (text : string) : ChatState :=
  {| inputMode := user_input; input := text; attachments := [];
     selectedToolName := "get_weather"; fakeArgs := "{}";
     fakeOutput := q "{'status': 'success'}"; isLoading := false |}.


Definition clock_of (a b c : string) : Clock :=
  {| h_randomUUID := λ i, match i with
                          | 0 => a
                          | 1 => b
                          | _ => c
                          end;
     h_now := λ i, (5 + Z.of_nat i)%Z |}.

(** [m'] is [m] except for the text, calls and results of the node [id]:
    the same keys, every other node as it was, and the node [id] with the
    same id, role and tree pointers. *)
Definition touches (id : string) (m m' : gmap string Message) : Prop :=
  (∀ k, k ≠ id → m' !! k = m !! k) ∧
  match m !! id, m' !! id with
  | Some x, Some x' =>
      msg_id x' = msg_id x ∧ role x' = role x ∧ parentId x' = parentId x ∧
      childrenIds x' = childrenIds x
  | None, None => True
  | _, _ => False
  end.

(** From the [n]-th turn on, the ids that the turns of a chain draw are
    new to the tree, not empty, and different from each other. *)
Definition new_ids (world : nat → World) (n : nat)
    (m : gmap string Message) : Prop :=
  ∀ i, n ≤ i →
    m !! w_modelMsgId (world i) = None ∧
    m !! w_toolMsgId (world i) = None ∧
    w_modelMsgId (world i) ≠ EmptyString ∧
    w_toolMsgId (world i) ≠ EmptyString ∧
    ∀ j, n ≤ j →
      w_toolMsgId (world i) ≠ w_modelMsgId (world j) ∧
      (i ≠ j →
       w_modelMsgId (world i) ≠ w_modelMsgId (world j) ∧
       w_toolMsgId (world i) ≠ w_toolMsgId (world j)).

(** The worlds of a chain in which the [n]-th turn draws the ids
    [model-n] and [tool-n]: the provider first asks for the weather, the
    tool answers, and the provider then replies in text. *)
Definition numbered_world (n : nat) : World :=
  {| w_modelMsgId := "model-" +:+ pretty n;
     w_model_now := Z.of_nat (2 * n);
     w_toolMsgId := "tool-" +:+ pretty n;
     w_tool_now := Z.of_nat (2 * n + 1);
     w_randomUUID := λ _ _, "0f8fad5b-d9cb-469f-a165-70867728950e";
     w_generateContentStream :=
       λ _ _, {| g_chunks := []; g_failure := None |};
     w_fetch := λ _, response_of match n with
                                 | 0 => sse_reads
                                 | S _ => sse_answer
                                 end;
     w_execute := λ _ _ _, Fulfilled (JStr "sunny") |}.





(** A thread in which the model asked for the weather and the time, and
    only the weather was answered by itself: the user message, the model
    message and the tool message. *)
Definition partial_map : gmap string Message :=
  out_map (dispatch sunny_world tools_config
             (finalized [weather_call; time_call]) "model-1").

Definition asking : Message :=
  {| msg_id := "model-1"; role := model; content := Some EmptyString;
     toolCalls := Some [weather_call; time_call]; toolResults := None;
     timestamp := 1%Z; parentId := Some "u1"; childrenIds := ["tool-1"] |}.

Definition partial_appends : list (option string * Message) :=
  [(None, node "u1" user None []);
   (Some "u1", with_childrenIds asking []);
   (Some "model-1",
    toolMsg_of sunny_world
      [ {| callId := "c1"; result := Some (dq "sunny") |} ] "model-1")].

(** ** The import of a session in the legacy format ([App]) *)









(** ** The configuration panel ([ConfigPanel]) *)

(** What a handler of the panel does: it refuses with an alert or
    returns without a change, it sets a new configuration, or its state
    updater raises a [TypeError]. *)
Inductive Edited :=
| Refused
| Updated (config : AppConfig)
| Raised.

(** [{ ...prev, models: l, activeModelId: a }] *)
Definition with_models (l : list ModelConfig) (a : string)
    (prev : AppConfig) : AppConfig :=
  {| activeModelId := a; models := l; systemPrompt := systemPrompt prev;
     memories := memories prev; tools := tools prev |}.

(** [{ ...prev, tools: l }] *)
Definition with_tools (l : list UserTool) (prev : AppConfig) : AppConfig :=
  {| activeModelId := activeModelId prev; models := models prev;
     systemPrompt := systemPrompt prev; memories := memories prev;
     tools := l |}.

(** [handleDeleteModel]; the state updater runs on the configuration that
    the guard has seen. *)
Definition handleDeleteModel (id : string) (config : AppConfig) : Edited :=
  if length (models config) <=? 1 then Refused
  else
    let newModels :=
      List.filter (λ m, negb (String.eqb (mc_id m) id)) (models config) in
    if String.eqb (activeModelId config) id then
      match newModels with
      | first :: _ => Updated (with_models newModels (mc_id first) config)
      | [] => Raised
      end
    else Updated (with_models newModels (activeModelId config) config).

(** [handleAddMemory], with the random id it draws. *)
Definition handleAddMemory (uuid : string)
    (newMemoryName newMemoryContent : string) (prev : AppConfig) : Edited :=
  if negb (truthy_string newMemoryName)
     || negb (truthy_string newMemoryContent)
  then Refused
  else
    Updated
      (with_memories
         (memories prev ++
          [ {| vm_id := uuid; vm_name := newMemoryName;
               vm_content := newMemoryContent; vm_active := true |} ])
         prev).

Definition toggleMemory (id : string) (prev : AppConfig) : AppConfig :=
  with_memories
    (map (λ m, if String.eqb (vm_id m) id
               then {| vm_id := vm_id m; vm_name := vm_name m;
                       vm_content := vm_content m;
                       vm_active := negb (vm_active m) |}
               else m) (memories prev))
    prev.

Definition toggleTool (id : string) (prev : AppConfig) : AppConfig :=
  with_tools
    (map (λ t, if String.eqb (ut_id t) id
               then {| ut_id := ut_id t; definition := definition t;
                       active := negb (active t);
                       implementation := implementation t;
                       autoExecute := autoExecute t |}
               else t) (tools prev))
    prev.

(** A configuration with two models, and one whose two models share an
    id. *)
Definition gemini_model : ModelConfig :=
  {| mc_id := "m-gemini"; mc_name := "Gemini"; provider := "gemini";
     modelId := "gemini-2.5-flash"; apiKey := "key"; baseUrl := None |}.

Definition two_models : AppConfig :=
  with_models [openai_model; gemini_model] "m-openai" tools_config.

Definition twin_models : AppConfig :=
  with_models [openai_model; openai_model] "m-openai" tools_config.

(** * Lemmas *)

(** ** Truthiness *)

Lemma truthy_string_true (s : string) : truthy_string s = true ↔ s ≠ "".
Proof.
  unfold truthy_string. rewrite negb_true_iff.
  destruct (String.eqb_spec s ""); split; congruence.
Qed.

Lemma truthy_string_false (s : string) : truthy_string s = false ↔ s = "".
Proof.
  unfold truthy_string. rewrite negb_false_iff.
  destruct (String.eqb_spec s ""); split; congruence.
Qed.

(** ** Strings *)

Lemma string_app_cons c (s t : string) : String c s +:+ t = String c (s +:+ t).
Proof. reflexivity. Qed.

Lemma string_app_nil_l (t : string) : EmptyString +:+ t = t.
Proof. reflexivity. Qed.

Lemma string_app_nil_r (s : string) : s +:+ EmptyString = s.
Proof.
  induction s as [|c s IH]; [done|]. by rewrite string_app_cons, IH.
Qed.

Lemma string_app_assoc (a b c : string) : (a +:+ b) +:+ c = a +:+ (b +:+ c).
Proof.
  induction a as [|x a IH]; [done|]. by rewrite !string_app_cons, IH.
Qed.

(** ** The thread projection *)

Lemma getThread_loop_thread_of (m : gmap string Message) h l :
  thread_of m h l →
  ∀ fuel acc, length l < fuel →
    getThread_loop fuel m (Some h) acc = Some (l ++ acc).
Proof.
  induction 1 as [h msg Hh Hm Hend | h msg p l Hh Hm Hp Hl IH];
    intros fuel acc Hfuel.
  - destruct fuel as [|fuel]; [simpl in Hfuel; lia|].
    simpl. apply truthy_string_true in Hh. rewrite Hh, Hm.
    destruct fuel as [|fuel]; [simpl in Hfuel; lia|].
    unfold ends_walk in Hend. simpl.
    destruct (parentId msg) as [p|]; [|done].
    destruct Hend as [-> | Hnone]; [done|].
    rewrite Hnone. by destruct (truthy_string p).
  - destruct fuel as [|fuel]; [simpl in Hfuel; lia|].
    simpl. apply truthy_string_true in Hh. rewrite Hh, Hm, Hp.
    rewrite IH.
    + by rewrite <- app_assoc.
    + rewrite length_app in Hfuel. simpl in Hfuel. lia.
Qed.

Lemma getThread_loop_sound (m : gmap string Message) fuel :
  ∀ h msg acc r,
    h ≠ "" → m !! h = Some msg →
    getThread_loop fuel m (Some h) acc = Some r →
    ∃ l, r = l ++ acc ∧ thread_of m h l.
Proof.
  induction fuel as [|fuel IH]; intros h msg acc r Hh Hm Hrun; [done|].
  simpl in Hrun. pose proof Hh as Ht. apply truthy_string_true in Ht.
  rewrite Ht, Hm in Hrun.
  destruct (parentId msg) as [p|] eqn:Hp.
  - destruct (decide (p = "")) as [-> | Hpne].
    { destruct fuel; [done|]. simpl in Hrun. injection Hrun as <-.
      exists [msg]. split; [done|]. apply thread_root; try done.
      unfold ends_walk. rewrite Hp. by left. }
    destruct (m !! p) as [pm|] eqn:Hpm.
    + destruct (IH p pm (msg :: acc) r Hpne Hpm Hrun) as (l & -> & Hl).
      exists (l ++ [msg]). split; [by rewrite <- app_assoc|].
      by eapply thread_step.
    + destruct fuel; [done|]. simpl in Hrun.
      apply truthy_string_true in Hpne. rewrite Hpne, Hpm in Hrun.
      injection Hrun as <-.
      exists [msg]. split; [done|]. apply thread_root; try done.
      unfold ends_walk. rewrite Hp. by right.
  - destruct fuel; [done|]. simpl in Hrun. injection Hrun as <-.
    exists [msg]. split; [done|]. apply thread_root; try done.
    unfold ends_walk. by rewrite Hp.
Qed.

Lemma thread_of_last (m : gmap string Message) h l :
  thread_of m h l → last l = m !! h.
Proof.
  destruct 1 as [h msg _ Hm _ | h msg p l _ Hm _ _].
  - by rewrite Hm.
  - by rewrite last_snoc, Hm.
Qed.

Lemma thread_of_head (m : gmap string Message) h l :
  thread_of m h l → ∃ r, head l = Some r ∧ ends_walk m r.
Proof.
  induction 1 as [h msg _ _ Hend | h msg p l _ _ _ Hl (r & Hr & Hend)].
  - by exists msg.
  - exists r. split; [|done]. destruct l; [done|]. done.
Qed.

Lemma thread_of_links (m : gmap string Message) h l :
  thread_of m h l →
  ∀ i a b, l !! i = Some a → l !! S i = Some b →
    ∃ p, parentId b = Some p ∧ m !! p = Some a.
Proof.
  induction 1 as [h msg _ _ _ | h msg p l _ Hm Hp Hl IH]; intros i a b Ha Hb.
  - destruct i; simpl in *; done.
  - destruct (decide (S i < length l)) as [Hlt | Hge].
    + rewrite lookup_app_l in Ha by lia.
      rewrite lookup_app_l in Hb by lia. eauto.
    + assert (S i = length l) as Hi.
      { apply lookup_lt_Some in Hb. rewrite length_app in Hb.
        simpl in Hb. lia. }
      rewrite lookup_app_l in Ha by lia.
      rewrite lookup_app_r in Hb by lia.
      rewrite Hi, Nat.sub_diag in Hb. simpl in Hb. injection Hb as <-.
      exists p. split; [done|].
      apply thread_of_last in Hl. rewrite <- Hl.
      rewrite last_lookup. rewrite <- Hi. simpl. done.
Qed.

(** ** Appending to the tree *)

Lemma appendToTree_lookup parent n (m : gmap string Message) k x' :
  appendToTree parent n m !! k = Some x' →
  ∃ x, <[msg_id n := n]> m !! k = Some x ∧
       msg_id x' = msg_id x ∧ parentId x' = parentId x ∧
       (childrenIds x' = childrenIds x ∨
        (parent = Some k ∧ childrenIds x' = childrenIds x ++ [msg_id n])).
Proof.
  unfold appendToTree. destruct parent as [p|]; [|by eauto 6].
  destruct (truthy_string p); [|by eauto 6].
  destruct (<[msg_id n:=n]> m !! p) as [pm|] eqn:Hp; [|by eauto 6].
  destruct (decide (p = k)) as [-> | Hne].
  - rewrite lookup_insert_eq. intros [= <-]. exists pm. simpl. eauto 6.
  - rewrite lookup_insert_ne by done. eauto 6.
Qed.

Lemma appendToTree_lookup_keep parent n (m : gmap string Message) k x :
  <[msg_id n := n]> m !! k = Some x →
  ∃ x', appendToTree parent n m !! k = Some x' ∧
        msg_id x' = msg_id x ∧ parentId x' = parentId x.
Proof.
  intros Hk. unfold appendToTree. destruct parent as [p|]; [|by eauto].
  destruct (truthy_string p); [|by eauto].
  destruct (<[msg_id n:=n]> m !! p) as [pm|] eqn:Hp; [|by eauto].
  destruct (decide (p = k)) as [-> | Hne].
  - rewrite lookup_insert_eq. rewrite Hk in Hp. injection Hp as ->.
    eexists. split; [done|]. done.
  - rewrite lookup_insert_ne by done. eauto.
Qed.

Lemma appendToTree_is_Some parent n (m : gmap string Message) k :
  is_Some (m !! k) → is_Some (appendToTree parent n m !! k).
Proof.
  intros [x Hx].
  assert (is_Some (<[msg_id n := n]> m !! k)) as [y Hy].
  { destruct (decide (msg_id n = k)) as [<- | Hne].
    - rewrite lookup_insert_eq. by eexists.
    - rewrite lookup_insert_ne by done. by eexists. }
  destruct (appendToTree_lookup_keep parent n m k y Hy) as (x' & Hx' & _).
  by eexists.
Qed.

(** The new node is in the result, whatever the parent argument. *)
Lemma appendToTree_new_node parent n (m : gmap string Message) :
  ∃ x, appendToTree parent n m !! msg_id n = Some x ∧
       msg_id x = msg_id n ∧ parentId x = parentId n.
Proof.
  apply appendToTree_lookup_keep. by rewrite lookup_insert_eq.
Qed.

Lemma keys_are_ids_append parent n (m : gmap string Message) :
  keys_are_ids m → keys_are_ids (appendToTree parent n m).
Proof.
  intros Hkeys k x' Hx'.
  destruct (appendToTree_lookup _ _ _ _ _ Hx') as (x & Hx & -> & _).
  destruct (decide (msg_id n = k)) as [<- | Hne].
  - rewrite lookup_insert_eq in Hx. by injection Hx as <-.
  - rewrite lookup_insert_ne in Hx by done. by apply Hkeys.
Qed.

Lemma children_point_back_append parent n (m : gmap string Message) :
  keys_are_ids m → children_point_back m → fresh_node m parent n →
  children_point_back (appendToTree parent n m).
Proof.
  intros Hkeys Hback (Hfresh & Hnil & Hpar) k x' c Hx' Hc.
  destruct (appendToTree_lookup _ _ _ _ _ Hx') as (x & Hx & Hid & _ & Hch).
  rewrite Hid.
  assert (c ∈ childrenIds x ∨ (parent = Some k ∧ c = msg_id n)) as Hcases.
  { destruct Hch as [Heq | [Hp Heq]]; rewrite Heq in Hc; [by left|].
    apply elem_of_app in Hc as [Hc | Hc]; [by left|].
    apply list_elem_of_singleton in Hc. by right. }
  destruct Hcases as [Hcx | [Hp ->]].
  - destruct (decide (msg_id n = k)) as [<- | Hne].
    { rewrite lookup_insert_eq in Hx. injection Hx as <-.
      rewrite Hnil in Hcx. by apply elem_of_nil in Hcx. }
    rewrite lookup_insert_ne in Hx by done.
    destruct (Hback k x c Hx Hcx) as (cm & Hcm & Hcmp).
    assert (msg_id n ≠ c) as Hnc by (intros <-; congruence).
    destruct (appendToTree_lookup_keep parent n m c cm) as (cm' & Hcm' & _ & Hp').
    { by rewrite lookup_insert_ne. }
    exists cm'. split; [done|]. by rewrite Hp'.
  - destruct (appendToTree_new_node (Some k) n m) as (cm' & Hcm' & _ & Hp').
    exists cm'. split; [by rewrite Hp|]. rewrite Hp', Hpar, Hp. f_equal.
    symmetry. destruct (decide (msg_id n = k)) as [<- | Hne].
    + rewrite lookup_insert_eq in Hx. by injection Hx as <-.
    + rewrite lookup_insert_ne in Hx by done. by apply Hkeys.
Qed.

Lemma parents_present_append parent n (m : gmap string Message) :
  parents_present m → parent_known m parent → parentId n = parent →
  parents_present (appendToTree parent n m).
Proof.
  intros Hpres Hknown Hpar k x' p Hx' Hp.
  destruct (appendToTree_lookup _ _ _ _ _ Hx') as (x & Hx & _ & Hpx & _).
  rewrite Hpx in Hp. apply appendToTree_is_Some.
  destruct (decide (msg_id n = k)) as [<- | Hne].
  - rewrite lookup_insert_eq in Hx. injection Hx as <-.
    subst parent. unfold parent_known in Hknown. by rewrite Hp in Hknown.
  - rewrite lookup_insert_ne in Hx by done. by eapply Hpres.
Qed.




(** ** Branch navigation *)

Lemma indexOf_Some l x i :
  indexOf l x = Some i → l !! i = Some x.
Proof.
  revert i. induction l as [|y l IH]; intros i; simpl; [done|].
  destruct (String.eqb_spec y x) as [-> | Hne].
  - by intros [= <-].
  - destruct (indexOf l x) as [j|]; [|done]. intros [= <-]. by apply IH.
Qed.

Lemma indexOf_None l x :
  indexOf l x = None → x ∉ l.
Proof.
  induction l as [|y l IH]; simpl; [intros _; apply not_elem_of_nil|].
  destruct (String.eqb_spec y x) as [-> | Hne]; [done|].
  destruct (indexOf l x); [done|]. intros _.
  apply not_elem_of_cons. split; [congruence|by apply IH].
Qed.

(** The clamped index: one step towards the chosen side, held at the
    first and at the last position. *)
Lemma clampIndex_spec direction i len :
  i < len →
  Z.to_nat (clampIndex direction i len) =
    match direction with
    | prev => Nat.pred i
    | next => Nat.min (S i) (len - 1)
    end.
Proof.
  intros Hi. unfold clampIndex. destruct direction.
  - destruct (Z.ltb_spec (Z.of_nat i - 1) 0).
    + destruct (Z.geb_spec 0 (Z.of_nat len)); lia.
    + destruct (Z.geb_spec (Z.of_nat i - 1) (Z.of_nat len)); lia.
  - destruct (Z.ltb_spec (Z.of_nat i + 1) 0); [lia|].
    destruct (Z.geb_spec (Z.of_nat i + 1) (Z.of_nat len)); lia.
Qed.

Lemma descend_latest_leaf (m : gmap string Message) ptr leaf :
  latest_leaf m ptr leaf →
  ∃ k, ∀ fuel, k < fuel → descend fuel m ptr = Some leaf.
Proof.
  induction 1 as [ptr Hnone | ptr nd Hnd Hnil | ptr nd c leaf Hnd Hlast _ [k IH]].
  - exists 0. intros [|fuel] Hf; [lia|]. simpl. by rewrite Hnone.
  - exists 0. intros [|fuel] Hf; [lia|]. simpl. by rewrite Hnd, Hnil.
  - exists (S k). intros [|fuel] Hf; [lia|]. simpl. rewrite Hnd, Hlast.
    apply IH. lia.
Qed.

Lemma descend_sound (m : gmap string Message) fuel :
  ∀ ptr leaf, descend fuel m ptr = Some leaf → latest_leaf m ptr leaf.
Proof.
  induction fuel as [|fuel IH]; intros ptr leaf; simpl; [done|].
  destruct (m !! ptr) as [nd|] eqn:Hnd.
  - destruct (last (childrenIds nd)) as [c|] eqn:Hlast.
    + intros Hrun. eapply leaf_below; eauto.
    + intros [= <-]. eapply leaf_childless; [done|].
      by apply last_None.
  - intros [= <-]. by apply leaf_unknown.
Qed.

(** The descent ends at an id without a node or at a node without
    children. *)
Lemma latest_leaf_is_leaf (m : gmap string Message) ptr leaf :
  latest_leaf m ptr leaf →
  m !! leaf = None ∨ ∃ nd, m !! leaf = Some nd ∧ childrenIds nd = [].
Proof.
  induction 1; eauto.
Qed.

(** ** Trees built by appending: walks and descents are finite *)

Lemma ranked_append parent n (m : gmap string Message) rank bound :
  parents_present m → ranked m rank bound →
  fresh_node m parent n → parent_known m parent →
  ∃ rank' bound', ranked (appendToTree parent n m) rank' bound'.
Proof.
  intros Hpres [Hrank Hbound] (Hfresh & _ & Hpar) Hknown.
  set (r := S (match parent with Some p => rank p | None => 0 end)).
  exists (λ k, if decide (k = msg_id n) then r else rank k), (S (bound + r)).
  split.
  - intros k x' p Hx' Hp Hpin.
    destruct (appendToTree_lookup _ _ _ _ _ Hx') as (x & Hx & _ & Hpx & _).
    rewrite Hpx in Hp.
    destruct (decide (k = msg_id n)) as [-> | Hk].
    + rewrite lookup_insert_eq in Hx. injection Hx as <-.
      subst parent. unfold parent_known in Hknown. rewrite Hp in Hknown.
      subst r. rewrite Hp.
      destruct (decide (p = msg_id n)) as [He | _].
      * rewrite He, Hfresh in Hknown. by destruct Hknown.
      * lia.
    + rewrite lookup_insert_ne in Hx by done.
      pose proof (Hpres k x p Hx Hp) as Hpm.
      destruct (decide (p = msg_id n)) as [He | _].
      * rewrite He, Hfresh in Hpm. by destruct Hpm.
      * by eapply Hrank.
  - intros k [x' Hx'].
    destruct (appendToTree_lookup _ _ _ _ _ Hx') as (x & Hx & _).
    destruct (decide (k = msg_id n)) as [-> | Hk]; [lia|].
    rewrite lookup_insert_ne in Hx by done.
    assert (rank k < bound) by (apply Hbound; by eexists). lia.
Qed.

Lemma well_formed_append parent n (m : gmap string Message) :
  well_formed m → fresh_node m parent n → parent_known m parent →
  well_formed (appendToTree parent n m).
Proof.
  intros (Hkeys & Hpres & Hback & rank & bound & Hranked) Hfresh Hknown.
  split; [by apply keys_are_ids_append|].
  split; [apply parents_present_append; [done|done|by destruct Hfresh as (_ & _ & ?)]|].
  split; [by apply children_point_back_append|].
  by eapply ranked_append.
Qed.

Lemma well_formed_append_all ops :
  ∀ m : gmap string Message,
    well_formed m → fresh_appends m ops → known_parents m ops →
    well_formed (append_all ops m).
Proof.
  induction ops as [|[parent n] ops IH]; intros m Hwf Hfresh Hknown; [done|].
  destruct Hfresh as [Hn Hrest]. destruct Hknown as [Hk Hks]. simpl in *.
  apply IH; [|done|done]. by apply well_formed_append.
Qed.

Lemma well_formed_empty : well_formed (∅ : gmap string Message).
Proof.
  split; [done|]. split; [done|]. split; [done|].
  exists (λ _, 0), 0. split; [done|]. intros k [x Hx]. done.
Qed.

(** In a well-formed tree the walk of [getThread] from any stored,
    non-empty id is finite. *)
Lemma well_formed_thread (m : gmap string Message) :
  well_formed m →
  ∀ h, h ≠ EmptyString → is_Some (m !! h) → ∃ l, thread_of m h l.
Proof.
  intros (_ & _ & _ & rank & bound & Hrank & _) h.
  remember (rank h) as r eqn:Hr. revert h Hr.
  induction r as [r IH] using (well_founded_induction lt_wf).
  intros h -> Hh [msg Hm].
  destruct (parentId msg) as [p|] eqn:Hp.
  - destruct (decide (p = EmptyString)) as [-> | Hpne].
    { exists [msg]. apply thread_root; [done|done|].
      unfold ends_walk. rewrite Hp. by left. }
    destruct (m !! p) as [pm|] eqn:Hpm.
    + destruct (IH (rank p)) with (h := p) as [l Hl]; try done.
      { eapply Hrank; [done|done|by eexists]. }
      exists (l ++ [msg]). by eapply thread_step.
    + exists [msg]. apply thread_root; [done|done|].
      unfold ends_walk. rewrite Hp. by right.
  - exists [msg]. apply thread_root; [done|done|].
    unfold ends_walk. by rewrite Hp.
Qed.

(** In a well-formed tree the descent of [navigateBranch] from any id is
    finite. *)
Lemma well_formed_latest_leaf (m : gmap string Message) :
  well_formed m → ∀ ptr, ∃ leaf, latest_leaf m ptr leaf.
Proof.
  intros (Hkeys & _ & Hback & rank & bound & Hrank & Hbound) ptr.
  remember (bound - rank ptr) as d eqn:Hd. revert ptr Hd.
  induction d as [d IH] using (well_founded_induction lt_wf).
  intros ptr ->.
  destruct (m !! ptr) as [nd|] eqn:Hnd; [|exists ptr; by apply leaf_unknown].
  destruct (last (childrenIds nd)) as [c|] eqn:Hlast.
  - destruct (Hback ptr nd c Hnd) as (cm & Hcm & Hcp).
    { by apply last_Some_elem_of. }
    rewrite (Hkeys ptr nd Hnd) in Hcp.
    assert (rank ptr < rank c) as Hlt.
    { eapply Hrank; [exact Hcm|exact Hcp|by eexists]. }
    assert (rank c < bound) as Hcb by (apply Hbound; by eexists).
    destruct (IH (bound - rank c)) with (ptr := c) as [leaf Hleaf];
      [lia|done|].
    exists leaf. by eapply leaf_below.
  - exists ptr. eapply leaf_childless; [done|]. by apply last_None.
Qed.

(** On every tree built from the empty mapping by appending fresh nodes
    under known parents, [getThread] returns for every head and
    [navigateBranch] returns for every node and direction. *)
Lemma appended_trees_terminate (ops : list (option string * Message)) :
  fresh_appends ∅ ops → known_parents ∅ ops →
  (∀ headId, ∃ l fuel0, ∀ fuel, fuel0 < fuel →
     getThread fuel (append_all ops ∅) headId = Some l) ∧
  (∀ msgId direction, ∃ r fuel0, ∀ fuel, fuel0 < fuel →
     navigateBranch fuel (append_all ops ∅) msgId direction = Some r).
Proof.
  intros Hfresh Hknown.
  pose proof (well_formed_append_all ops ∅ well_formed_empty Hfresh Hknown)
    as Hwf.
  set (m := append_all ops ∅) in *.
  split.
  - intros [h|]; [|by exists [], 0].
    destruct (decide (h = EmptyString)) as [-> | Hh]; [by exists [], 0|].
    destruct (m !! h) as [msg|] eqn:Hm.
    + destruct (well_formed_thread m Hwf h Hh) as [l Hl]; [by eexists|].
      exists l, (length l). intros fuel Hfuel. unfold getThread.
      apply truthy_string_true in Hh. rewrite Hh, Hm.
      rewrite (getThread_loop_thread_of m h l Hl fuel [] Hfuel).
      by rewrite app_nil_r.
    + exists [], 0. intros fuel _. unfold getThread. rewrite Hm.
      by destruct (truthy_string h).
  - intros msgId direction. unfold navigateBranch.
    destruct (m !! msgId) as [msg|]; [|by exists Unchanged, 0].
    destruct (parentId msg) as [p|]; [|by exists Unchanged, 0].
    destruct (truthy_string p); [|by exists Unchanged, 0].
    destruct (m !! p) as [pm|]; [|by exists Unchanged, 0].
    destruct (indexOf (childrenIds pm) msgId) as [i|]; [|by exists Unchanged, 0].
    cbv zeta.
    set (target := nth _ (childrenIds pm) msgId).
    destruct (well_formed_latest_leaf m Hwf target) as [leaf Hleaf].
    destruct (descend_latest_leaf m target leaf Hleaf) as [k Hk].
    exists (SetHead leaf), k. intros fuel Hf. by rewrite Hk.
Qed.

(** ** Folding the stream into the pending node *)

Lemma update_node_lookup id f (m : gmap string Message) :
  update_node id f m !! id = f <$> (m !! id).
Proof.
  unfold update_node. destruct (m !! id) as [x|] eqn:Hx.
  - by rewrite lookup_insert_eq.
  - by rewrite Hx.
Qed.

Lemma update_node_lookup_ne id f (m : gmap string Message) k :
  id ≠ k → update_node id f m !! k = m !! k.
Proof.
  intros Hne. unfold update_node. destruct (m !! id); [|done].
  by rewrite lookup_insert_ne.
Qed.

Lemma update_node_twice id f g (m : gmap string Message) :
  update_node id f (update_node id g m) = update_node id (f ∘ g) m.
Proof.
  unfold update_node. destruct (m !! id) as [x|] eqn:Hx.
  - rewrite lookup_insert_eq. by rewrite insert_insert_eq.
  - by rewrite Hx.
Qed.

(** The state after a run of chunks: the text grows by the deltas, the
    tool-call view is the last snapshot of the run if it has one, and the
    pending node holds both once a chunk was read. *)
Lemma consume_from id chunks :
  ∀ (m : gmap string Message) text tcs,
    foldl (consume_chunk id) (m, text, tcs) chunks =
      (match chunks with
       | [] => m
       | _ :: _ =>
           update_node id
             (λ x, with_content_toolCalls x
                     (Some (text +:+ deltas_text chunks))
                     (stored_toolCalls (default tcs (last_snapshot chunks))))
             m
       end,
       text +:+ deltas_text chunks,
       default tcs (last_snapshot chunks)).
Proof.
  pose proof string_app_nil_r as Hnil.
  pose proof string_app_assoc as Hassoc.
  induction chunks as [|chunk chunks IH]; intros m text tcs.
  - simpl. by rewrite Hnil.
  - simpl foldl.
    set (text' := if truthy_opt (textDelta chunk)
                  then text +:+ default EmptyString (textDelta chunk)
                  else text).
    set (tcs' := match chunk_toolCalls chunk with
                 | Some t => t
                 | None => tcs
                 end).
    assert (text' = text +:+ default EmptyString (textDelta chunk)) as Htext.
    { subst text'. destruct (textDelta chunk) as [d|]; simpl.
      - destruct (truthy_string d) eqn:Hd; [done|].
        apply truthy_string_false in Hd. subst d. by rewrite Hnil.
      - by rewrite Hnil. }
    rewrite IH.
    assert (text' +:+ deltas_text chunks = text +:+ deltas_text (chunk :: chunks))
      as Htexts.
    { rewrite Htext. simpl. by rewrite Hassoc. }
    assert (default tcs' (last_snapshot chunks)
            = default tcs (last_snapshot (chunk :: chunks))) as Hsnap.
    { subst tcs'. unfold last_snapshot.
      change (omap chunk_toolCalls (chunk :: chunks))
        with (match chunk_toolCalls chunk with
              | Some y => y :: omap chunk_toolCalls chunks
              | None => omap chunk_toolCalls chunks
              end).
      destruct (chunk_toolCalls chunk) as [t|]; [|done].
      destruct (omap chunk_toolCalls chunks) as [|s l] eqn:Hl; [done|].
      rewrite last_cons_cons.
      destruct (last (s :: l)) eqn:Hlast; [done|].
      by apply last_None in Hlast. }
    rewrite Htexts, Hsnap. do 2 f_equal.
    destruct chunks as [|c2 chunks]; [|by rewrite update_node_twice].
    rewrite <- Htexts, <- Hsnap.
    change (deltas_text []) with EmptyString. by rewrite Hnil.
Qed.

(** The first append of a turn puts the pending node into the map: it is
    the placeholder, with itself as child when the head it answers has its
    id. *)
Lemma pending_node_present w (startMap : gmap string Message) startHeadId :
  ∃ x, appendToTree (Some startHeadId) (initialModelMsg w startHeadId) startMap
         !! w_modelMsgId w = Some x ∧
       content x = Some EmptyString ∧ toolCalls x = Some [] ∧
       role x = model ∧ parentId x = Some startHeadId.
Proof.
  unfold appendToTree.
  change (msg_id (initialModelMsg w startHeadId)) with (w_modelMsgId w).
  destruct (truthy_string startHeadId);
    [|rewrite lookup_insert_eq; by eexists].
  destruct (decide (w_modelMsgId w = startHeadId)) as [He | Hne].
  - rewrite <- He. rewrite lookup_insert_eq. rewrite lookup_insert_eq.
    by eexists.
  - rewrite lookup_insert_ne by done.
    destruct (startMap !! startHeadId).
    + rewrite lookup_insert_ne by done. rewrite lookup_insert_eq. by eexists.
    + rewrite lookup_insert_eq. by eexists.
Qed.

(** ** Failures of a turn *)

Lemma consume_lookup id (m : gmap string Message) chunks x :
  m !! id = Some x →
  ∃ x', (consume id m chunks).1.1 !! id = Some x' ∧
        msg_id x' = msg_id x ∧ role x' = role x ∧
        parentId x' = parentId x ∧ childrenIds x' = childrenIds x.
Proof.
  intros Hx. unfold consume. rewrite consume_from. cbn [fst].
  destruct chunks as [|chunk chunks]; [by eauto 10|].
  rewrite update_node_lookup, Hx. by eexists.
Qed.

Lemma errorMessage_prefix message :
  String.prefix "Error: " (errorMessage message) = true ∧
  errorMessage message ≠ EmptyString.
Proof.
  unfold errorMessage.
  set (t := if truthy_string message then message
            else "Unknown error occurred").
  change ("Error: " +:+ t)
    with (String "E" (String "r" (String "r" (String "o"
            (String "r" (String ":" (String " " t))))))).
  split; [|done]. by destruct t.
Qed.

Lemma catch_error_outcome (m : gmap string Message) id x message :
  m !! id = Some x →
  out_continue (catch_error m id id message) = false ∧
  out_head (catch_error m id id message) = id ∧
  out_map (catch_error m id id message) !! id
    = Some (with_content x (Some (errorMessage message))).
Proof.
  intros Hx. unfold catch_error. cbn [out_continue out_head out_map].
  by rewrite update_node_lookup, Hx.
Qed.

(** ** Classifying the calls of the finalized node *)

Lemma find_tool_first_named config name t :
  find_tool config name = Some t ↔ first_named (tools config) name t.
Proof.
  unfold find_tool, first_named.
  induction (tools config) as [|t0 ts IH]; simpl.
  - split; [done|]. intros (before & after & Heq & _). by destruct before.
  - destruct (String.eqb_spec (fd_name (definition t0)) name) as [Hn | Hn].
    + split.
      * intros [= <-]. exists [], ts. split; [done|]. split; [done|].
        intros t' Ht'. by apply elem_of_nil in Ht'.
      * intros (before & after & Heq & Hname & Hfirst).
        destruct before as [|b before]; simpl in Heq.
        -- by injection Heq as ->.
        -- injection Heq as -> _. exfalso.
           apply (Hfirst b); [apply elem_of_cons; by left|done].
    + rewrite IH. split.
      * intros (before & after & -> & Hname & Hfirst).
        exists (t0 :: before), after. split; [done|]. split; [done|].
        intros t' [-> | Ht']%elem_of_cons; [done|by apply Hfirst].
      * intros (before & after & Heq & Hname & Hfirst).
        destruct before as [|b before]; simpl in Heq.
        -- injection Heq as -> _. done.
        -- injection Heq as -> ->. exists before, after.
           split; [done|]. split; [done|].
           intros t' Ht'. apply Hfirst. apply elem_of_cons. by right.
Qed.

Lemma runs_by_itself_true t :
  runs_by_itself t = true ↔
  autoExecute t = Some true ∧
  ∃ src, implementation t = Some src ∧ src ≠ EmptyString.
Proof.
  unfold runs_by_itself.
  destruct (autoExecute t) as [[|]|]; try (split; [done|by intros [? _]]).
  destruct (implementation t) as [src|]; simpl.
  - rewrite truthy_string_true. split.
    + intros Hsrc. split; [done|]. by exists src.
    + intros [_ (src' & [= <-] & Hsrc)]. done.
  - split; [done|]. by intros [_ (src & ? & _)].
Qed.

Lemma queue_item_Some config tc item :
  queue_item config tc = Some item ↔
  fst item = tc ∧ find_tool config (tc_name tc) = Some (snd item) ∧
  runs_by_itself (snd item) = true.
Proof.
  unfold queue_item. destruct (find_tool config (tc_name tc)) as [t|].
  - destruct (runs_by_itself t) eqn:Hr.
    + split.
      * by intros [= <-].
      * intros (<- & [= ->] & _). by destruct item.
    + split; [done|]. intros (_ & [= <-] & Hr'). congruence.
  - split; [done|]. by intros (_ & ? & _).
Qed.

Lemma executionQueue_calls config tcs :
  map fst (executionQueue config tcs) = List.filter (auto_executable config) tcs.
Proof.
  unfold executionQueue, auto_executable.
  induction tcs as [|tc tcs IH]; [done|].
  change (omap (queue_item config) (tc :: tcs))
    with (match queue_item config tc with
          | Some y => y :: omap (queue_item config) tcs
          | None => omap (queue_item config) tcs
          end).
  simpl List.filter. unfold queue_item at 1.
  destruct (find_tool config (tc_name tc)) as [t|]; [|done].
  destruct (runs_by_itself t); [|done]. simpl. by rewrite IH.
Qed.

Lemma find_tool_with_active f config name :
  find_tool (with_active f config) name =
    (λ t, {| ut_id := ut_id t; definition := definition t; active := f t;
             implementation := implementation t;
             autoExecute := autoExecute t |}) <$> find_tool config name.
Proof.
  unfold find_tool, with_active. simpl.
  induction (tools config) as [|t ts IH]; [done|]. simpl.
  destruct (String.eqb (fd_name (definition t)) name); [done|apply IH].
Qed.

Lemma auto_executable_with_active f config tc :
  auto_executable (with_active f config) tc = auto_executable config tc.
Proof.
  unfold auto_executable. rewrite find_tool_with_active.
  by destruct (find_tool config (tc_name tc)).
Qed.

Lemma run_queue_callIds w queue :
  ∀ i results, run_queue w i queue = Ok results →
    map callId results = map (λ item, tc_id (fst item)) queue.
Proof.
  induction queue as [|item queue IH]; intros i results; simpl.
  - by intros [= <-].
  - unfold run_item.
    destruct (w_execute w i _ _) as [output | e].
    + destruct (run_queue w (S i) queue) as [rs|] eqn:Hrs; [|done].
      intros [= <-]. simpl. f_equal. by eapply IH.
    + destruct (get_prop e "message"); [|done].
      destruct (run_queue w (S i) queue) as [rs|] eqn:Hrs; [|done].
      intros [= <-]. simpl. f_equal. by eapply IH.
Qed.

Lemma isAnswered_true tc results :
  isAnswered tc results = true ↔ tc_id tc ∈ map callId results.
Proof.
  unfold isAnswered. induction results as [|r results IH]; simpl.
  - split; [done|]. intros H. by apply elem_of_nil in H.
  - rewrite orb_true_iff, IH, elem_of_cons.
    destruct (String.eqb_spec (callId r) (tc_id tc)); split;
      intros [H | H]; auto; congruence.
Qed.

(** ** Dispatching the tool calls *)

Lemma nonempty_true {A} (l : list A) : nonempty l = true ↔ l ≠ [].
Proof. by destruct l. Qed.

Lemma run_queue_length w queue :
  ∀ i results, run_queue w i queue = Ok results →
    length results = length queue.
Proof.
  intros i results Hrun. apply run_queue_callIds in Hrun.
  apply (f_equal length) in Hrun. by rewrite !length_map in Hrun.
Qed.

(** The new node is stored under its id with all its fields but
    [childrenIds], which can only hold the node itself. *)
Lemma appendToTree_lookup_new parent n (m : gmap string Message) :
  ∃ cs, appendToTree parent n m !! msg_id n = Some (with_childrenIds n cs).
Proof.
  assert (with_childrenIds n (childrenIds n) = n) as Hn by by destruct n.
  unfold appendToTree. destruct parent as [p|];
    [|exists (childrenIds n); by rewrite lookup_insert_eq, Hn].
  destruct (truthy_string p);
    [|exists (childrenIds n); by rewrite lookup_insert_eq, Hn].
  destruct (decide (p = msg_id n)) as [-> | Hne].
  - rewrite lookup_insert_eq. rewrite lookup_insert_eq. by eexists.
  - destruct (<[msg_id n:=n]> m !! p).
    + rewrite lookup_insert_ne by done.
      exists (childrenIds n). by rewrite lookup_insert_eq, Hn.
    + exists (childrenIds n). by rewrite lookup_insert_eq, Hn.
Qed.

(** A node of the result is a node of the map that holds the new node,
    with at most its [childrenIds] changed. *)
Lemma appendToTree_lookup_fields parent n (m : gmap string Message) k x' :
  appendToTree parent n m !! k = Some x' →
  ∃ x cs, <[msg_id n := n]> m !! k = Some x ∧ x' = with_childrenIds x cs.
Proof.
  assert (∀ x, with_childrenIds x (childrenIds x) = x) as Hsame
    by (intros x; by destruct x).
  unfold appendToTree. destruct parent as [p|];
    [|intros Hk; eexists _, _; split; [exact Hk|by rewrite Hsame]].
  destruct (truthy_string p);
    [|intros Hk; eexists _, _; split; [exact Hk|by rewrite Hsame]].
  destruct (<[msg_id n:=n]> m !! p) as [pm|] eqn:Hp;
    [|intros Hk; eexists _, _; split; [exact Hk|by rewrite Hsame]].
  destruct (decide (p = k)) as [-> | Hne].
  - rewrite lookup_insert_eq. intros [= <-]. by eexists _, _.
  - rewrite lookup_insert_ne by done.
    intros Hk; eexists _, _; split; [exact Hk|by rewrite Hsame].
Qed.

(** Whatever the turn does after the stream, the pending node keeps the
    toolCalls it had when the stream ended, as long as the tool node gets
    an id of its own. *)
Lemma dispatch_keeps_toolCalls w config (m : gmap string Message) id x :
  m !! id = Some x → w_toolMsgId w ≠ id →
  ∃ y, out_map (dispatch w config m id) !! id = Some y ∧
       toolCalls y = toolCalls x.
Proof.
  intros Hx Hne. unfold dispatch. rewrite Hx.
  destruct (toolCalls x) as [tcs|] eqn:Htcs; [|by eauto].
  destruct (nonempty tcs); [|by eauto].
  destruct (nonempty (executionQueue config tcs)); [|by eauto].
  destruct (run_queue w 0 (executionQueue config tcs)) as [results | message].
  - destruct (nonempty results); [|by eauto]. cbn [out_map].
    destruct (appendToTree_lookup_keep (Some id) (toolMsg_of w results id) m id x)
      as (y & Hy & _).
    { by rewrite lookup_insert_ne. }
    destruct (appendToTree_lookup_fields _ _ _ _ _ Hy) as (x0 & cs & Hx0 & ->).
    rewrite lookup_insert_ne in Hx0 by done.
    rewrite Hx in Hx0. injection Hx0 as <-. by eauto.
  - unfold catch_error. cbn [out_map]. rewrite update_node_lookup, Hx.
    by eexists.
Qed.

Lemma appendToTree_dom parent n (m : gmap string Message) :
  dom (appendToTree parent n m) = {[msg_id n]} ∪ dom m.
Proof.
  unfold appendToTree. destruct parent as [p|]; [|by rewrite dom_insert_L].
  destruct (truthy_string p); [|by rewrite dom_insert_L].
  destruct (<[msg_id n:=n]> m !! p) as [pm|] eqn:Hp; [|by rewrite dom_insert_L].
  rewrite !dom_insert_L.
  assert (p ∈ dom (<[msg_id n:=n]> m)) as Hin by (apply elem_of_dom; eauto).
  rewrite dom_insert_L in Hin.
  apply subseteq_union_1_L. by apply singleton_subseteq_l.
Qed.

(** What [dispatch] does, by the outcome of the execution queue. *)
Lemma dispatch_cases w config (currentMap : gmap string Message)
    modelMsgId finalMsg tcs :
  currentMap !! modelMsgId = Some finalMsg →
  toolCalls finalMsg = Some tcs →
  dispatch w config currentMap modelMsgId =
    match run_queue w 0 (executionQueue config tcs) with
    | Err message =>
        catch_error currentMap modelMsgId modelMsgId message
    | Ok results =>
        if nonempty results then
          {| out_map :=
               appendToTree (Some modelMsgId)
                 (toolMsg_of w results modelMsgId) currentMap;
             out_head := w_toolMsgId w;
             out_continue := Nat.eqb (length results) (length tcs) |}
        else
          {| out_map := currentMap; out_head := modelMsgId;
             out_continue := false |}
    end.
Proof.
  intros Hm Htcs. unfold dispatch. rewrite Hm, Htcs.
  destruct tcs as [|tc tcs]; [done|]. cbn [nonempty].
  destruct (executionQueue config (tc :: tcs)) as [|item queue] eqn:Hq; [done|].
  cbn [nonempty]. done.
Qed.

(** ** Results of executed tools *)

(** A returned value is stored as its JSON text, whatever its type. *)
Lemma run_item_fulfilled w i tc toolConfig output :
  w_execute w i (default EmptyString (implementation toolConfig)) (tc_args tc)
    = Fulfilled output →
  run_item w i (tc, toolConfig)
    = Ok {| callId := tc_id tc; result := JSON_stringify output |}.
Proof. intros H. unfold run_item. cbn [fst snd]. by rewrite H. Qed.

(** A thrown value with a readable [message] is stored as the JSON text of
    [{error: message}]. *)
Lemma run_item_rejected w i tc toolConfig e message :
  w_execute w i (default EmptyString (implementation toolConfig)) (tc_args tc)
    = Rejected e →
  get_prop e "message" = Some message →
  run_item w i (tc, toolConfig)
    = Ok {| callId := tc_id tc;
            result := JSON_stringify (JObj [("error", message)]) |}.
Proof. intros H Hm. unfold run_item. cbn [fst snd]. by rewrite H, Hm. Qed.

(** A stored failure does not end the loop: the calls after it run. *)
Lemma run_queue_after_rejected w i item queue r :
  run_item w i item = Ok r →
  run_queue w i (item :: queue) =
    match run_queue w (S i) queue with
    | Ok rs => Ok (r :: rs)
    | Err message => Err message
    end.
Proof. intros H. cbn [run_queue]. rewrite H. by destruct (run_queue _ _ _). Qed.

Lemma JSON_stringify_sunny :
  JSON_stringify (JStr "sunny") = Some (dq "sunny") ∧
  JSON_stringify (JObj [("error", JStr "boom")])
    = Some ("{" +:+ dq "error" +:+ ":" +:+ dq "boom" +:+ "}").
Proof. split; reflexivity. Qed.

(** ** The lines of the OpenAI-compatible stream *)

Lemma split_lines_nonempty s : split_lines s ≠ [].
Proof.
  destruct s as [|c s]; simpl; [done|].
  destruct (Ascii.eqb c newline); [done|]. by destruct (split_lines s).
Qed.

Lemma removelast_cons_ne {A} (x : A) l :
  l ≠ [] → removelast (x :: l) = x :: removelast l.
Proof. by destruct l. Qed.

Lemma removelast_app_ne {A} (l1 l2 : list A) :
  l2 ≠ [] → removelast (l1 ++ l2) = l1 ++ removelast l2.
Proof.
  intros Hne. induction l1 as [|x l1 IH]; [done|].
  simpl app. rewrite removelast_cons_ne; [by rewrite IH|].
  destruct l1; [done|done].
Qed.

Lemma last_app_ne {A} (l1 l2 : list A) :
  l2 ≠ [] → last (l1 ++ l2) = last l2.
Proof.
  intros Hne. induction l1 as [|x l1 IH]; [done|].
  simpl app. destruct (l1 ++ l2) eqn:H12.
  - by destruct l1, l2.
  - by rewrite last_cons_cons.
Qed.

(** Splitting a text that is continued: the complete lines of the first
    part, then the lines of its unfinished last line followed by the
    rest. *)
Lemma split_lines_app (a b : string) :
  split_lines (a +:+ b) =
    removelast (split_lines a)
    ++ split_lines (default EmptyString (last (split_lines a)) +:+ b).
Proof.
  induction a as [|c a IH]; [done|].
  rewrite string_app_cons. cbn [split_lines].
  pose proof (split_lines_nonempty a) as Hne.
  destruct (Ascii.eqb c newline) eqn:Hc.
  - rewrite removelast_cons_ne by done. rewrite IH.
    destruct (split_lines a) as [|l ls]; [done|]. by rewrite last_cons_cons.
  - rewrite IH. destruct (split_lines a) as [|l ls]; [done|].
    destruct ls as [|x ls].
    + change (removelast [l] ++
              split_lines (default EmptyString (last [l]) +:+ b))
        with (split_lines (l +:+ b)).
      change (removelast [String c l] ++
              split_lines (default EmptyString (last [String c l]) +:+ b))
        with (split_lines (String c (l +:+ b))).
      cbn [split_lines]. rewrite Hc.
      pose proof (split_lines_nonempty (l +:+ b)).
      by destruct (split_lines (l +:+ b)).
    + rewrite (removelast_cons_ne l (x :: ls)) by done.
      rewrite (removelast_cons_ne (String c l) (x :: ls)) by done.
      by rewrite !last_cons_cons.
Qed.

(** A line of a split text holds no line feed. *)
Lemma split_lines_line s :
  ∀ l, l ∈ split_lines s → split_lines l = [l].
Proof.
  induction s as [|c s IH]; intros l Hl; simpl in Hl.
  - apply list_elem_of_singleton in Hl. by subst.
  - destruct (Ascii.eqb c newline) eqn:Hc.
    + apply elem_of_cons in Hl as [-> | Hl]; [done|by apply IH].
    + destruct (split_lines s) as [|l0 ls] eqn:Hs.
      { apply list_elem_of_singleton in Hl. subst. simpl. by rewrite Hc. }
      apply elem_of_cons in Hl as [-> | Hl].
      * simpl. rewrite Hc. rewrite (IH l0); [done|]. apply elem_of_cons. by left.
      * apply IH. apply elem_of_cons. by right.
Qed.

Lemma split_lines_last_line s :
  split_lines (default EmptyString (last (split_lines s)))
    = [default EmptyString (last (split_lines s))].
Proof.
  apply (split_lines_line s).
  destruct (last (split_lines s)) as [l|] eqn:Hl.
  - simpl. apply last_Some_elem_of in Hl. done.
  - apply last_None in Hl. by apply split_lines_nonempty in Hl.
Qed.

Section Lines.

Variable JSON_parse : string → option JSValue.

Lemma process_lines_app calls l1 l2 :
  process_lines JSON_parse calls (l1 ++ l2) =
    let '(c1, calls1, r1) := process_lines JSON_parse calls l1 in
    if r1 then (c1, calls1, true)
    else
      let '(c2, calls2, r2) := process_lines JSON_parse calls1 l2 in
      (c1 ++ c2, calls2, r2).
Proof.
  revert calls. induction l1 as [|line l1 IH]; intros calls.
  - simpl. by destruct (process_lines JSON_parse calls l2) as [[c2 calls2] r2].
  - simpl. destruct (process_line JSON_parse calls line) as [chunks calls'|];
      [|done].
    rewrite IH.
    destruct (process_lines JSON_parse calls' l1) as [[c1 calls1] r1].
    destruct r1; [done|].
    destruct (process_lines JSON_parse calls1 l2) as [[c2 calls2] r2].
    by rewrite app_assoc.
Qed.

(** The reads only matter through their text: what [read_loop] yields is
    what the complete lines of the buffer followed by the reads yield. *)
Lemma read_loop_lines reads :
  ∀ buffer calls,
    split_lines buffer = [buffer] →
    read_loop JSON_parse buffer calls reads =
      let '(chunks, _, returned) :=
        process_lines JSON_parse calls
          (complete_lines (buffer +:+ all_text reads)) in
      (chunks, returned).
Proof.
  unfold complete_lines.
  induction reads as [|value reads IH]; intros buffer calls Hbuf.
  - simpl. rewrite string_app_nil_r, Hbuf. done.
  - cbn [read_loop all_text foldr]. fold (all_text reads).
    rewrite <- string_app_assoc.
    rewrite (split_lines_app (buffer +:+ value) (all_text reads)).
    rewrite removelast_app_ne by apply split_lines_nonempty.
    rewrite process_lines_app.
    destruct (process_lines JSON_parse calls
                (removelast (split_lines (buffer +:+ value))))
      as [[c1 calls1] r1].
    destruct r1; [done|].
    rewrite IH by apply split_lines_last_line.
    by destruct (process_lines JSON_parse calls1 _) as [[c2 calls2] r2].
Qed.

(** Once the generator has returned, nothing is read any more. *)
Lemma read_loop_returned reads reads' :
  ∀ buffer calls,
    (read_loop JSON_parse buffer calls reads).2 = true →
    read_loop JSON_parse buffer calls (reads ++ reads')
      = read_loop JSON_parse buffer calls reads.
Proof.
  induction reads as [|value reads IH]; intros buffer calls; [done|].
  cbn [read_loop app].
  destruct (process_lines JSON_parse calls _) as [[chunks calls'] returned].
  destruct returned; [done|].
  specialize (IH (default EmptyString (last (split_lines (buffer +:+ value))))
                calls').
  destruct (read_loop JSON_parse _ calls' reads) as [more r] eqn:Hrest.
  cbn [snd]. intros ->. by rewrite IH.
Qed.

Lemma process_line_done calls line :
  trim line = done_line → process_line JSON_parse calls line = Return.
Proof. intros H. unfold process_line. by rewrite H. Qed.

Lemma process_line_other calls line :
  String.prefix "data: " (trim line) = false →
  process_line JSON_parse calls line = GoOn [] calls.
Proof. intros H. unfold process_line. by rewrite H. Qed.

Lemma process_line_malformed calls line :
  String.prefix "data: " (trim line) = true →
  trim line ≠ done_line →
  JSON_parse (slice_from 6 (trim line)) = None →
  process_line JSON_parse calls line = GoOn [] calls.
Proof.
  intros Hp Hne Hparse. unfold process_line. rewrite Hp. cbn [negb].
  apply String.eqb_neq in Hne. unfold done_line in Hne. rewrite Hne.
  unfold handle_data. by rewrite Hparse.
Qed.

End Lines.

(** * The properties of the specification *)

(** ** Classification of tool calls *)

(** C1, at the failing input. The weather tool is registered, flagged
    for automatic execution and has source, but it is switched off. No
    request offers it to the provider ([active_tools] leaves it out), yet
    its call enters the execution queue, is executed, gets a result and
    lets the turn go on. In general a call enters the queue if and only
    if the first registered tool with its name has [autoExecute = true]
    and non-empty source; the queue holds these calls in their order, and
    the [active] flags play no part in it. *)
Theorem inactive_tool_is_executed :
  (active <$> find_tool disabled_config "get_weather") = Some false ∧
  active_tools disabled_config = [] ∧
  auto_executable disabled_config weather_call = true ∧
  map fst (executionQueue disabled_config [weather_call]) = [weather_call] ∧
  (toolResults <$>
     (out_map (dispatch sunny_world disabled_config
                 (finalized [weather_call]) "model-1") !! "tool-1"))
    = Some (Some [ {| callId := "c1"; result := Some (dq "sunny") |} ]) ∧
  out_continue (dispatch sunny_world disabled_config
                  (finalized [weather_call]) "model-1") = true ∧
  (∀ config tc,
     auto_executable config tc = true ↔
     ∃ t, first_named (tools config) (tc_name tc) t ∧
          autoExecute t = Some true ∧
          ∃ src, implementation t = Some src ∧ src ≠ EmptyString) ∧
  (∀ config tcs,
     map fst (executionQueue config tcs)
       = List.filter (auto_executable config) tcs) ∧
  (∀ config f tcs,
     map fst (executionQueue (with_active f config) tcs)
       = map fst (executionQueue config tcs)).
Proof.
  split; [reflexivity|]. split; [reflexivity|]. split; [reflexivity|].
  split; [reflexivity|]. split; [reflexivity|]. split; [reflexivity|].
  split; [|split].
  - intros config tc. unfold auto_executable.
    destruct (find_tool config (tc_name tc)) as [t|] eqn:Hfind.
    + rewrite runs_by_itself_true. split.
      * intros H. exists t. split; [by apply find_tool_first_named|done].
      * intros (t' & Hfirst & H). apply find_tool_first_named in Hfirst.
        rewrite Hfind in Hfirst. by injection Hfirst as ->.
    + split; [done|]. intros (t' & Hfirst & _).
      apply find_tool_first_named in Hfirst. congruence.
  - intros config tcs. apply executionQueue_calls.
  - intros config f tcs. rewrite !executionQueue_calls.
    apply List.filter_ext. intros tc. apply auto_executable_with_active.
Qed.

(** ** The thread projection *)

(** C2 (amended). The thread projection [getThread] returns the empty
    sequence when [headId] is null, the empty string, or absent from the
    mapping and not a name that every object inherits. Otherwise,
    whenever the walk along [parentId] from [headId] is finite
    ([thread_of], which stops at a node whose [parentId] is null, empty
    or names a missing node) and does not end on an inherited name,
    [getThread] returns, with enough fuel, exactly that walk in
    root-first order; its last element is the node stored under [headId]
    (whose id is [headId] when nodes are stored under their own ids) and
    its first element ends the walk. Conversely every such sequence that
    [getThread] returns for a present, non-empty [headId] is such a
    walk. *)
Theorem getThread_projects_chain (m : gmap string Message)
    (headId : option string) :
  ((headId = None ∨ headId = Some "" ∨
    (∃ h, headId = Some h ∧ m !! h = None ∧ inherited h = false)) →
     ∀ fuel, getThread fuel m headId = Some []) ∧
  (∀ h l, headId = Some h → thread_of m h l → ends_on_own_keys m l →
     (∀ fuel, length l < fuel → getThread fuel m headId = Some l) ∧
     last l = m !! h ∧
     (keys_are_ids m → msg_id <$> last l = Some h) ∧
     (∃ r, head l = Some r ∧ ends_walk m r) ∧
     (∀ i a b, l !! i = Some a → l !! S i = Some b →
        ∃ p, parentId b = Some p ∧ m !! p = Some a)) ∧
  (∀ h fuel l, headId = Some h → h ≠ "" → is_Some (m !! h) →
     getThread fuel m headId = Some l → ends_on_own_keys m l →
     thread_of m h l).
Proof.
  split; [|split].
  - intros [-> | [-> | (h & -> & Hnone & _)]] fuel; try done.
    unfold getThread. rewrite Hnone. by destruct (truthy_string h).
  - intros h l -> Hl _.
    assert (h ≠ "" ∧ is_Some (m !! h)) as [Hh [msg Hm]].
    { destruct Hl; eauto. }
    split; [|split; [|split; [|split]]].
    + intros fuel Hfuel. unfold getThread.
      apply truthy_string_true in Hh. rewrite Hh, Hm.
      rewrite (getThread_loop_thread_of m h l Hl fuel [] Hfuel).
      by rewrite app_nil_r.
    + by apply thread_of_last.
    + intros Hkeys. rewrite (thread_of_last m h l Hl), Hm. simpl.
      f_equal. by apply Hkeys.
    + by eapply thread_of_head.
    + by eapply thread_of_links.
  - intros h fuel l -> Hh [msg Hm] Hrun _. unfold getThread in Hrun.
    pose proof Hh as Ht. apply truthy_string_true in Ht.
    rewrite Ht, Hm in Hrun.
    destruct (getThread_loop_sound m fuel h msg [] l Hh Hm Hrun)
      as (l' & -> & Hl').
    by rewrite app_nil_r.
Qed.

Lemma getThread_projects_chain_witness :
  getThread 3 two_nodes (Some "m1")
    = Some [node "u1" user None ["m1"]; node "m1" model (Some "u1") []] ∧
  msg_id <$> last [node "u1" user None ["m1"]; node "m1" model (Some "u1") []]
    = Some "m1" ∧
  getThread 0 two_nodes (Some "zz") = Some [] ∧
  thread_of two_nodes "m1"
    [node "u1" user None ["m1"]; node "m1" model (Some "u1") []].
Proof.
  destruct (getThread_projects_chain two_nodes (Some "m1")) as (_ & Hwalk & Hback).
  destruct (getThread_projects_chain two_nodes (Some "zz")) as (Hempty & _ & _).
  assert (thread_of two_nodes "m1"
            ([node "u1" user None ["m1"]] ++ [node "m1" model (Some "u1") []]))
    as Hl.
  { apply (thread_step two_nodes "m1" _ "u1"); [done|done|done|].
    apply thread_root; [done|done|exact I]. }
  assert (keys_are_ids two_nodes) as Hkeys.
  { intros k msg. unfold two_nodes.
    destruct (decide (k = "u1")) as [-> | H1].
    { rewrite lookup_insert_eq. by intros [= <-]. }
    rewrite lookup_insert_ne by done.
    destruct (decide (k = "m1")) as [-> | H2].
    { rewrite lookup_insert_eq. by intros [= <-]. }
    rewrite lookup_insert_ne by done. by rewrite lookup_empty. }
  assert (ends_on_own_keys two_nodes
            ([node "u1" user None ["m1"]] ++ [node "m1" model (Some "u1") []]))
    as Hown.
  { intros r p [= <-]. done. }
  destruct (Hwalk "m1" _ eq_refl Hl Hown) as (Hrun & _ & Hid & _).
  split; [|split; [|split]].
  - apply Hrun. simpl. lia.
  - exact (Hid Hkeys).
  - apply Hempty. right. right. exists "zz". repeat split; reflexivity.
  - apply (Hback "m1" 3%nat); [reflexivity|done| | |exact Hown].
    + exists (node "m1" model (Some "u1") []). reflexivity.
    + reflexivity.
Defined.

Lemma getThread_loop_self_parent fuel :
  ∀ acc, getThread_loop fuel self_parent (Some "a") acc = None.
Proof.
  induction fuel as [|fuel IH]; intros acc; [done|].
  simpl. unfold self_parent at 1. rewrite lookup_insert_eq. simpl. apply IH.
Qed.

(** C2, as stated, fails: on a cyclic mapping the walk from a present
    [headId] never returns; a present [headId] that is the empty string
    yields the empty sequence; and where a node is stored under a key that
    is not its id, the last element's id is not [headId]. *)
Lemma getThread_counterexample :
  (is_Some (self_parent !! "a") ∧
   ∀ fuel, getThread fuel self_parent (Some "a") = None) ∧
  (is_Some (blank_key !! "") ∧
   ∀ fuel, getThread fuel blank_key (Some "") = Some []) ∧
  (is_Some (foreign_key !! "k") ∧
   getThread 2 foreign_key (Some "k") = Some [node "other" user None []] ∧
   msg_id (node "other" user None []) ≠ "k").
Proof.
  split; [|split].
  - split; [by eexists|]. intros fuel. unfold getThread. simpl.
    unfold self_parent at 1. rewrite lookup_insert_eq.
    apply getThread_loop_self_parent.
  - split; [by eexists|]. done.
  - split; [by eexists|]. split; [reflexivity|]. done.
Qed.

(** ** Tool-call snapshots *)

(** C3 (amended). For every streamed turn whose chunks carry tool-call
    snapshots, the toolCalls stored on the pending model node when the
    stream ends, and still stored on it when the turn is over, are the
    last non-absent snapshot of the chunk sequence if that snapshot is
    non-empty, and are undefined if it is empty; no earlier snapshot
    enters the stored value. The content stored when the stream ends is
    the text deltas appended in arrival order. *)
Theorem consume_keeps_last_snapshot (w : World)
    (startMap : gmap string Message) (startHeadId : string)
    (chunks : list StreamChunk) (S : list ToolCall) :
  last_snapshot chunks = Some S →
  (∃ x,
     (consume (w_modelMsgId w)
        (appendToTree (Some startHeadId) (initialModelMsg w startHeadId)
           startMap)
        chunks).1.1 !! w_modelMsgId w = Some x ∧
     toolCalls x = (if nonempty S then Some S else None) ∧
     (S ≠ [] → toolCalls x = Some S) ∧
     content x = Some (deltas_text chunks)) ∧
  (∀ before after, chunks = before ++ after →
     deltas_text chunks = deltas_text before +:+ deltas_text after) ∧
  (∀ JSON_parse fuel config history out,
     w_toolMsgId w ≠ w_modelMsgId w →
     getThread fuel
       (appendToTree (Some startHeadId) (initialModelMsg w startHeadId)
          startMap)
       (Some startHeadId) = Some history →
     stream_chunks JSON_parse w config history = chunks →
     turn JSON_parse fuel w config startMap startHeadId = Some out →
     ∃ y, out_map out !! w_modelMsgId w = Some y ∧
          toolCalls y = (if nonempty S then Some S else None)).
Proof.
  intros HS.
  destruct (pending_node_present w startMap startHeadId) as (x & Hx & _).
  assert (∃ x',
            (consume (w_modelMsgId w)
               (appendToTree (Some startHeadId)
                  (initialModelMsg w startHeadId) startMap)
               chunks).1.1 !! w_modelMsgId w = Some x' ∧
            toolCalls x' = (if nonempty S then Some S else None) ∧
            content x' = Some (deltas_text chunks)) as (x' & Hx' & Htcs & Hc).
  { unfold consume. rewrite consume_from.
    destruct chunks as [|chunk chunks]; [done|].
    cbn [fst]. rewrite update_node_lookup, Hx, HS.
    cbn [fmap option_fmap option_map default].
    eexists. split; [done|].
    cbn [toolCalls content with_content_toolCalls].
    by rewrite string_app_nil_l. }
  split; [|split].
  - exists x'. split; [done|]. split; [done|]. split; [|done].
    intros HSne. rewrite Htcs. by destruct S.
  - intros before after ->. clear.
    induction before as [|c before IH]; simpl; [done|].
    by rewrite IH, string_app_assoc.
  - intros JSON_parse fuel config history out Hids Hthread Hchunks.
    unfold turn. rewrite Hthread. intros [= <-].
    unfold respond. unfold stream_chunks in Hchunks.
    destruct (sendMessageStream config history) as [stream | message].
    + rewrite Hchunks.
      destruct (consume (w_modelMsgId w) _ chunks) as [[m' text] tcs].
      cbn [fst] in Hx'.
      destruct (sr_failure (run_generator JSON_parse w stream)) as [message|].
      * unfold catch_error. cbn [out_map].
        rewrite update_node_lookup, Hx'. by eexists.
      * destruct (dispatch_keeps_toolCalls w config m' _ x' Hx' Hids)
          as (y & Hy & Hytcs).
        exists y. split; [done|]. by rewrite Hytcs.
    + subst chunks. done.
Qed.

Lemma consume_keeps_last_snapshot_witness :
  (∃ x,
     (consume "model-1"
        (appendToTree (Some "u1") (initialModelMsg (chat_world 0) "u1")
           one_user)
        sse_chunks).1.1 !! "model-1" = Some x ∧
     toolCalls x = Some [weather_call] ∧
     content x = Some "Hi") ∧
  (∃ out y,
     turn read_json 3 (chat_world 0) tools_config one_user "u1" = Some out ∧
     out_map out !! "model-1" = Some y ∧
     toolCalls y = Some [weather_call]).
Proof.
  destruct (consume_keeps_last_snapshot (chat_world 0) one_user "u1"
              sse_chunks [weather_call] eq_refl)
    as ((x & Hx & _ & Htcs & Hc) & _ & Hturn).
  split.
  - exists x. split; [exact Hx|]. split; [by apply Htcs|exact Hc].
  - set (out := respond read_json (chat_world 0) tools_config
                  (appendToTree (Some "u1") (initialModelMsg (chat_world 0) "u1")
                     one_user)
                  "model-1" [node "u1" user None ["model-1"]]).
    destruct (Hturn read_json 3 tools_config
                [node "u1" user None ["model-1"]] out)
      as (y & Hy & Hytcs).
    + done.
    + reflexivity.
    + vm_compute. reflexivity.
    + reflexivity.
    + exists out, y. split; [reflexivity|]. split; [exact Hy|exact Hytcs].
Defined.

(** C3, as stated, fails: when the last snapshot is the empty sequence,
    the pending node stores [undefined], not that snapshot. *)
Lemma consume_counterexample :
  last_snapshot [ {| textDelta := None; chunk_toolCalls := Some [] |} ]
    = Some [] ∧
  toolCalls <$>
    ((consume (w_modelMsgId quiet_world)
        (appendToTree (Some "u1") (initialModelMsg quiet_world "u1") two_nodes)
        [ {| textDelta := None; chunk_toolCalls := Some [] |} ]).1.1
       !! w_modelMsgId quiet_world)
    = Some None.
Proof.
  split; reflexivity.
Qed.

(** ** The recursion rule *)

(** C4. A turn calls itself again if and only if a tool node was appended
    and the number of results it carries equals the number of tool calls
    of the finalized model node (for a node with at least one call:
    if and only if the two numbers are equal); the new turn then starts
    from the tree with that tool node, at that node. When results were
    produced for only some of the calls, exactly one node is added to the
    tree, the tool node with the produced results as a child of the model
    node, the head moves to it, and the turn does not continue. *)
Theorem continues_iff_all_executed (w : World) (config : AppConfig)
    (currentMap : gmap string Message) (modelMsgId : string)
    (finalMsg : Message) (tcs : list ToolCall) :
  currentMap !! modelMsgId = Some finalMsg →
  toolCalls finalMsg = Some tcs →
  let out := dispatch w config currentMap modelMsgId in
  (out_continue out = true ↔
     ∃ results,
       run_queue w 0 (executionQueue config tcs) = Ok results ∧
       results ≠ [] ∧ length results = length tcs) ∧
  (tcs ≠ [] →
     (out_continue out = true ↔
        ∃ results,
          run_queue w 0 (executionQueue config tcs) = Ok results ∧
          length results = length tcs)) ∧
  (out_continue out = true → out_head out = w_toolMsgId w) ∧
  (∀ results,
     run_queue w 0 (executionQueue config tcs) = Ok results →
     results ≠ [] →
     out_map out =
       appendToTree (Some modelMsgId) (toolMsg_of w results modelMsgId)
         currentMap ∧
     dom (out_map out) = {[w_toolMsgId w]} ∪ dom currentMap ∧
     out_head out = w_toolMsgId w ∧
     (∃ t, out_map out !! w_toolMsgId w = Some t ∧
           role t = tool ∧ toolResults t = Some results ∧
           parentId t = Some modelMsgId) ∧
     (length results < length tcs → out_continue out = false)) ∧
  (∀ JSON_parse fuel world n startMap startHeadId o,
     turn JSON_parse fuel (world n) config startMap startHeadId = Some o →
     processConversationTurn JSON_parse (S fuel) world n config
       startMap startHeadId =
       if out_continue o
       then processConversationTurn JSON_parse fuel world (S n) config
              (out_map o) (out_head o)
       else Some (out_map o, out_head o)).
Proof.
  intros Hm Htcs out. subst out.
  rewrite (dispatch_cases w config currentMap modelMsgId finalMsg tcs Hm Htcs).
  destruct (run_queue w 0 (executionQueue config tcs)) as [results | message]
    eqn:Hrun.
  - split; [|split; [|split; [|split]]].
    + destruct results as [|r results]; cbn [nonempty out_continue].
      * split; [done|]. by intros (rs & [= <-] & Hne & _).
      * rewrite Nat.eqb_eq. split.
        -- intros Hlen. by exists (r :: results).
        -- by intros (rs & [= <-] & _ & Hlen).
    + intros Hne. destruct results as [|r results]; cbn [nonempty out_continue].
      * split; [done|]. intros (rs & [= <-] & Hlen).
        destruct tcs; [done|]. done.
      * rewrite Nat.eqb_eq. split.
        -- intros Hlen. by exists (r :: results).
        -- by intros (rs & [= <-] & Hlen).
    + destruct results; cbn [nonempty out_continue out_head]; done.
    + intros rs [= <-] Hne. destruct results as [|r results]; [done|].
      cbn [nonempty out_map out_head out_continue].
      split; [done|]. split; [apply appendToTree_dom|]. split; [done|]. split.
      * destruct (appendToTree_lookup_new (Some modelMsgId)
                    (toolMsg_of w (r :: results) modelMsgId) currentMap)
          as [cs Hcs].
        eexists. split; [exact Hcs|]. done.
      * intros Hlt. apply Nat.eqb_neq. lia.
    + intros JSON_parse fuel world n startMap startHeadId o Ho.
      cbn [processConversationTurn]. by rewrite Ho.
  - cbn [catch_error out_continue out_head].
    split; [|split; [|split; [|split]]]; try done.
    + split; [done|]. by intros (rs & ? & _).
    + intros _. split; [done|]. by intros (rs & ? & _).
    + intros JSON_parse fuel world n startMap startHeadId o Ho.
      cbn [processConversationTurn]. by rewrite Ho.
Qed.

Lemma continues_iff_all_executed_witness :
  out_continue (dispatch sunny_world tools_config
                  (finalized [weather_call; time_call]) "model-1") = false ∧
  out_head (dispatch sunny_world tools_config
              (finalized [weather_call; time_call]) "model-1") = "tool-1" ∧
  dom (out_map (dispatch sunny_world tools_config
                  (finalized [weather_call; time_call]) "model-1"))
    = {["tool-1"]} ∪ dom (finalized [weather_call; time_call]) ∧
  out_continue (dispatch sunny_world tools_config
                  (finalized [weather_call]) "model-1") = true ∧
  (∃ o,
     turn read_json 3 (chat_world 0) tools_config one_user "u1" = Some o ∧
     out_continue o = true ∧ out_head o = "tool-1" ∧
     processConversationTurn read_json 4 chat_world 0 tools_config one_user "u1"
       = processConversationTurn read_json 3 chat_world 1 tools_config
           (out_map o) "tool-1").
Proof.
  destruct (continues_iff_all_executed sunny_world tools_config
              (finalized [weather_call; time_call]) "model-1" _
              [weather_call; time_call] eq_refl eq_refl)
    as (_ & _ & _ & Hpartial & Hrec).
  destruct (Hpartial
              [ {| callId := "c1"; result := Some (dq "sunny") |} ] eq_refl)
    as (_ & Hdom & Hhead & _ & Hstop); [done|].
  destruct (continues_iff_all_executed sunny_world tools_config
              (finalized [weather_call]) "model-1" _
              [weather_call] eq_refl eq_refl)
    as (Hiff & _).
  split; [apply Hstop; simpl; lia|]. split; [exact Hhead|].
  split; [exact Hdom|]. split.
  - apply Hiff. exists [ {| callId := "c1"; result := Some (dq "sunny") |} ].
    split; [reflexivity|]. split; [done|reflexivity].
  - set (o := respond read_json (chat_world 0) tools_config
                (appendToTree (Some "u1") (initialModelMsg (chat_world 0) "u1")
                   one_user)
                "model-1" [node "u1" user None ["model-1"]]).
    assert (turn read_json 3 (chat_world 0) tools_config one_user "u1" = Some o)
      as Hturn by reflexivity.
    assert (out_continue o = true) as Hgo by (vm_compute; reflexivity).
    assert (out_head o = "tool-1") as Hh by (vm_compute; reflexivity).
    exists o. split; [exact Hturn|]. split; [exact Hgo|]. split; [exact Hh|].
    rewrite (Hrec read_json 3 chat_world 0 one_user "u1" o Hturn).
    by rewrite Hgo, Hh.
Defined.

(** ** Results of executed tools *)

(** C5, at the failing input. The model node asks for the weather twice;
    the first execution returns a string, the second throws [null].
    Reading [e.message] in the handler raises, the loop is left, no tool
    node is appended, the result already produced is dropped and the
    model node's content is overwritten with the handler's own error. By
    contrast a returned string is stored as its quoted JSON text, and a
    thrown [Error] is stored as the JSON text of [{error: message}]
    without ending the turn. *)
Theorem thrown_null_aborts_turn :
  run_item second_throws_world 0 (weather_call, get_weather_tool)
    = Ok {| callId := "c1"; result := Some (dq "sunny") |} ∧
  run_item second_throws_world 1 (weather_call_again, get_weather_tool)
    = Err "Cannot read properties of null (reading 'message')" ∧
  dispatch second_throws_world tools_config
    (finalized [weather_call; weather_call_again]) "model-1"
    = catch_error (finalized [weather_call; weather_call_again])
        "model-1" "model-1"
        "Cannot read properties of null (reading 'message')" ∧
  content <$>
    (out_map (dispatch second_throws_world tools_config
                (finalized [weather_call; weather_call_again]) "model-1")
       !! "model-1")
    = Some (Some "Error: Cannot read properties of null (reading 'message')") ∧
  out_map (dispatch second_throws_world tools_config
             (finalized [weather_call; weather_call_again]) "model-1")
    !! "tool-1" = None ∧
  out_head (dispatch second_throws_world tools_config
              (finalized [weather_call; weather_call_again]) "model-1")
    = "model-1" ∧
  run_item boom_world 0 (weather_call, get_weather_tool)
    = Ok {| callId := "c1";
            result := Some ("{" +:+ dq "error" +:+ ":" +:+ dq "boom" +:+ "}") |} ∧
  out_head (dispatch boom_world tools_config (finalized [weather_call])
              "model-1") = "tool-1" ∧
  out_head (dispatch sunny_world tools_config (finalized [weather_call])
              "model-1") = "tool-1".
Proof.
  repeat split; reflexivity.
Qed.

(** ** Failures of a turn *)

(** C6. Whatever fails while the turn builds its context or reads the
    stream, the turn ends there: it does not continue, the head stays on
    the pending model node, and that node's content is the text
    [Error: ] followed by the failure's message (or by
    [Unknown error occurred] when the message is empty), so it is not
    empty; nothing else is added to the tree. The failures covered: no
    active model, an empty API key, a request that [fetch] rejects, a
    response that is not [ok], a read of the body that fails, and a Gemini
    stream that fails. *)
Theorem turn_failure_is_written (JSON_parse : string → option JSValue)
    (fuel : nat) (w : World) (config : AppConfig)
    (startMap : gmap string Message) (startHeadId : string)
    (historyForApi : list Message) :
  getThread fuel
    (appendToTree (Some startHeadId) (initialModelMsg w startHeadId) startMap)
    (Some startHeadId) = Some historyForApi →
  (∀ message,
     stream_failure JSON_parse w config historyForApi = Some message →
     ∃ out x,
       turn JSON_parse fuel w config startMap startHeadId = Some out ∧
       out_continue out = false ∧
       out_head out = w_modelMsgId w ∧
       out_map out !! w_modelMsgId w = Some x ∧
       content x = Some (errorMessage message) ∧
       errorMessage message ≠ EmptyString ∧
       String.prefix "Error: " (errorMessage message) = true ∧
       out_map out =
         update_node (w_modelMsgId w)
           (λ m, with_content m (Some (errorMessage message)))
           (consume (w_modelMsgId w)
              (appendToTree (Some startHeadId)
                 (initialModelMsg w startHeadId) startMap)
              (stream_chunks JSON_parse w config historyForApi)).1.1) ∧
  (find_active_model config = None →
     stream_failure JSON_parse w config historyForApi
       = Some "No active model selected.") ∧
  (∀ activeModel,
     find_active_model config = Some activeModel →
     apiKey activeModel = EmptyString →
     stream_failure JSON_parse w config historyForApi
       = Some "API Key is missing for the selected model.") ∧
  (∀ activeModel,
     find_active_model config = Some activeModel →
     apiKey activeModel ≠ EmptyString →
     provider activeModel = "openai" →
     let request :=
       openai_request activeModel historyForApi
         (buildSystemInstruction config) (active_tools config) in
     (∀ message, w_fetch w request = FetchRejected message →
        stream_failure JSON_parse w config historyForApi = Some message) ∧
     (∀ res, w_fetch w request = Fetched res → ok res = false →
        stream_failure JSON_parse w config historyForApi
          = Some (openai_error_message res)) ∧
     (∀ res b message, w_fetch w request = Fetched res → ok res = true →
        body res = Some b → read_failure b = Some message →
        (read_loop JSON_parse EmptyString [] (reads b)).2 = false →
        stream_failure JSON_parse w config historyForApi = Some message)) ∧
  (∀ activeModel message,
     find_active_model config = Some activeModel →
     apiKey activeModel ≠ EmptyString →
     provider activeModel ≠ "openai" →
     g_failure (w_generateContentStream w (apiKey activeModel)
                  (gemini_args JSON_parse activeModel historyForApi
                     (buildSystemInstruction config) (active_tools config)))
       = Some message →
     stream_failure JSON_parse w config historyForApi = Some message).
Proof.
  intros Hthread. split; [|split; [|split; [|split]]].
  - intros message Hfail.
    destruct (pending_node_present w startMap startHeadId) as (x0 & Hx0 & _).
    destruct (errorMessage_prefix message) as [Hprefix Hne].
    unfold turn. rewrite Hthread. unfold respond.
    unfold stream_failure in Hfail. unfold stream_chunks.
    destruct (sendMessageStream config historyForApi) as [stream | msg].
    + destruct (consume_lookup (w_modelMsgId w) _
                  (sr_chunks (run_generator JSON_parse w stream)) x0 Hx0)
        as (x' & Hx' & _).
      destruct (consume (w_modelMsgId w) _ _) as [[m' text] tcs] eqn:Hc.
      cbn [fst] in Hx'. rewrite Hfail.
      destruct (catch_error_outcome m' _ x' message Hx') as (H1 & H2 & H3).
      eexists _, _. repeat split; try done.
    + injection Hfail as ->.
      destruct (catch_error_outcome _ _ x0 message Hx0) as (H1 & H2 & H3).
      eexists _, _. repeat split; try done.
  - intros Hnone. unfold stream_failure, sendMessageStream. by rewrite Hnone.
  - intros activeModel Hm Hkey.
    unfold stream_failure, sendMessageStream. by rewrite Hm, Hkey.
  - intros activeModel Hm Hkey Hprov request.
    apply truthy_string_true in Hkey.
    assert (sendMessageStream config historyForApi
            = Ok (streamOpenAI_of activeModel historyForApi
                    (buildSystemInstruction config) (active_tools config)))
      as Hsend.
    { unfold sendMessageStream. by rewrite Hm, Hkey, Hprov. }
    unfold stream_failure. rewrite Hsend. cbn [run_generator].
    unfold streamOpenAI. fold request.
    split; [|split].
    + intros message ->. done.
    + intros res -> ->. done.
    + intros res b message -> -> -> Hfail Hret.
      cbn [negb]. destruct (read_loop _ _ _ _) as [chunks returned].
      cbn [snd] in Hret. subst returned. done.
  - intros activeModel message Hm Hkey Hprov Hfail.
    apply truthy_string_true in Hkey.
    unfold stream_failure, sendMessageStream. rewrite Hm, Hkey.
    cbn [negb]. apply String.eqb_neq in Hprov. rewrite Hprov.
    cbn [run_generator]. unfold streamGemini. done.
Qed.

Lemma turn_failure_is_written_witness :
  (∃ out x,
     turn read_json 3 quiet_world tools_config one_user "u1" = Some out ∧
     out_continue out = false ∧
     out_head out = "model-1" ∧
     out_map out !! "model-1" = Some x ∧
     content x = Some "Error: Failed to fetch") ∧
  (∃ out x,
     turn read_json 3 quiet_world DEFAULT_CONFIG one_user "u1" = Some out ∧
     out_map out !! "model-1" = Some x ∧
     content x
       = Some "Error: API Key is missing for the selected model.").
Proof.
  destruct (turn_failure_is_written read_json 3 quiet_world tools_config
              one_user "u1" [node "u1" user None ["model-1"]] eq_refl)
    as (Hany & _ & _ & Hopenai & _).
  destruct (Hopenai openai_model eq_refl) as (Hrejected & _); [done|done|].
  pose proof (Hrejected "Failed to fetch" eq_refl) as Hfail.
  destruct (Hany "Failed to fetch" Hfail)
    as (out & x & Hturn & Hstop & Hhead & Hx & Hcontent & _).
  destruct (turn_failure_is_written read_json 3 quiet_world DEFAULT_CONFIG
              one_user "u1" [node "u1" user None ["model-1"]] eq_refl)
    as (Hany' & _ & Hkey & _).
  pose proof (Hkey _ eq_refl eq_refl) as Hfail'.
  destruct (Hany' _ Hfail') as (out' & x' & Hturn' & _ & _ & Hx' & Hcontent' & _).
  split.
  - exists out, x. repeat split; assumption.
  - exists out', x'. repeat split; assumption.
Defined.

(** ** Consistency of the tree *)




(** ** The OpenAI-compatible stream parser *)

(** C8 (amended). In the OpenAI-compatible stream parser, for every
    sequence of reads: what is yielded depends only on the text the reads
    add up to, and only the lines of that text that are complete (ended by
    a line feed) are processed, in order; a line that, after its
    surrounding white space is trimmed (all the white space that
    [String.prototype.trim] strips, the no-break space among it), does
    not start with [data: ] is ignored; a line that, after trimming, is [data: [DONE]] ends the
    stream at once, so that no later line or read yields anything; and a
    data line whose payload fails JSON parsing yields no chunk, changes
    nothing and ends nothing, so that the lines after it are processed as
    if it had not been there. *)
Theorem streamOpenAI_line_protocol (JSON_parse : string → option JSValue) :
  (∀ reads,
     read_loop JSON_parse EmptyString [] reads =
       let '(chunks, _, returned) :=
         process_lines JSON_parse [] (complete_lines (all_text reads)) in
       (chunks, returned)) ∧
  (∀ reads reads',
     all_text reads = all_text reads' →
     read_loop JSON_parse EmptyString [] reads
       = read_loop JSON_parse EmptyString [] reads') ∧
  (∀ calls line,
     String.prefix "data: " (trim line) = false →
     process_line JSON_parse calls line = GoOn [] calls) ∧
  (∀ calls line,
     trim line = done_line →
     process_line JSON_parse calls line = Return) ∧
  (∀ calls before line after chunks calls',
     process_lines JSON_parse calls before = (chunks, calls', false) →
     trim line = done_line →
     process_lines JSON_parse calls (before ++ line :: after)
       = (chunks, calls', true)) ∧
  (∀ reads reads',
     (read_loop JSON_parse EmptyString [] reads).2 = true →
     read_loop JSON_parse EmptyString [] (reads ++ reads')
       = read_loop JSON_parse EmptyString [] reads) ∧
  (∀ calls line,
     String.prefix "data: " (trim line) = true →
     trim line ≠ done_line →
     JSON_parse (slice_from 6 (trim line)) = None →
     process_line JSON_parse calls line = GoOn [] calls ∧
     ∀ before after,
       process_lines JSON_parse calls (line :: after)
         = process_lines JSON_parse calls after ∧
       ((process_lines JSON_parse [] before).2 = false →
        (process_lines JSON_parse [] before).1.2 = calls →
        process_lines JSON_parse [] (before ++ line :: after)
          = process_lines JSON_parse [] (before ++ after))).
Proof.
  split; [|split; [|split; [|split; [|split; [|split]]]]].
  - intros reads. by rewrite (read_loop_lines JSON_parse reads EmptyString []).
  - intros reads reads' Htext.
    rewrite !(read_loop_lines JSON_parse _ EmptyString []) by done.
    by rewrite !string_app_nil_l, Htext.
  - apply process_line_other.
  - apply process_line_done.
  - intros calls before line after chunks calls' Hbefore Hdone.
    rewrite process_lines_app, Hbefore. cbn [process_lines].
    rewrite (process_line_done JSON_parse calls' line Hdone).
    by rewrite app_nil_r.
  - intros reads reads'. apply read_loop_returned.
  - intros calls line Hp Hne Hparse.
    pose proof (process_line_malformed JSON_parse calls line Hp Hne Hparse)
      as Hline.
    split; [done|]. intros before after.
    assert (process_lines JSON_parse calls (line :: after)
            = process_lines JSON_parse calls after) as Hskip.
    { cbn [process_lines]. rewrite Hline.
      by destruct (process_lines JSON_parse calls after) as [[c cs] r]. }
    split; [done|]. intros Hret Hcalls.
    rewrite !process_lines_app.
    destruct (process_lines JSON_parse [] before) as [[c1 calls1] r1].
    cbn [fst snd] in Hret, Hcalls. subst r1 calls1. by rewrite Hskip.
Qed.

Lemma streamOpenAI_line_protocol_witness :
  read_loop read_json EmptyString [] sse_reads
    = read_loop read_json EmptyString [] sse_one_read ∧
  process_line read_json [] (q "data: {not json") = GoOn [] [] ∧
  process_line read_json [] ": keep-alive" = GoOn [] [] ∧
  process_lines read_json [] ["data: [DONE]"; "data: later"] = ([], [], true) ∧
  process_line read_json []
    (String "194" (String "160" "data: [DONE]")) = Return.
Proof.
  destruct (streamOpenAI_line_protocol read_json)
    as (_ & Hsame & Hother & Hline & Hdone & _ & Hbad).
  split; [|split; [|split; [|split]]].
  - apply Hsame. reflexivity.
  - apply (Hbad [] (q "data: {not json")); [reflexivity|done|reflexivity].
  - apply Hother. reflexivity.
  - apply (Hdone [] [] "data: [DONE]" ["data: later"] [] []); reflexivity.
  - apply Hline. reflexivity.
Defined.

(** C8, as stated, fails: a line with leading white space does not start
    with [data: ] and is not the exact line [data: [DONE]], yet it is
    not ignored: it ends the stream, or it yields a chunk. *)
Lemma streamOpenAI_counterexample :
  String.prefix "data: " " data: [DONE]" = false ∧
  (∀ JSON_parse calls,
     process_line JSON_parse calls " data: [DONE]" = Return) ∧
  String.prefix "data: "
    (q " data: {'choices':[{'delta':{'content':'Hi'}}]}") = false ∧
  process_line read_json []
    (q " data: {'choices':[{'delta':{'content':'Hi'}}]}")
    = GoOn [ {| textDelta := Some "Hi"; chunk_toolCalls := None |} ] [].
Proof.
  repeat split; reflexivity.
Qed.

(** ** Choice of the provider *)

(** C10 (amended). For every configuration whose active model exists,
    [getRawRequest] builds the OpenAI-compatible request exactly when the
    active model's provider is the string [openai], and the Gemini request
    for every other provider value, without error. [sendMessageStream]
    does the same for the generator it returns provided the active model's
    API key is not empty; with an empty key it throws before it looks at
    the provider. *)
Theorem provider_selects_adapter (JSON_parse : string → option JSValue)
    (config : AppConfig) (activeModel : ModelConfig)
    (messages : list Message) :
  find_active_model config = Some activeModel →
  (provider activeModel = "openai" →
     getRawRequest JSON_parse config messages =
       Ok (OpenAIRequest
             (openai_body activeModel
                (convertHistoryToOpenAI messages (buildSystemInstruction config))
                (active_tools config)))) ∧
  (provider activeModel ≠ "openai" →
     getRawRequest JSON_parse config messages =
       Ok (GeminiRequest
             (gemini_args JSON_parse activeModel messages
                (buildSystemInstruction config) (active_tools config)))) ∧
  ((∃ payload, getRawRequest JSON_parse config messages
               = Ok (OpenAIRequest payload))
     ↔ provider activeModel = "openai") ∧
  (apiKey activeModel ≠ EmptyString →
     (provider activeModel = "openai" →
        sendMessageStream config messages =
          Ok (streamOpenAI_of activeModel messages
                (buildSystemInstruction config) (active_tools config))) ∧
     (provider activeModel ≠ "openai" →
        sendMessageStream config messages =
          Ok (streamGemini_of activeModel messages
                (buildSystemInstruction config) (active_tools config))) ∧
     ((∃ m h s t, sendMessageStream config messages
                  = Ok (streamOpenAI_of m h s t))
        ↔ provider activeModel = "openai")) ∧
  (apiKey activeModel = EmptyString →
     sendMessageStream config messages
       = Err "API Key is missing for the selected model.").
Proof.
  intros Hm.
  assert (provider activeModel = "openai" →
          getRawRequest JSON_parse config messages =
            Ok (OpenAIRequest
                  (openai_body activeModel
                     (convertHistoryToOpenAI messages
                        (buildSystemInstruction config))
                     (active_tools config)))) as Hraw1.
  { intros Hp. unfold getRawRequest. by rewrite Hm, Hp. }
  assert (provider activeModel ≠ "openai" →
          getRawRequest JSON_parse config messages =
            Ok (GeminiRequest
                  (gemini_args JSON_parse activeModel messages
                     (buildSystemInstruction config) (active_tools config))))
    as Hraw2.
  { intros Hp. unfold getRawRequest. rewrite Hm.
    apply String.eqb_neq in Hp. by rewrite Hp. }
  split; [done|]. split; [done|]. split; [|split].
  - split.
    + intros [payload Hpay].
      destruct (decide (provider activeModel = "openai")) as [|Hne]; [done|].
      rewrite (Hraw2 Hne) in Hpay. done.
    + intros Hp. eexists. by apply Hraw1.
  - intros Hkey. apply truthy_string_true in Hkey.
    assert (provider activeModel = "openai" →
            sendMessageStream config messages =
              Ok (streamOpenAI_of activeModel messages
                    (buildSystemInstruction config) (active_tools config)))
      as Hs1.
    { intros Hp. unfold sendMessageStream. by rewrite Hm, Hkey, Hp. }
    assert (provider activeModel ≠ "openai" →
            sendMessageStream config messages =
              Ok (streamGemini_of activeModel messages
                    (buildSystemInstruction config) (active_tools config)))
      as Hs2.
    { intros Hp. unfold sendMessageStream. rewrite Hm, Hkey.
      apply String.eqb_neq in Hp. by rewrite Hp. }
    split; [done|]. split; [done|]. split.
    + intros (m & h & s & t & Hgen).
      destruct (decide (provider activeModel = "openai")) as [|Hne]; [done|].
      rewrite (Hs2 Hne) in Hgen. done.
    + intros Hp. do 4 eexists. by apply Hs1.
  - intros Hkey. unfold sendMessageStream. by rewrite Hm, Hkey.
Qed.

Lemma provider_selects_adapter_witness :
  (∃ payload,
     getRawRequest read_json tools_config [] = Ok (OpenAIRequest payload)) ∧
  sendMessageStream tools_config []
    = Ok (streamOpenAI_of openai_model []
            (buildSystemInstruction tools_config) (active_tools tools_config)) ∧
  (∃ args, getRawRequest read_json DEFAULT_CONFIG [] = Ok (GeminiRequest args)) ∧
  sendMessageStream DEFAULT_CONFIG []
    = Err "API Key is missing for the selected model.".
Proof.
  destruct (provider_selects_adapter read_json tools_config openai_model []
              eq_refl)
    as (_ & _ & Hraw & Hsend & _).
  destruct (provider_selects_adapter read_json DEFAULT_CONFIG _ [] eq_refl)
    as (_ & Hgemini & _ & _ & Hkey).
  split; [|split; [|split]].
  - apply Hraw. reflexivity.
  - destruct Hsend as (Hopenai & _); [done|]. apply Hopenai. reflexivity.
  - eexists. apply Hgemini. done.
  - apply Hkey. reflexivity.
Defined.

(** C10, as stated, fails: the default configuration has an active model,
    whose provider is not [openai], yet [sendMessageStream] does not take
    the Gemini path: it throws, because the API key is empty. *)
Lemma provider_counterexample :
  is_Some (find_active_model DEFAULT_CONFIG) ∧
  provider <$> find_active_model DEFAULT_CONFIG = Some "gemini" ∧
  sendMessageStream DEFAULT_CONFIG []
    = Err "API Key is missing for the selected model.".
Proof.
  split; [by eexists|]. split; reflexivity.
Qed.

(** ** A whole chain of turns *)

(** The chain of the specification's scenario: the model asks for the
    weather, the tool runs by itself and returns a string, and the turn
    goes on from the tool node until the model answers in text. *)
Lemma full_auto_execution_chain :
  ∃ m,
    processConversationTurn read_json 6 chat_world 0 tools_config one_user "u1"
      = Some (m, "model-2") ∧
    toolCalls <$> (m !! "model-1") = Some (Some [weather_call]) ∧
    toolResults <$> (m !! "tool-1")
      = Some (Some [ {| callId := "c1"; result := Some (dq "sunny") |} ]) ∧
    parentId <$> (m !! "model-2") = Some (Some "tool-1") ∧
    content <$> (m !! "model-2") = Some (Some "It is sunny.").
Proof.
  eexists. split; [vm_compute; reflexivity|]. repeat split; reflexivity.
Qed.


(** * Further properties of the code *)

(** ** The system instruction *)

Lemma concat_cons_nonempty sep c s l :
  String.concat sep (String c s :: l) ≠ EmptyString.
Proof.
  destruct l as [|y l]; [done|].
  change (String.concat sep (String c s :: y :: l))
    with (String c (s +:+ sep +:+ String.concat sep (y :: l))).
  done.
Qed.

Lemma string_length_app (a b : string) :
  String.length (a +:+ b) = String.length a + String.length b.
Proof.
  induction a as [|c a IH]; [by rewrite string_app_nil_l|].
  rewrite string_app_cons. simpl. by rewrite IH.
Qed.

Lemma existsb_filter_nil {A} (p : A → bool) l :
  existsb p l = false ↔ List.filter p l = [].
Proof.
  induction l as [|x l IH]; [done|]. simpl.
  destruct (p x); simpl; [split; done|exact IH].
Qed.

Lemma filter_filter_same {A} (p : A → bool) l :
  List.filter p (List.filter p l) = List.filter p l.
Proof.
  induction l as [|x l IH]; [done|]. simpl.
  destruct (p x) eqn:Hp; simpl; [rewrite Hp; by f_equal|done].
Qed.

Lemma buildSystemInstruction_blocks (c : AppConfig) :
  buildSystemInstruction c =
    if existsb vm_active (memories c) then
      systemPrompt c +:+ nl +:+ nl +:+ "=== VIRTUAL MEMORY CONTEXT ==="
        +:+ nl
        +:+ String.concat (nl +:+ nl)
              (map memory_block (List.filter vm_active (memories c)))
    else systemPrompt c.
Proof.
  unfold buildSystemInstruction.
  destruct (existsb vm_active (memories c)) eqn:He.
  - destruct (List.filter vm_active (memories c)) as [|x l] eqn:Hf.
    { apply existsb_filter_nil in Hf. congruence. }
    change (map _ (x :: l)) with (memory_block x :: map memory_block l).
    assert (truthy_string
              (String.concat (nl +:+ nl) (memory_block x :: map memory_block l))
            = true) as ->; [|done].
    apply truthy_string_true.
    change (memory_block x)
      with (String "<" ("Memory name=" +:+ dq (vm_name x) +:+ ">" +:+ nl
              +:+ vm_content x +:+ nl +:+ "</Memory>")).
    apply concat_cons_nonempty.
  - apply existsb_filter_nil in He. by rewrite He.
Qed.

(** X1. The memory context is appended to the system prompt exactly when
    at least one memory is active: the result is then the prompt, a blank
    line, the header line and the blocks of the active memories in their
    order, separated by blank lines, and it differs from the bare prompt;
    with no active memory it is the prompt itself. Memories that are
    switched off never reach the instruction. *)
Theorem buildSystemInstruction_active_memories (config : AppConfig) :
  buildSystemInstruction config =
    (if existsb vm_active (memories config) then
       systemPrompt config +:+ nl +:+ nl +:+ "=== VIRTUAL MEMORY CONTEXT ==="
         +:+ nl
         +:+ String.concat (nl +:+ nl)
               (map memory_block (List.filter vm_active (memories config)))
     else systemPrompt config) ∧
  (buildSystemInstruction config = systemPrompt config
     ↔ existsb vm_active (memories config) = false) ∧
  buildSystemInstruction config =
    buildSystemInstruction
      (with_memories (List.filter vm_active (memories config)) config).
Proof.
  split; [apply buildSystemInstruction_blocks|]. split.
  - rewrite buildSystemInstruction_blocks.
    destruct (existsb vm_active (memories config)); [|done].
    split; [|done]. intros Hsame. exfalso.
    apply (f_equal String.length) in Hsame.
    rewrite !string_length_app in Hsame. simpl in Hsame. lia.
  - rewrite (buildSystemInstruction_blocks (with_memories _ config)),
      buildSystemInstruction_blocks.
    simpl. rewrite filter_filter_same.
    destruct (existsb vm_active (memories config)) eqn:He.
    + destruct (existsb vm_active (List.filter vm_active (memories config)))
        eqn:He'; [done|].
      apply existsb_filter_nil in He'. rewrite filter_filter_same in He'.
      apply existsb_filter_nil in He'. congruence.
    + apply existsb_filter_nil in He. by rewrite He.
Qed.

(** ** The OpenAI history *)

Lemma omap_cons_Some {A B} (f : A → option B) x y l :
  f x = Some y → omap f (x :: l) = y :: omap f l.
Proof. intros H. simpl. by rewrite H. Qed.

Lemma omap_cons_None {A B} (f : A → option B) x l :
  f x = None → omap f (x :: l) = omap f l.
Proof. intros H. simpl. by rewrite H. Qed.

Lemma openai_messages_of_roles m :
  map openai_role (openai_messages_of m) = roles_of m.
Proof.
  unfold openai_messages_of, roles_of.
  destruct (role m); [done| |].
  - destruct (truthy_opt (content m)), (toolCalls m) as [[|tc tcs]|]; done.
  - destruct (toolResults m) as [trs|]; [|done].
    simpl. rewrite map_map. by apply map_ext.
Qed.

Lemma openai_messages_of_requested m :
  concat (map requested_ids (openai_messages_of m)) = call_ids_of m.
Proof.
  unfold openai_messages_of, call_ids_of.
  destruct (role m); [done| |].
  - assert (∀ v, concat (map requested_ids [v]) = requested_ids v) as Hone.
    { intros v. simpl. apply app_nil_r. }
    destruct (truthy_opt (content m)), (toolCalls m) as [[|tc tcs]|];
      try done.
    + rewrite Hone. unfold requested_ids. cbn -[map].
      rewrite map_map. by apply map_ext.
    + rewrite Hone. unfold requested_ids. cbn -[map].
      rewrite map_map. by apply map_ext.
  - destruct (toolResults m) as [trs|]; [|done].
    simpl. induction trs as [|tr trs IH]; [done|]. simpl. exact IH.
Qed.

Lemma openai_messages_of_answered m :
  omap answered_id (openai_messages_of m) = result_ids_of m.
Proof.
  unfold openai_messages_of, result_ids_of.
  destruct (role m); [done| |].
  - destruct (truthy_opt (content m)), (toolCalls m) as [[|tc tcs]|]; done.
  - destruct (toolResults m) as [trs|]; [|done].
    change (default [] (Some trs)) with trs.
    induction trs as [|tr trs IH]; [done|].
    cbn [map]. rewrite (omap_cons_Some _ _ (JStr (callId tr))) by done.
    by rewrite IH.
Qed.

(** X2. The OpenAI history always starts with the system message that
    carries the instruction, also for an empty history. After it, every
    user message stands for one [user] message, every model message for
    one [assistant] message, and every tool message for one [tool] message
    per result, in order (none when it has no results). The ids of the
    requested calls and the ids the [tool] messages answer are those of
    the thread's tool calls and tool results, in order. An assistant
    message has its text as content when the text is not empty, [null]
    when it has no text but requests calls, and no content field when it
    has neither. *)
Theorem convertHistoryToOpenAI_shape (messages : list Message)
    (systemInstruction : string) :
  head (convertHistoryToOpenAI messages systemInstruction)
    = Some (JObj [("role", JStr "system");
                  ("content", JStr systemInstruction)]) ∧
  map openai_role (convertHistoryToOpenAI messages systemInstruction)
    = JStr "system" :: concat (map roles_of messages) ∧
  concat (map requested_ids
            (convertHistoryToOpenAI messages systemInstruction))
    = concat (map call_ids_of messages) ∧
  omap answered_id (convertHistoryToOpenAI messages systemInstruction)
    = concat (map result_ids_of messages) ∧
  (∀ m, role m = model →
     ∃ v, openai_messages_of m = [v] ∧
       get_prop_opt v "content" =
         if truthy_opt (content m) then JStr (default EmptyString (content m))
         else if nonempty (default [] (toolCalls m)) then JNull
         else JUndefined).
Proof.
  unfold convertHistoryToOpenAI.
  split; [done|]. split; [|split; [|split]].
  - cbn [map]. f_equal.
    induction messages as [|m l IH]; [done|].
    cbn [map concat]. by rewrite map_app, IH, openai_messages_of_roles.
  - cbn [map concat]. change (requested_ids (JObj _)) with (@nil JSValue).
    cbn [app].
    induction messages as [|m l IH]; [done|].
    cbn [map concat].
    by rewrite map_app, concat_app, IH, openai_messages_of_requested.
  - rewrite omap_cons_None by done.
    induction messages as [|m l IH]; [done|].
    cbn [map concat]. by rewrite omap_app, IH, openai_messages_of_answered.
  - intros m Hrole. unfold openai_messages_of. rewrite Hrole.
    eexists. split; [done|].
    destruct (truthy_opt (content m)), (toolCalls m) as [[|tc tcs]|]; done.
Qed.

(** ** Threads that grow *)

Lemma appendToTree_lookup_old h n (m : gmap string Message) k x :
  m !! msg_id n = None → m !! k = Some x → k ≠ "" →
  appendToTree (Some h) n m !! k =
    Some (if String.eqb k h
          then with_childrenIds x (childrenIds x ++ [msg_id n]) else x).
Proof.
  intros Hfresh Hk Hne.
  assert (k ≠ msg_id n) as Hkn by (intros ->; congruence).
  unfold appendToTree.
  destruct (truthy_string h) eqn:Hh.
  - destruct (decide (h = msg_id n)) as [-> | Hhn].
    + rewrite lookup_insert_eq.
      rewrite !lookup_insert_ne by done.
      apply String.eqb_neq in Hkn. by rewrite Hkn.
    + rewrite lookup_insert_ne by done.
      destruct (decide (k = h)) as [-> | Hkh].
      * rewrite Hk, lookup_insert_eq. by rewrite String.eqb_refl.
      * apply String.eqb_neq in Hkh as Hkh'. rewrite Hkh'.
        destruct (m !! h); by rewrite !lookup_insert_ne.
  - apply truthy_string_false in Hh. subst h.
    rewrite lookup_insert_ne by done.
    apply String.eqb_neq in Hne. by rewrite Hne.
Qed.

Lemma thread_of_append h n (m : gmap string Message) k l :
  keys_are_ids m → parents_present m → m !! msg_id n = None →
  thread_of m k l →
  thread_of (appendToTree (Some h) n m) k (relink h (msg_id n) l).
Proof.
  intros Hkeys Hpres Hfresh Hl.
  induction Hl as [k x Hk Hx Hend | k x p l Hk Hx Hp Hl IH].
  - pose proof (appendToTree_lookup_old h n m k x Hfresh Hx Hk) as Hx'.
    cbn [relink map]. rewrite (Hkeys k x Hx).
    apply thread_root; [done|exact Hx'|].
    unfold ends_walk in *.
    assert (parentId (if String.eqb k h
                      then with_childrenIds x (childrenIds x ++ [msg_id n])
                      else x) = parentId x) as -> by by destruct (String.eqb k h).
    destruct (parentId x) as [p|] eqn:Hp; [|done].
    destruct Hend as [-> | Hnone]; [by left|].
    destruct (Hpres k x p Hx Hp) as [y Hy]. congruence.
  - pose proof (appendToTree_lookup_old h n m k x Hfresh Hx Hk) as Hx'.
    unfold relink. rewrite map_app. cbn [map]. rewrite (Hkeys k x Hx).
    eapply thread_step; [done|exact Hx'| |exact IH].
    by destruct (String.eqb k h).
Qed.

Lemma thread_of_new_node h n (m : gmap string Message) l :
  keys_are_ids m → parents_present m → m !! msg_id n = None →
  msg_id n ≠ "" → parentId n = Some h →
  thread_of m h l →
  thread_of (appendToTree (Some h) n m) (msg_id n)
    (relink h (msg_id n) l ++ [n]).
Proof.
  intros Hkeys Hpres Hfresh Hne Hp Hl.
  assert (h ≠ "" ∧ is_Some (m !! h)) as [Hh [hm Hhm]].
  { inversion Hl; subst; split; by eauto. }
  assert (h ≠ msg_id n) as Hhn by (intros ->; congruence).
  eapply thread_step; [done| |exact Hp|by apply thread_of_append].
  unfold appendToTree. apply truthy_string_true in Hh. rewrite Hh.
  rewrite lookup_insert_ne, Hhm by done.
  rewrite lookup_insert_ne by done. by rewrite lookup_insert_eq.
Qed.

Lemma getThread_of_thread (m : gmap string Message) h l :
  thread_of m h l →
  ∀ fuel, length l < fuel → getThread fuel m (Some h) = Some l.
Proof.
  intros Hl fuel Hfuel.
  assert (h ≠ "" ∧ is_Some (m !! h)) as [Hh [hm Hhm]].
  { inversion Hl; subst; split; by eauto. }
  unfold getThread. apply truthy_string_true in Hh. rewrite Hh, Hhm.
  rewrite (getThread_loop_thread_of m h l Hl fuel [] Hfuel).
  by rewrite app_nil_r.
Qed.

Lemma thread_of_stored (m : gmap string Message) h l :
  thread_of m h l → ∀ x, x ∈ l → ∃ k, m !! k = Some x.
Proof.
  induction 1 as [k y Hk Hy Hend | k y p l Hk Hy Hp Hl IH]; intros x Hx.
  - apply list_elem_of_singleton in Hx. subst. by eauto.
  - apply elem_of_app in Hx as [Hx | Hx]; [by apply IH|].
    apply list_elem_of_singleton in Hx. subst. by eauto.
Qed.

Lemma relink_length h c l : length (relink h c l) = length l.
Proof. unfold relink. by rewrite length_map. Qed.

Lemma relink_fields h c x :
  let x' := if String.eqb (msg_id x) h
            then with_childrenIds x (childrenIds x ++ [c]) else x in
  msg_id x' = msg_id x ∧ role x' = role x ∧ content x' = content x ∧
  toolCalls x' = toolCalls x ∧ toolResults x' = toolResults x ∧
  timestamp x' = timestamp x ∧ parentId x' = parentId x.
Proof. by destruct (String.eqb (msg_id x) h). Qed.

(** The converters read no tree pointer. *)
Lemma convertHistoryToOpenAI_relink h c l systemInstruction :
  convertHistoryToOpenAI (relink h c l) systemInstruction
    = convertHistoryToOpenAI l systemInstruction.
Proof.
  unfold convertHistoryToOpenAI, relink. f_equal. rewrite map_map.
  f_equal. apply map_ext. intros x.
  by destruct (String.eqb (msg_id x) h).
Qed.

Lemma convertHistoryToGemini_relink JSON_parse h c l :
  convertHistoryToGemini JSON_parse (relink h c l)
    = convertHistoryToGemini JSON_parse l.
Proof.
  unfold convertHistoryToGemini, relink. rewrite map_map.
  apply map_ext. intros x.
  by destruct (String.eqb (msg_id x) h).
Qed.

(** X4. In a well-formed tree, a turn started from a stored head sends the
    provider the branch that ends at that head: the thread of the head as
    it was before the turn, root first, in which only the head node has
    changed, by listing the pending model node as its last child. The
    pending node itself is not part of the history, and [getThread]
    returns on both trees with fuel above the length of the branch. *)
Theorem turn_sends_the_branch (JSON_parse : string → option JSValue)
    (w : World) (config : AppConfig) (startMap : gmap string Message)
    (startHeadId : string) :
  well_formed startMap → startHeadId ≠ "" →
  is_Some (startMap !! startHeadId) →
  startMap !! w_modelMsgId w = None →
  ∃ l,
    thread_of startMap startHeadId l ∧
    last l = startMap !! startHeadId ∧
    Forall (λ x, msg_id x ≠ w_modelMsgId w)
      (relink startHeadId (w_modelMsgId w) l) ∧
    ∀ fuel, length l < fuel →
      getThread fuel startMap (Some startHeadId) = Some l ∧
      getThread fuel
        (appendToTree (Some startHeadId) (initialModelMsg w startHeadId)
           startMap)
        (Some startHeadId)
        = Some (relink startHeadId (w_modelMsgId w) l) ∧
      turn JSON_parse fuel w config startMap startHeadId
        = Some (respond JSON_parse w config
                  (appendToTree (Some startHeadId)
                     (initialModelMsg w startHeadId) startMap)
                  (w_modelMsgId w)
                  (relink startHeadId (w_modelMsgId w) l)).
Proof.
  intros Hwf Hne Hsome Hfresh.
  destruct (well_formed_thread startMap Hwf startHeadId Hne Hsome) as [l Hl].
  destruct Hwf as (Hkeys & Hpres & _).
  exists l. split; [exact Hl|]. split; [by eapply thread_of_last|]. split.
  - apply Forall_forall. intros x Hx. unfold relink in Hx.
    apply list_elem_of_fmap in Hx as (y & -> & Hy).
    destruct (thread_of_stored startMap startHeadId l Hl y Hy) as [k Hk].
    destruct (relink_fields startHeadId (w_modelMsgId w) y) as (-> & _).
    rewrite (Hkeys k y Hk). intros ->. congruence.
  - intros fuel Hfuel.
    pose proof (thread_of_append startHeadId (initialModelMsg w startHeadId)
                  startMap startHeadId l Hkeys Hpres Hfresh Hl) as Hl'.
    cbn [initialModelMsg msg_id] in Hl'.
    assert (getThread fuel
              (appendToTree (Some startHeadId)
                 (initialModelMsg w startHeadId) startMap)
              (Some startHeadId)
            = Some (relink startHeadId (w_modelMsgId w) l)) as Hsent.
    { apply getThread_of_thread; [exact Hl'|]. by rewrite relink_length. }
    split; [by apply getThread_of_thread|]. split; [exact Hsent|].
    unfold turn. by rewrite Hsent.
Qed.


Lemma two_nodes_appended : append_all two_appends ∅ = two_nodes.
Proof.
  apply map_eq. intros k. unfold two_appends, two_nodes, append_all. simpl.
  unfold appendToTree. simpl.
  rewrite lookup_insert_ne by done. rewrite lookup_insert_eq. simpl.
  destruct (decide (k = "u1")) as [-> | H1].
  { by rewrite !lookup_insert_eq. }
  rewrite !(lookup_insert_ne _ "u1") by done.
  destruct (decide (k = "m1")) as [-> | H2].
  { by rewrite !lookup_insert_eq. }
  by rewrite !lookup_insert_ne.
Qed.

Lemma two_nodes_well_formed : well_formed two_nodes.
Proof.
  rewrite <- two_nodes_appended.
  apply well_formed_append_all; [apply well_formed_empty| |].
  - repeat split; reflexivity.
  - split; [exact I|]. split; [|exact I]. by eexists.
Qed.

Lemma turn_sends_the_branch_witness :
  ∃ l,
    getThread (S (length l)) two_nodes (Some "m1") = Some l ∧
    turn read_json (S (length l)) quiet_world tools_config two_nodes "m1"
      = Some (respond read_json quiet_world tools_config
                (appendToTree (Some "m1") (initialModelMsg quiet_world "m1")
                   two_nodes)
                "model-1" (relink "m1" "model-1" l)).
Proof.
  destruct (turn_sends_the_branch read_json quiet_world tools_config
              two_nodes "m1" two_nodes_well_formed)
    as (l & Hl & _ & _ & Hfuel); [done|by eexists|reflexivity|].
  destruct (Hfuel (S (length l))) as (Hget & _ & Hturn); [lia|].
  exists l. split; [exact Hget|exact Hturn].
Defined.

(** ** The raw export *)

(** X5. The raw request that the export builds from a thread is the
    request a turn sends for that thread: with an OpenAI-compatible model
    the body handed to [fetch] is the JSON text of the exported body, and
    with any other provider the argument of [generateContentStream] is the
    exported one. The child link that the pending node adds to the head
    makes no difference, since the converters read no tree pointer. *)
Theorem raw_request_is_the_request_sent
    (JSON_parse : string → option JSValue) (config : AppConfig)
    (activeModel : ModelConfig) (thread : list Message) (h c : string) :
  find_active_model config = Some activeModel →
  apiKey activeModel ≠ "" →
  getRawRequest JSON_parse config (relink h c thread)
    = getRawRequest JSON_parse config thread ∧
  (provider activeModel = "openai" →
     ∃ payload,
       getRawRequest JSON_parse config thread = Ok (OpenAIRequest payload) ∧
       sendMessageStream config (relink h c thread)
         = Ok (streamOpenAI_of activeModel (relink h c thread)
                 (buildSystemInstruction config) (active_tools config)) ∧
       request_body
         (openai_request activeModel (relink h c thread)
            (buildSystemInstruction config) (active_tools config))
         = JSON_stringify payload) ∧
  (provider activeModel ≠ "openai" →
     ∃ args,
       getRawRequest JSON_parse config thread = Ok (GeminiRequest args) ∧
       sendMessageStream config (relink h c thread)
         = Ok (streamGemini_of activeModel (relink h c thread)
                 (buildSystemInstruction config) (active_tools config)) ∧
       gemini_args JSON_parse activeModel (relink h c thread)
         (buildSystemInstruction config) (active_tools config) = args).
Proof.
  intros Hm Hkey. apply truthy_string_true in Hkey.
  split; [|split].
  - unfold getRawRequest, gemini_args. rewrite Hm.
    by rewrite convertHistoryToOpenAI_relink, convertHistoryToGemini_relink.
  - intros Hp. eexists. split; [|split].
    + unfold getRawRequest. by rewrite Hm, Hp.
    + unfold sendMessageStream. by rewrite Hm, Hkey, Hp.
    + unfold openai_request. cbn [request_body].
      by rewrite convertHistoryToOpenAI_relink.
  - intros Hp. apply String.eqb_neq in Hp. eexists. split; [|split].
    + unfold getRawRequest. by rewrite Hm, Hp.
    + unfold sendMessageStream. by rewrite Hm, Hkey, Hp.
    + unfold gemini_args. by rewrite convertHistoryToGemini_relink.
Qed.

Lemma raw_request_is_the_request_sent_witness :
  ∃ payload,
    getRawRequest read_json tools_config [node "u1" user None []]
      = Ok (OpenAIRequest payload) ∧
    request_body
      (openai_request openai_model [node "u1" user None ["model-1"]]
         (buildSystemInstruction tools_config) (active_tools tools_config))
      = JSON_stringify payload.
Proof.
  destruct (raw_request_is_the_request_sent read_json tools_config
              openai_model [node "u1" user None []] "u1" "model-1"
              eq_refl)
    as (_ & Hopenai & _); [done|].
  destruct (Hopenai eq_refl) as (payload & Hraw & _ & Hbody).
  exists payload. split; [exact Hraw|exact Hbody].
Defined.

(** ** The Gemini stream *)

Lemma imap_nonempty {A B} (f : nat → A → B) (l : list A) :
  l ≠ [] → imap f l ≠ [].
Proof. by destruct l. Qed.

Lemma gemini_chunk_snapshot w i chunk tcs :
  chunk_toolCalls (gemini_chunk w i chunk) = Some tcs → tcs ≠ [].
Proof.
  unfold gemini_chunk. cbn [chunk_toolCalls].
  destruct (g_parts chunk) as [parts|]; [|done].
  destruct (omap functionCall parts) as [|fc fcs] eqn:Hfcs; [done|].
  cbn [nonempty]. intros [= <-]. done.
Qed.

Lemma last_elem {A} (l : list A) x : last l = Some x → x ∈ l.
Proof.
  induction l as [|y l IH]; [done|].
  destruct l as [|z l]; [intros [= ->]; apply list_elem_of_here|].
  rewrite last_cons_cons. intros H. apply list_elem_of_further. by apply IH.
Qed.

(** X6. The Gemini adapter yields one stream chunk per chunk of the SDK,
    with the same text, and ends with the stream's failure if it has one.
    A chunk carries tool calls only when one of its parts holds a function
    call, and a snapshot it carries is never empty: it lists one call per
    such part, in order. Hence, after a Gemini stream that delivered at
    least one chunk, the tool calls stored on the pending node are exactly
    the last snapshot of the stream (undefined when no chunk carried
    one). *)
Theorem streamGemini_snapshots (JSON_parse : string → option JSValue)
    (w : World) (model : ModelConfig) (history : list Message)
    (systemInstruction : string) (tools : list FunctionDeclaration) :
  let result :=
    w_generateContentStream w (apiKey model)
      (gemini_args JSON_parse model history systemInstruction tools) in
  let run := streamGemini JSON_parse w model history systemInstruction tools in
  sr_failure run = g_failure result ∧
  map textDelta (sr_chunks run) = map g_text (g_chunks result) ∧
  (∀ i chunk, sr_chunks run !! i = Some chunk →
     ∃ gc, g_chunks result !! i = Some gc ∧
       (chunk_toolCalls chunk = None ↔
          omap functionCall (default [] (g_parts gc)) = []) ∧
       ∀ tcs, chunk_toolCalls chunk = Some tcs →
         tcs ≠ [] ∧
         map tc_name tcs
           = map fc_name (omap functionCall (default [] (g_parts gc))) ∧
         map tc_args tcs
           = map fc_args (omap functionCall (default [] (g_parts gc)))) ∧
  (∀ tcs, last_snapshot (sr_chunks run) = Some tcs → tcs ≠ []) ∧
  (∀ (currentMap : gmap string Message) modelMsgId x,
     currentMap !! modelMsgId = Some x → sr_chunks run ≠ [] →
     ∃ x',
       (consume modelMsgId currentMap (sr_chunks run)).1.1 !! modelMsgId
         = Some x' ∧
       toolCalls x' = last_snapshot (sr_chunks run)).
Proof.
  intros result run.
  assert (∀ tcs, last_snapshot (sr_chunks run) = Some tcs → tcs ≠ [])
    as Hlast.
  { intros tcs Hl. unfold last_snapshot in Hl. apply last_elem in Hl.
    apply list_elem_of_omap in Hl as (chunk & Hchunk & Htcs).
    apply elem_of_lookup_imap_1 in Hchunk as (i & gc & -> & _).
    by eapply gemini_chunk_snapshot. }
  split; [done|]. split; [|split; [|split]].
  - subst run. unfold streamGemini. cbn [sr_chunks]. fold result.
    change (map textDelta ?l) with (textDelta <$> l).
    rewrite fmap_imap.
    rewrite (imap_ext _ (const g_text)); [|done]. by rewrite imap_const.
  - intros i chunk Hchunk. subst run. unfold streamGemini in Hchunk.
    cbn [sr_chunks] in Hchunk. fold result in Hchunk.
    apply list_lookup_imap_Some in Hchunk as (gc & Hgc & ->).
    exists gc. split; [exact Hgc|].
    unfold gemini_chunk. cbn [chunk_toolCalls].
    destruct (g_parts gc) as [parts|]; [|by split].
    change (default [] (Some parts)) with parts.
    destruct (nonempty (omap functionCall parts)) eqn:Hn.
    + apply nonempty_true in Hn. split; [by split|].
      intros tcs [= <-]. split.
      { intros Hnil. apply (f_equal length) in Hnil.
        rewrite length_imap in Hnil.
        by destruct (omap functionCall parts). }
      change (map ?f (imap ?g ?l)) with (f <$> imap g l).
      rewrite !fmap_imap. split.
      * rewrite (imap_ext _ (const fc_name)); [|done]. by rewrite imap_const.
      * rewrite (imap_ext _ (const fc_args)); [|done]. by rewrite imap_const.
    + split; [|done]. split; [|done]. intros _.
      by destruct (omap functionCall parts).
  - exact Hlast.
  - intros currentMap modelMsgId x Hx Hne.
    unfold consume. rewrite consume_from. cbn [fst].
    destruct (sr_chunks run) as [|chunk chunks] eqn:Hchunks; [done|].
    rewrite update_node_lookup, Hx. eexists. split; [done|].
    cbn [with_content_toolCalls toolCalls].
    destruct (last_snapshot (chunk :: chunks)) as [tcs|] eqn:Hl; [|done].
    cbn [default]. specialize (Hlast tcs eq_refl).
    by destruct tcs.
Qed.

(** ** The calls that an OpenAI-compatible stream accumulates *)

Lemma ascending_le lo l hi : ascending lo l hi → lo ≤ hi.
Proof.
  revert lo. induction l as [|x l IH]; intros lo; simpl; [done|].
  intros [Hx Hl]. apply IH in Hl. lia.
Qed.

Lemma ascending_weaken lo lo' l hi hi' :
  lo' ≤ lo → hi ≤ hi' → ascending lo l hi → ascending lo' l hi'.
Proof.
  revert lo lo'. induction l as [|x l IH]; intros lo lo' Hlo Hhi; simpl.
  - lia.
  - intros [Hx Hl]. split; [lia|]. by apply (IH x x).
Qed.

Lemma ascending_app lo l1 mid l2 hi :
  ascending lo l1 mid → ascending mid l2 hi → ascending lo (l1 ++ l2) hi.
Proof.
  revert lo. induction l1 as [|x l1 IH]; intros lo; simpl.
  - intros Hlo. by apply ascending_weaken.
  - intros [Hx H1] H2. split; [done|]. by apply IH.
Qed.

Lemma ascending_lookup lo l hi :
  ascending lo l hi →
  ∀ i j a b, i ≤ j → l !! i = Some a → l !! j = Some b →
    lo ≤ a ∧ a ≤ b ∧ b ≤ hi.
Proof.
  revert lo. induction l as [|x l IH]; intros lo Hl i j a b Hij Ha Hb;
    [done|].
  destruct Hl as [Hx Hl].
  destruct i as [|i], j as [|j]; simpl in Ha, Hb.
  - injection Ha as <-. injection Hb as <-.
    apply ascending_le in Hl. lia.
  - injection Ha as <-.
    destruct (IH x Hl j j b b (le_n _) Hb Hb) as (? & _ & ?). lia.
  - lia.
  - destruct (IH x Hl i j a b) as (? & ? & ?); [lia|done|done|lia].
Qed.

Lemma map_set_length calls index a :
  length calls ≤ length (map_set calls index a).
Proof.
  induction calls as [|[k b] calls IH]; simpl; [lia|].
  destruct (same_value_zero k index); simpl; lia.
Qed.

Lemma merge_tool_calls_length tcs :
  ∀ calls, length calls ≤ length (merge_tool_calls calls tcs).1.
Proof.
  induction tcs as [|tc tcs IH]; intros calls; simpl; [lia|].
  destruct (merge_tool_call calls tc) as [calls'|] eqn:Hm; simpl; [|lia].
  specialize (IH calls').
  unfold merge_tool_call in Hm.
  destruct (get_prop tc "index"); [|done]. injection Hm as <-.
  etrans; [|exact IH]. apply map_set_length.
Qed.

Lemma snapshot_sizes_app c1 c2 :
  snapshot_sizes (c1 ++ c2) = snapshot_sizes c1 ++ snapshot_sizes c2.
Proof. unfold snapshot_sizes. by rewrite omap_app, map_app. Qed.

Lemma handle_data_sizes JSON_parse calls payload :
  ascending (length calls)
    (snapshot_sizes (handle_data JSON_parse calls payload).1)
    (length (handle_data JSON_parse calls payload).2).
Proof.
  unfold handle_data.
  destruct (JSON_parse payload) as [json|]; [|simpl; lia].
  destruct (get_prop json "choices") as [choices|]; [|simpl; lia].
  destruct (get_index0 choices) as [choice|]; [|simpl; lia].
  cbv zeta.
  set (text :=
         if truthy (get_prop_opt (get_prop_opt choice "delta") "content")
         then _ else []).
  assert (snapshot_sizes text = []) as Htext.
  { subst text. by destruct (truthy _). }
  destruct (truthy (get_prop_opt (get_prop_opt choice "delta") "tool_calls"));
    [|cbn [fst snd]; rewrite Htext; simpl; lia].
  destruct (iterate _) as [tcs|]; [|cbn [fst snd]; rewrite Htext; simpl; lia].
  pose proof (merge_tool_calls_length tcs calls) as Hlen.
  destruct (merge_tool_calls calls tcs) as [calls' finished].
  cbn [fst] in Hlen.
  destruct finished; cbn [fst snd].
  - rewrite snapshot_sizes_app, Htext. unfold snapshot_sizes, toolCallsSnapshot.
    simpl. rewrite length_map. lia.
  - rewrite Htext. simpl. lia.
Qed.

Lemma process_lines_sizes JSON_parse lines :
  ∀ calls,
    ascending (length calls)
      (snapshot_sizes (process_lines JSON_parse calls lines).1.1)
      (length (process_lines JSON_parse calls lines).1.2).
Proof.
  induction lines as [|line lines IH]; intros calls; [simpl; lia|].
  cbn [process_lines].
  destruct (process_line JSON_parse calls line) as [chunks calls'|] eqn:Hline;
    [|simpl; lia].
  assert (ascending (length calls) (snapshot_sizes chunks) (length calls'))
    as Hchunks.
  { unfold process_line in Hline.
    destruct (negb _); [injection Hline as <- <-; simpl; lia|].
    destruct (String.eqb _ _); [done|].
    pose proof (handle_data_sizes JSON_parse calls
                  (slice_from 6 (trim line))) as Hd.
    destruct (handle_data _ _ _) as [c k]. injection Hline as <- <-.
    exact Hd. }
  specialize (IH calls').
  destruct (process_lines JSON_parse calls' lines) as [[more calls''] r].
  cbn [fst snd] in *. rewrite snapshot_sizes_app.
  by eapply ascending_app.
Qed.

(** X8. The calls that an OpenAI-compatible stream accumulates never get
    fewer: whatever the body of the response is, every snapshot the parser
    yields lists at least as many calls as each snapshot it yielded
    before. The last snapshot of a stream is therefore the largest one. *)
Theorem streamOpenAI_snapshots_grow (JSON_parse : string → option JSValue)
    (reads : list string) (i j a b : nat) :
  i ≤ j →
  snapshot_sizes (read_loop JSON_parse EmptyString [] reads).1 !! i = Some a →
  snapshot_sizes (read_loop JSON_parse EmptyString [] reads).1 !! j = Some b →
  a ≤ b.
Proof.
  intros Hij Ha Hb.
  rewrite (read_loop_lines JSON_parse reads EmptyString []) in Ha, Hb by done.
  pose proof (process_lines_sizes JSON_parse
                (complete_lines (EmptyString +:+ all_text reads)) [])
    as Hsizes.
  destruct (process_lines JSON_parse [] _) as [[chunks calls] returned].
  cbn [fst snd] in *.
  destruct (ascending_lookup _ _ _ Hsizes i j a b Hij Ha Hb) as (_ & H & _).
  exact H.
Qed.

Lemma streamOpenAI_snapshots_grow_witness :
  snapshot_sizes (read_loop read_json EmptyString [] sse_reads).1 = [1; 1] ∧
  1 ≤ 1.
Proof.
  split; [reflexivity|].
  apply (streamOpenAI_snapshots_grow read_json sse_reads 0 1 1 1);
    [lia|reflexivity|reflexivity].
Defined.

(** ** The endpoint of an OpenAI-compatible model *)

Lemma strip_trailing_slash_slash s : strip_trailing_slash (s +:+ "/") = s.
Proof.
  induction s as [|c s IH]; [done|].
  rewrite string_app_cons.
  destruct (s +:+ "/") as [|d r] eqn:Hs.
  - apply (f_equal String.length) in Hs. rewrite string_length_app in Hs.
    simpl in Hs. lia.
  - change (strip_trailing_slash (String c (String d r)))
      with (String c (strip_trailing_slash (String d r))).
    by rewrite IH.
Qed.

Lemma strip_trailing_slash_none s :
  no_trailing_slash s → strip_trailing_slash s = s.
Proof.
  induction s as [|c s IH]; intros Hno; [done|].
  destruct s as [|d r].
  - simpl. destruct (Ascii.eqb c "/") eqn:Hc; [|done].
    apply Ascii.eqb_eq in Hc. subst c. by destruct (Hno EmptyString).
  - change (strip_trailing_slash (String c (String d r)))
      with (String c (strip_trailing_slash (String d r))).
    rewrite IH; [done|].
    intros t Ht. apply (Hno (String c t)). rewrite string_app_cons.
    by rewrite Ht.
Qed.

(** X9. The endpoint that an OpenAI-compatible request is sent to is the
    base URL followed by [/chat/completions]. One slash at the end of the
    base URL is dropped first, so that a base URL gives the same endpoint
    with and without it; a missing or empty base URL stands for
    [https://api.openai.com/v1]. The API key is sent as a bearer token. *)
Theorem openai_request_endpoint (model : ModelConfig)
    (history : list Message) (systemInstruction : string)
    (tools : list FunctionDeclaration) :
  let request := openai_request model history systemInstruction tools in
  (baseUrl model = None ∨ baseUrl model = Some EmptyString →
     url request = "https://api.openai.com/v1/chat/completions") ∧
  (∀ s, baseUrl model = Some (s +:+ "/") →
     url request = s +:+ "/chat/completions") ∧
  (∀ s, baseUrl model = Some s → s ≠ EmptyString → no_trailing_slash s →
     url request = s +:+ "/chat/completions") ∧
  authorization request = "Bearer " +:+ apiKey model.
Proof.
  intros request. subst request. unfold openai_request. cbn [url authorization].
  split; [|split; [|split]].
  - by intros [-> | ->].
  - intros s ->.
    change (truthy_opt (Some (s +:+ "/"))) with (truthy_string (s +:+ "/")).
    change (default EmptyString (Some (s +:+ "/"))) with (s +:+ "/").
    assert (truthy_string (s +:+ "/") = true) as ->.
    { apply truthy_string_true. intros H.
      apply (f_equal String.length) in H. rewrite string_length_app in H.
      simpl in H. lia. }
    by rewrite strip_trailing_slash_slash.
  - intros s -> Hne Hno.
    change (truthy_opt (Some s)) with (truthy_string s).
    change (default EmptyString (Some s)) with s.
    apply truthy_string_true in Hne. rewrite Hne.
    by rewrite strip_trailing_slash_none.
  - done.
Qed.

Lemma openai_request_endpoint_witness :
  url (openai_request openai_model [] "" [])
    = "https://example.test/v1/chat/completions".
Proof.
  destruct (openai_request_endpoint openai_model [] "" []) as (_ & H & _).
  apply (H "https://example.test/v1"). reflexivity.
Defined.

(** ** Appending to a thread *)

Lemma thread_from_getThread (m : gmap string Message) headId l :
  thread_from m headId l →
  ∀ fuel, length l < fuel → getThread fuel m headId = Some l.
Proof.
  destruct headId as [h|]; simpl.
  - apply getThread_of_thread.
  - by intros ->.
Qed.

Lemma head_known_thread (m : gmap string Message) headId :
  well_formed m → head_known m headId → ∃ l, thread_from m headId l.
Proof.
  intros Hwf Hh. destruct headId as [h|]; simpl; [|by eexists].
  destruct Hh as [Hne Hsome]. by apply well_formed_thread.
Qed.

Lemma append_extends_thread (m : gmap string Message) headId n old :
  well_formed m → head_known m headId →
  m !! msg_id n = None → msg_id n ≠ "" →
  parentId n = headId → childrenIds n = [] →
  thread_from m headId old →
  well_formed (appendToTree headId n m) ∧
  appendToTree headId n m !! msg_id n = Some n ∧
  thread_of (appendToTree headId n m) (msg_id n)
    (relink_from headId (msg_id n) old ++ [n]).
Proof.
  intros Hwf Hhead Hfresh Hne Hparent Hchildren Hold.
  split; [|split].
  - apply well_formed_append; [done|by repeat split|].
    destruct headId as [h|]; [|done]. by destruct Hhead.
  - destruct headId as [h|]; simpl.
    + destruct Hhead as [Hh [hm Hhm]].
      assert (h ≠ msg_id n) as Hhn by (intros ->; congruence).
      unfold appendToTree. apply truthy_string_true in Hh. rewrite Hh.
      rewrite lookup_insert_ne, Hhm by done.
      rewrite lookup_insert_ne by done. by rewrite lookup_insert_eq.
    + unfold appendToTree. by rewrite lookup_insert_eq.
  - destruct Hwf as (Hkeys & Hpres & _).
    destruct headId as [h|]; simpl in *.
    + by apply thread_of_new_node.
    + subst old. apply thread_root; [done| |].
      * unfold appendToTree. by rewrite lookup_insert_eq.
      * unfold ends_walk. by rewrite Hparent.
Qed.

(** ** Sending a message *)

(** X10. In the message mode, [handleSend] starts no turn while a turn is
    running, when the active model is missing or has no API key, or when
    the text is blank and no file is attached. Otherwise it appends one
    user message under the head, with the text as typed (not trimmed) when
    no file is attached, and starts the turn from it, unless
    [appendToTree] raises. On a well-formed tree whose head is null or
    stored, and with a new non-empty id, the tree stays well formed and
    the thread of the new head is the thread of the old head followed by
    the new message; only the old head node has changed, by listing the
    new message as its last child. *)
Theorem handleSend_user_message (JSON_parse : string → option JSValue)
    (e : Clock) (config : AppConfig) (messageMap : gmap string Message)
    (headId : option string) (st : ChatState) :
  inputMode st = user_input →
  (isLoading st = true ∨ lacks_apiKey config = true ∨
   (trim (input st) = "" ∧ attachments st = []) →
   ∀ nextMap nextHead,
     handleSend JSON_parse e config messageMap headId st
       ≠ Started nextMap nextHead) ∧
  (isLoading st = false → lacks_apiKey config = false →
   trim (input st) ≠ "" ∨ attachments st ≠ [] →
   let newMessage := userMessage e headId st in
   let nextMap := appendToTree headId newMessage messageMap in
   appendToTree_raises headId newMessage messageMap = false →
   handleSend JSON_parse e config messageMap headId st
     = Started nextMap (h_randomUUID e 0) ∧
   (attachments st = [] → content newMessage = Some (input st)) ∧
   (well_formed messageMap → head_known messageMap headId →
    messageMap !! h_randomUUID e 0 = None → h_randomUUID e 0 ≠ "" →
    well_formed nextMap ∧
    ∃ old,
      thread_from messageMap headId old ∧
      ∀ fuel, length old < fuel →
        getThread fuel messageMap headId = Some old ∧
        getThread (S fuel) nextMap (Some (h_randomUUID e 0))
          = Some (relink_from headId (h_randomUUID e 0) old
                    ++ [newMessage]))).
Proof.
  intros Hmode. split.
  - intros Hcase nextMap nextHead. unfold handleSend. rewrite Hmode.
    destruct (isLoading st); [done|].
    destruct (lacks_apiKey config); [done|].
    destruct Hcase as [? | [? | [Ht Ha]]]; [done|done|].
    by rewrite Ht, Ha.
  - intros Hload Hkey Hsome newMessage nextMap _. split; [|split].
    + unfold handleSend. rewrite Hmode, Hload, Hkey.
      assert (negb (truthy_string (trim (input st)))
              && negb (nonempty (attachments st)) = false) as ->; [|done].
      destruct Hsome as [Ht | Ha].
      * apply truthy_string_true in Ht. by rewrite Ht.
      * apply nonempty_true in Ha. rewrite Ha. apply andb_false_r.
    + intros Ha. subst newMessage. unfold userMessage, finalContent.
      by rewrite Ha.
    + intros Hwf Hhead Hfresh Hne.
      destruct (head_known_thread messageMap headId Hwf Hhead) as [old Hold].
      destruct (append_extends_thread messageMap headId newMessage old)
        as (Hwf' & _ & Hnew); try done.
      split; [exact Hwf'|]. exists old. split; [exact Hold|].
      intros fuel Hfuel. split; [by apply thread_from_getThread|].
      apply (getThread_of_thread _ _ _ Hnew).
      rewrite length_app. simpl.
      assert (length (relink_from headId (h_randomUUID e 0) old)
              = length old) as ->.
      { destruct headId; [apply relink_length|done]. }
      lia.
Qed.

Lemma handleSend_user_message_witness :
  handleSend read_json (clock_of "u2" "" "") tools_config two_nodes
    (Some "m1") (typing " hello ")
    = Started
        (appendToTree (Some "m1")
           (userMessage (clock_of "u2" "" "") (Some "m1") (typing " hello "))
           two_nodes) "u2" ∧
  content (userMessage (clock_of "u2" "" "") (Some "m1") (typing " hello "))
    = Some " hello " ∧
  (∃ old,
     getThread (S (length old)) two_nodes (Some "m1") = Some old ∧
     getThread (S (S (length old)))
       (appendToTree (Some "m1")
          (userMessage (clock_of "u2" "" "") (Some "m1") (typing " hello "))
          two_nodes) (Some "u2")
       = Some (relink "m1" "u2" old
                 ++ [userMessage (clock_of "u2" "" "") (Some "m1")
                       (typing " hello ")])) ∧
  (∀ nextMap nextHead,
     handleSend read_json (clock_of "u2" "" "") tools_config two_nodes
       (Some "m1") (typing "  ") ≠ Started nextMap nextHead) ∧
  (∀ nextMap nextHead,
     handleSend read_json (clock_of "u2" "" "") tools_config two_nodes
       (Some "m1") (typing (String "227" (String "128" (String "128" ""))))
       ≠ Started nextMap nextHead).
Proof.
  destruct (handleSend_user_message read_json (clock_of "u2" "" "")
              tools_config two_nodes (Some "m1") (typing " hello ") eq_refl)
    as [_ Hsent].
  destruct Hsent as (Hstart & Hcontent & Hthread);
    [done|done|by left|reflexivity|].
  destruct (Hthread two_nodes_well_formed) as (_ & old & _ & Hfuel);
    [by split; [|eexists]|reflexivity|done|].
  destruct (Hfuel (S (length old))) as [Hold Hnew]; [lia|].
  destruct (handleSend_user_message read_json (clock_of "u2" "" "")
              tools_config two_nodes (Some "m1") (typing "  ") eq_refl)
    as [Hblank _].
  destruct (handleSend_user_message read_json (clock_of "u2" "" "")
              tools_config two_nodes (Some "m1")
              (typing (String "227" (String "128" (String "128" ""))))
              eq_refl)
    as [Hwide _].
  split; [exact Hstart|]. split; [by apply Hcontent|].
  split; [exists old; split; [exact Hold|exact Hnew]|].
  split.
  - apply Hblank. right. right. by split.
  - apply Hwide. right. right. by split.
Defined.

(** ** What a turn does to the tree *)

Lemma touches_refl id (m : gmap string Message) : touches id m m.
Proof. split; [done|]. by destruct (m !! id). Qed.

Lemma touches_update_node id f (m : gmap string Message) :
  (∀ x, msg_id (f x) = msg_id x ∧ role (f x) = role x ∧
        parentId (f x) = parentId x ∧ childrenIds (f x) = childrenIds x) →
  touches id m (update_node id f m).
Proof.
  intros Hf. split.
  - intros k Hk. by apply update_node_lookup_ne.
  - rewrite update_node_lookup. destruct (m !! id) as [x|]; simpl; [|done].
    apply Hf.
Qed.

Lemma touches_trans id (m1 m2 m3 : gmap string Message) :
  touches id m1 m2 → touches id m2 m3 → touches id m1 m3.
Proof.
  intros [H1 H1'] [H2 H2']. split.
  - intros k Hk. by rewrite H2, H1.
  - destruct (m1 !! id), (m2 !! id), (m3 !! id); try done.
    destruct H1' as (? & ? & ? & ?), H2' as (? & ? & ? & ?).
    repeat split; congruence.
Qed.

Lemma touches_consume id (m : gmap string Message) chunks :
  touches id m (consume id m chunks).1.1.
Proof.
  unfold consume. rewrite consume_from. cbn [fst].
  destruct chunks; [apply touches_refl|]. by apply touches_update_node.
Qed.

Lemma touches_catch_error id (m : gmap string Message) head message :
  touches id m (out_map (catch_error m id head message)).
Proof. cbn [catch_error out_map]. by apply touches_update_node. Qed.

Lemma touches_is_Some id (m m' : gmap string Message) k :
  touches id m m' → is_Some (m' !! k) ↔ is_Some (m !! k).
Proof.
  intros [Hother Hid]. destruct (decide (k = id)) as [-> | Hk].
  - destruct (m !! id), (m' !! id); try done; split; by eauto.
  - by rewrite Hother.
Qed.

Lemma touches_fields id (m m' : gmap string Message) k x' :
  touches id m m' → m' !! k = Some x' →
  ∃ x, m !! k = Some x ∧ msg_id x' = msg_id x ∧ role x' = role x ∧
       parentId x' = parentId x ∧ childrenIds x' = childrenIds x.
Proof.
  intros [Hother Hid] Hx'. destruct (decide (k = id)) as [-> | Hk].
  - rewrite Hx' in Hid. destruct (m !! id) as [x|]; [|done]. by exists x.
  - rewrite Hother in Hx' by done. by exists x'.
Qed.

Lemma touches_sym id (m m' : gmap string Message) :
  touches id m m' → touches id m' m.
Proof.
  intros [Hother Hid]. split.
  - intros k Hk. by rewrite Hother.
  - destruct (m !! id), (m' !! id); try done.
    destruct Hid as (? & ? & ? & ?). repeat split; congruence.
Qed.

Lemma touches_dom id (m m' : gmap string Message) :
  touches id m m' → dom m' = dom m.
Proof.
  intros Ht. apply set_eq. intros k. rewrite !elem_of_dom.
  by apply touches_is_Some with id.
Qed.

Lemma well_formed_touches id (m m' : gmap string Message) :
  touches id m m' → well_formed m → well_formed m'.
Proof.
  intros Ht (Hkeys & Hpres & Hback & rank & bound & Hrank & Hbound).
  split; [|split; [|split]].
  - intros k x' Hx'.
    destruct (touches_fields id m m' k x' Ht Hx') as (x & Hx & -> & _).
    by eapply Hkeys.
  - intros k x' p Hx' Hp.
    destruct (touches_fields id m m' k x' Ht Hx') as (x & Hx & _ & _ & Hpp & _).
    rewrite Hpp in Hp. apply (touches_is_Some id m m' p Ht).
    by eapply Hpres.
  - intros k x' c Hx' Hc.
    destruct (touches_fields id m m' k x' Ht Hx')
      as (x & Hx & Hid & _ & _ & Hcc).
    rewrite Hcc in Hc. destruct (Hback k x c Hx Hc) as (cm & Hcm & Hcp).
    destruct (touches_fields id m' m c cm (touches_sym _ _ _ Ht) Hcm)
      as (cm' & Hcm' & _ & _ & Hpp & _).
    exists cm'. split; [done|]. by rewrite Hid, <- Hpp.
  - exists rank, bound. split.
    + intros k x' p Hx' Hp Hsome.
      destruct (touches_fields id m m' k x' Ht Hx')
        as (x & Hx & _ & _ & Hpp & _).
      rewrite Hpp in Hp. apply (touches_is_Some id m m' p Ht) in Hsome.
      by eapply Hrank.
    + intros k Hk. apply (touches_is_Some id m m' k Ht) in Hk.
      by apply Hbound.
Qed.

(** How the [try] block leaves the tree: the pending node updated, and
    possibly one tool node appended under it. *)
Lemma respond_shape JSON_parse w config (currentMap : gmap string Message)
    id history :
  let r := respond JSON_parse w config currentMap id history in
  ∃ m', touches id currentMap m' ∧
    ((out_map r = m' ∧ out_head r = id ∧ out_continue r = false) ∨
     (∃ results,
        out_map r = appendToTree (Some id) (toolMsg_of w results id) m' ∧
        out_head r = w_toolMsgId w)).
Proof.
  intros r. subst r. unfold respond.
  destruct (sendMessageStream config history) as [stream | message].
  2:{ eexists. split; [apply touches_catch_error|]. by left. }
  pose proof (touches_consume id currentMap
                (sr_chunks (run_generator JSON_parse w stream))) as Hc.
  destruct (consume id currentMap _) as [[cm text] tcs]. cbn [fst] in Hc.
  destruct (sr_failure _) as [message|].
  { eexists. split; [|by left].
    eapply touches_trans; [exact Hc|apply touches_catch_error]. }
  unfold dispatch.
  destruct (cm !! id) as [finalMsg|]; [|by exists cm; split; [|left]].
  destruct (toolCalls finalMsg) as [tcs'|]; [|by exists cm; split; [|left]].
  destruct (nonempty tcs'); [|by exists cm; split; [|left]].
  destruct (nonempty (executionQueue config tcs'));
    [|by exists cm; split; [|left]].
  destruct (run_queue w 0 _) as [results | message].
  - destruct (nonempty results); [|by exists cm; split; [|left]].
    exists cm. split; [done|]. right. by exists results.
  - eexists. split; [|by left].
    eapply touches_trans; [exact Hc|apply touches_catch_error].
Qed.

Lemma appendToTree_lookup_other parent n (m : gmap string Message) k :
  k ≠ msg_id n → parent ≠ Some k →
  appendToTree parent n m !! k = m !! k.
Proof.
  intros Hk Hp. unfold appendToTree.
  destruct parent as [p|]; [|by rewrite lookup_insert_ne].
  destruct (truthy_string p); [|by rewrite lookup_insert_ne].
  assert (p ≠ k) by congruence.
  destruct (<[msg_id n:=n]> m !! p); by rewrite !lookup_insert_ne.
Qed.

Lemma appendToTree_lookup_parent n (m : gmap string Message) k x :
  k ≠ msg_id n → k ≠ "" → m !! k = Some x →
  appendToTree (Some k) n m !! k =
    Some (with_childrenIds x (childrenIds x ++ [msg_id n])).
Proof.
  intros Hk Hne Hx. unfold appendToTree.
  apply truthy_string_true in Hne. rewrite Hne.
  rewrite lookup_insert_ne, Hx by done. by rewrite lookup_insert_eq.
Qed.

Lemma turn_keeps_nodes JSON_parse fuel w config
    (m : gmap string Message) h out :
  turn JSON_parse fuel w config m h = Some out →
  ∀ k, is_Some (m !! k) → is_Some (out_map out !! k).
Proof.
  unfold turn. intros Hturn k Hk.
  destruct (getThread fuel _ _) as [history|]; [|done].
  apply (inj Some) in Hturn. subst out.
  destruct (respond_shape JSON_parse w config
              (appendToTree (Some h) (initialModelMsg w h) m)
              (w_modelMsgId w) history) as (m' & Htouch & Hcase).
  assert (is_Some (m' !! k)) as Hk'.
  { apply (touches_is_Some _ _ _ k Htouch). by apply appendToTree_is_Some. }
  destruct Hcase as [(Hmap & _) | (results & Hmap & _)]; rewrite Hmap;
    [done|by apply appendToTree_is_Some].
Qed.

Lemma turn_frame (JSON_parse : string → option JSValue)
    (fuel : nat) (w : World) (config : AppConfig)
    (startMap : gmap string Message) (startHeadId : string)
    (out : TurnOutcome) :
  turn JSON_parse fuel w config startMap startHeadId = Some out →
  (∀ k, k ≠ startHeadId → k ≠ w_modelMsgId w → k ≠ w_toolMsgId w →
     out_map out !! k = startMap !! k) ∧
  (∀ x, startMap !! startHeadId = Some x → startHeadId ≠ "" →
     startHeadId ≠ w_modelMsgId w → startHeadId ≠ w_toolMsgId w →
     out_map out !! startHeadId
       = Some (with_childrenIds x (childrenIds x ++ [w_modelMsgId w]))).
Proof.
  unfold turn.
  set (currentMap := appendToTree (Some startHeadId)
                       (initialModelMsg w startHeadId) startMap).
  destruct (getThread fuel currentMap _) as [history|]; [|done].
  intros Hout. apply (inj Some) in Hout. subst out.
  destruct (respond_shape JSON_parse w config currentMap (w_modelMsgId w)
              history) as (m' & Ht & Hcase).
  assert (∀ k, k ≠ startHeadId → k ≠ w_modelMsgId w →
            m' !! k = startMap !! k) as Hother.
  { intros k H1 H2. destruct Ht as [Ht _]. rewrite Ht by done.
    apply appendToTree_lookup_other; [done|congruence]. }
  assert (∀ x, startMap !! startHeadId = Some x → startHeadId ≠ "" →
            startHeadId ≠ w_modelMsgId w →
            m' !! startHeadId
              = Some (with_childrenIds x (childrenIds x ++ [w_modelMsgId w])))
    as Hhead.
  { intros x Hx H1 H2. destruct Ht as [Ht _]. rewrite Ht by done.
    by apply (appendToTree_lookup_parent (initialModelMsg w startHeadId)). }
  destruct Hcase as [(Hm & _) | (results & Hm & _)]; rewrite Hm.
  - split; [by intros; apply Hother|]. by intros; apply Hhead.
  - split.
    + intros k H1 H2 H3. rewrite appendToTree_lookup_other.
      * by apply Hother.
      * done.
      * congruence.
    + intros x Hx H1 H2 H3. rewrite appendToTree_lookup_other.
      * by apply Hhead.
      * done.
      * congruence.
Qed.

(** The pending node of a turn is stored under its id, as a child of the
    start head. *)
Lemma turn_pending_node JSON_parse fuel w config
    (startMap : gmap string Message) startHeadId out :
  turn JSON_parse fuel w config startMap startHeadId = Some out →
  w_toolMsgId w ≠ w_modelMsgId w →
  ∃ x, out_map out !! w_modelMsgId w = Some x ∧
       parentId x = Some startHeadId.
Proof.
  unfold turn.
  set (currentMap := appendToTree (Some startHeadId)
                       (initialModelMsg w startHeadId) startMap).
  destruct (getThread fuel currentMap _) as [history|]; [|done].
  intros Hout Hdiff. apply (inj Some) in Hout. subst out.
  destruct (respond_shape JSON_parse w config currentMap (w_modelMsgId w)
              history) as (m' & Ht & Hcase).
  destruct (pending_node_present w startMap startHeadId)
    as (x0 & Hx0 & _ & _ & _ & Hp0).
  fold currentMap in Hx0.
  assert (∃ x, m' !! w_modelMsgId w = Some x ∧ parentId x = Some startHeadId)
    as (x & Hx & Hp).
  { destruct (proj2 (touches_is_Some _ _ _ (w_modelMsgId w) Ht)) as [x Hx];
      [by eexists|].
    destruct (touches_fields _ _ _ _ _ Ht Hx) as (y & Hy & _ & _ & Hpp & _).
    exists x. split; [done|]. rewrite Hpp. congruence. }
  destruct Hcase as [(Hm & _) | (results & Hm & _)]; rewrite Hm.
  - by exists x.
  - destruct (appendToTree_lookup_keep (Some (w_modelMsgId w))
                (toolMsg_of w results (w_modelMsgId w)) m'
                (w_modelMsgId w) x) as (x' & Hx' & _ & Hp').
    { by rewrite lookup_insert_ne. }
    exists x'. split; [done|]. congruence.
Qed.

(** X11. A turn rewrites no old node. Whatever the provider and the tools
    do, when the turn ends every node other than the start head, the
    pending model node and the tool node is as it was; no node has been
    removed; the tree has gained the pending node, and at most the tool
    node besides; the head is one of these two; and the start head node
    has only changed by listing the pending node as its last child. *)
Theorem turn_rewrites_no_old_node (JSON_parse : string → option JSValue)
    (fuel : nat) (w : World) (config : AppConfig)
    (startMap : gmap string Message) (startHeadId : string)
    (out : TurnOutcome) :
  turn JSON_parse fuel w config startMap startHeadId = Some out →
  (∀ k, k ≠ startHeadId → k ≠ w_modelMsgId w → k ≠ w_toolMsgId w →
     out_map out !! k = startMap !! k) ∧
  (∀ k, is_Some (startMap !! k) → is_Some (out_map out !! k)) ∧
  (dom (out_map out) = {[w_modelMsgId w]} ∪ dom startMap ∨
   dom (out_map out)
     = {[w_toolMsgId w]} ∪ ({[w_modelMsgId w]} ∪ dom startMap)) ∧
  (out_head out = w_modelMsgId w ∨ out_head out = w_toolMsgId w) ∧
  (∀ x, startMap !! startHeadId = Some x → startHeadId ≠ "" →
     startHeadId ≠ w_modelMsgId w → startHeadId ≠ w_toolMsgId w →
     out_map out !! startHeadId
       = Some (with_childrenIds x (childrenIds x ++ [w_modelMsgId w]))).
Proof.
  intros Hturn.
  destruct (turn_frame _ _ _ _ _ _ _ Hturn) as [Hother Hhead].
  split; [exact Hother|]. split.
  { by eapply turn_keeps_nodes. }
  split; [|split; [|exact Hhead]].
  - unfold turn in Hturn.
    set (currentMap := appendToTree (Some startHeadId)
                         (initialModelMsg w startHeadId) startMap) in *.
    destruct (getThread fuel currentMap _) as [history|]; [|done].
    apply (inj Some) in Hturn. subst out.
    destruct (respond_shape JSON_parse w config currentMap (w_modelMsgId w)
                history) as (m' & Ht & Hcase).
    assert (dom m' = {[w_modelMsgId w]} ∪ dom startMap) as Hdom.
    { rewrite (touches_dom _ _ _ Ht). apply appendToTree_dom. }
    destruct Hcase as [(Hm & _) | (results & Hm & _)]; rewrite Hm.
    + by left.
    + right. rewrite appendToTree_dom. by rewrite Hdom.
  - unfold turn in Hturn.
    destruct (getThread fuel _ _) as [history|]; [|done].
    apply (inj Some) in Hturn. subst out.
    destruct (respond_shape JSON_parse w config
                (appendToTree (Some startHeadId)
                   (initialModelMsg w startHeadId) startMap)
                (w_modelMsgId w) history) as (m' & _ & Hcase).
    destruct Hcase as [(_ & Hh & _) | (results & _ & Hh)]; rewrite Hh;
      [by left|by right].
Qed.

Lemma turn_rewrites_no_old_node_witness :
  ∃ out,
    turn read_json 3 (chat_world 0) tools_config one_user "u1" = Some out ∧
    out_head out = "tool-1" ∧
    out_map out !! "u1" = Some (node "u1" user None ["model-1"]) ∧
    dom (out_map out) = {["tool-1"]} ∪ ({["model-1"]} ∪ dom one_user).
Proof.
  set (o := respond read_json (chat_world 0) tools_config
              (appendToTree (Some "u1") (initialModelMsg (chat_world 0) "u1")
                 one_user)
              "model-1" [node "u1" user None ["model-1"]]).
  assert (turn read_json 3 (chat_world 0) tools_config one_user "u1" = Some o)
    as Hturn by reflexivity.
  assert (out_head o = "tool-1") as Hh by (vm_compute; reflexivity).
  destruct (turn_rewrites_no_old_node read_json 3 (chat_world 0) tools_config
              one_user "u1" o Hturn) as (_ & _ & Hdom & _ & Hhead).
  exists o. split; [exact Hturn|]. split; [exact Hh|]. split.
  - apply (Hhead (node "u1" user None [])); [reflexivity|done|done|done].
  - destruct Hdom as [Hdom | Hdom]; [|exact Hdom].
    exfalso. assert ("tool-1" ∈ dom (out_map o)) as Hin.
    { apply elem_of_dom. rewrite <- Hh.
      vm_compute. by eexists. }
    rewrite Hdom in Hin. apply elem_of_union in Hin as [Hin | Hin].
    + by apply elem_of_singleton in Hin.
    + apply elem_of_dom in Hin. by destruct Hin.
Defined.

Lemma is_leaf_touches id (m m' : gmap string Message) k :
  touches id m m' → is_leaf m k → is_leaf m' k.
Proof.
  intros Ht [x [Hx Hc]].
  destruct (proj2 (touches_is_Some id m m' k Ht)) as [x' Hx']; [by eexists|].
  destruct (touches_fields id m m' k x' Ht Hx') as (y & Hy & _ & _ & _ & Hcc).
  exists x'. split; [done|]. rewrite Hcc. congruence.
Qed.

Lemma append_fresh (m : gmap string Message) headId n :
  well_formed m → head_known m headId →
  m !! msg_id n = None → parentId n = headId → childrenIds n = [] →
  well_formed (appendToTree headId n m) ∧
  appendToTree headId n m !! msg_id n = Some n.
Proof.
  intros Hwf Hhead Hfresh Hparent Hchildren. split.
  - apply well_formed_append; [done|by repeat split|].
    destruct headId as [h|]; [|done]. by destruct Hhead.
  - destruct headId as [h|]; simpl.
    + destruct Hhead as [Hh [hm Hhm]].
      assert (h ≠ msg_id n) as Hhn by (intros ->; congruence).
      unfold appendToTree. apply truthy_string_true in Hh. rewrite Hh.
      rewrite lookup_insert_ne, Hhm by done.
      rewrite lookup_insert_ne by done. by rewrite lookup_insert_eq.
    + unfold appendToTree. by rewrite lookup_insert_eq.
Qed.

(** One turn on a well-formed tree, from a stored head and with new ids:
    the thread it reads, and the tree and head it leaves. *)
Lemma turn_well_formed JSON_parse w config (startMap : gmap string Message)
    startHeadId :
  well_formed startMap → startHeadId ≠ "" →
  is_Some (startMap !! startHeadId) →
  startMap !! w_modelMsgId w = None → startMap !! w_toolMsgId w = None →
  w_modelMsgId w ≠ "" → w_toolMsgId w ≠ "" →
  w_toolMsgId w ≠ w_modelMsgId w →
  ∃ history,
    thread_of
      (appendToTree (Some startHeadId) (initialModelMsg w startHeadId)
         startMap) startHeadId history ∧
    let out :=
      respond JSON_parse w config
        (appendToTree (Some startHeadId) (initialModelMsg w startHeadId)
           startMap) (w_modelMsgId w) history in
    well_formed (out_map out) ∧ is_leaf (out_map out) (out_head out) ∧
    out_head out ≠ "".
Proof.
  intros Hwf Hne Hsome Hmodel Htool Hm Ht Hdiff.
  set (init := initialModelMsg w startHeadId).
  set (currentMap := appendToTree (Some startHeadId) init startMap).
  destruct (append_fresh startMap (Some startHeadId) init)
    as (Hwf1 & Hinit); try done.
  fold currentMap in Hwf1, Hinit. cbn [init initialModelMsg msg_id] in Hinit.
  assert (is_Some (currentMap !! startHeadId)) as Hsome1.
  { by apply appendToTree_is_Some. }
  destruct (well_formed_thread currentMap Hwf1 startHeadId Hne Hsome1)
    as [history Hhistory].
  exists history. split; [exact Hhistory|]. intros out. subst out.
  destruct (respond_shape JSON_parse w config currentMap (w_modelMsgId w)
              history) as (m' & Htouch & Hcase).
  pose proof (well_formed_touches _ _ _ Htouch Hwf1) as Hwf2.
  assert (is_leaf m' (w_modelMsgId w)) as Hleaf.
  { apply (is_leaf_touches _ _ _ _ Htouch). by exists init. }
  destruct Hcase as [(Hmap & Hhead & _) | (results & Hmap & Hhead)];
    rewrite Hmap, Hhead.
  - done.
  - assert (m' !! w_toolMsgId w = None) as Hfresh.
    { destruct Htouch as [Hother _]. rewrite Hother by done.
      subst currentMap. rewrite appendToTree_lookup_other; [done|done|].
      intros [= ->]. rewrite Htool in Hsome. by destruct Hsome. }
    destruct Hleaf as [x [Hx _]].
    assert (head_known m' (Some (w_modelMsgId w))) as Hknown.
    { split; [done|by exists x]. }
    destruct (append_fresh m' (Some (w_modelMsgId w))
                (toolMsg_of w results (w_modelMsgId w)) Hwf2 Hknown Hfresh
                eq_refl eq_refl)
      as (Hwf3 & Hnode).
    split; [exact Hwf3|]. split; [|done]. by eexists.
Qed.


Lemma one_user_well_formed : well_formed one_user.
Proof.
  assert (one_user = append_all [(None, node "u1" user None [])] ∅) as ->.
  { reflexivity. }
  apply well_formed_append_all; [apply well_formed_empty| |].
  - repeat split; reflexivity.
  - by split.
Qed.


(** ** The chain of turns *)

Lemma getThread_loop_more_fuel (m : gmap string Message) fuel :
  ∀ c acc r, getThread_loop fuel m c acc = Some r →
  ∀ fuel', fuel ≤ fuel' → getThread_loop fuel' m c acc = Some r.
Proof.
  induction fuel as [|fuel IH]; intros c acc r Hr fuel' Hle; [done|].
  destruct fuel' as [|fuel']; [lia|].
  simpl in *. destruct c as [cid|]; [|done].
  destruct (truthy_string cid); [|done].
  destruct (m !! cid) as [msg|]; [|done].
  apply IH with (fuel' := fuel') in Hr; [done|lia].
Qed.

Lemma getThread_more_fuel (m : gmap string Message) fuel headId r :
  getThread fuel m headId = Some r →
  ∀ fuel', fuel ≤ fuel' → getThread fuel' m headId = Some r.
Proof.
  unfold getThread. intros Hr fuel' Hle.
  destruct headId as [h|]; [|done].
  destruct (truthy_string h); [|done].
  destruct (m !! h); [|done].
  by eapply getThread_loop_more_fuel.
Qed.

Lemma turn_more_fuel JSON_parse fuel w config (m : gmap string Message) h out :
  turn JSON_parse fuel w config m h = Some out →
  ∀ fuel', fuel ≤ fuel' → turn JSON_parse fuel' w config m h = Some out.
Proof.
  unfold turn. intros Hout fuel' Hle.
  destruct (getThread fuel _ _) as [history|] eqn:Hg; [|done].
  by rewrite (getThread_more_fuel _ _ _ _ Hg fuel' Hle).
Qed.

Lemma processConversationTurn_more_fuel JSON_parse world config fuel :
  ∀ n (m : gmap string Message) h r,
    processConversationTurn JSON_parse fuel world n config m h = Some r →
    ∀ fuel', fuel ≤ fuel' →
      processConversationTurn JSON_parse fuel' world n config m h = Some r.
Proof.
  induction fuel as [|fuel IH]; intros n m h r Hr fuel' Hle; [done|].
  destruct fuel' as [|fuel']; [lia|].
  cbn [processConversationTurn] in *.
  destruct (turn JSON_parse fuel (world n) config m h) as [out|] eqn:Hturn;
    [|done].
  rewrite (turn_more_fuel _ _ _ _ _ _ _ Hturn fuel') by lia.
  destruct (out_continue out); [|done].
  apply IH with (fuel' := fuel') in Hr; [done|lia].
Qed.

Lemma new_ids_after JSON_parse fuel world n config
    (m : gmap string Message) h out :
  new_ids world n m →
  turn JSON_parse fuel (world n) config m h = Some out →
  new_ids world (S n) (out_map out).
Proof.
  intros Hnew Hturn i Hi.
  destruct (Hnew i) as (Hm & Ht & Hm' & Ht' & Hj); [lia|].
  destruct (Hnew n) as (_ & _ & _ & _ & Hn); [lia|].
  assert (dom (out_map out) ⊆
            {[w_toolMsgId (world n)]} ∪ ({[w_modelMsgId (world n)]} ∪ dom m))
    as Hdom.
  { unfold turn in Hturn.
    destruct (getThread fuel _ _) as [history|]; [|done].
    apply (inj Some) in Hturn. subst out.
    destruct (respond_shape JSON_parse (world n) config
                (appendToTree (Some h) (initialModelMsg (world n) h) m)
                (w_modelMsgId (world n)) history) as (m' & Htouch & Hcase).
    pose proof (touches_dom _ _ _ Htouch) as Hd.
    rewrite appendToTree_dom in Hd. cbn [initialModelMsg msg_id] in Hd.
    destruct Hcase as [(Hmap & _) | (results & Hmap & _)]; rewrite Hmap.
    - rewrite Hd. apply union_subseteq_r.
    - rewrite appendToTree_dom, Hd. done. }
  assert (∀ k, k ≠ w_toolMsgId (world n) → k ≠ w_modelMsgId (world n) →
            m !! k = None → out_map out !! k = None) as Hnone.
  { intros k H1 H2 H3. apply not_elem_of_dom. intros Hin.
    apply Hdom in Hin.
    apply elem_of_union in Hin as [Hin | Hin].
    { by apply elem_of_singleton in Hin. }
    apply elem_of_union in Hin as [Hin | Hin].
    { by apply elem_of_singleton in Hin. }
    by apply not_elem_of_dom in H3. }
  destruct (Hj n) as (Hd1 & Hd2); [lia|].
  destruct (Hd2 ltac:(lia)) as [Hd3 Hd4].
  destruct (Hn i) as (Hd5 & _); [lia|].
  split; [by apply Hnone; [congruence|done|]|].
  split; [by apply Hnone|].
  split; [done|]. split; [done|].
  intros j Hjn. destruct (Hj j) as [Ha Hb]; [lia|]. by split.
Qed.

Lemma turn_outcome JSON_parse fuel w config (m : gmap string Message) h out :
  well_formed m → h ≠ "" → is_Some (m !! h) →
  m !! w_modelMsgId w = None → m !! w_toolMsgId w = None →
  w_modelMsgId w ≠ "" → w_toolMsgId w ≠ "" →
  w_toolMsgId w ≠ w_modelMsgId w →
  turn JSON_parse fuel w config m h = Some out →
  well_formed (out_map out) ∧ is_leaf (out_map out) (out_head out) ∧
  out_head out ≠ "".
Proof.
  intros Hwf Hne Hsome Hm Ht Hm' Ht' Hdiff Hturn.
  destruct (turn_well_formed JSON_parse w config m h Hwf Hne Hsome Hm Ht
              Hm' Ht' Hdiff) as (history & Hhistory & Hout).
  pose proof (getThread_of_thread _ _ _ Hhistory
                (fuel + S (length history)) ltac:(lia)) as Hg.
  apply turn_more_fuel with (fuel' := fuel + S (length history)) in Hturn;
    [|lia].
  unfold turn in Hturn. rewrite Hg in Hturn.
  apply (inj Some) in Hturn. by subst out.
Qed.

Lemma chain_invariant JSON_parse world config fuel :
  ∀ n (startMap : gmap string Message) startHeadId endMap endHead,
    well_formed startMap → startHeadId ≠ "" →
    is_Some (startMap !! startHeadId) →
    new_ids world n startMap →
    processConversationTurn JSON_parse fuel world n config startMap startHeadId
      = Some (endMap, endHead) →
    well_formed endMap ∧ is_leaf endMap endHead ∧
    ∀ k, is_Some (startMap !! k) → is_Some (endMap !! k).
Proof.
  induction fuel as [|fuel IH];
    intros n startMap startHeadId endMap endHead Hwf Hne Hsome Hnew Hrun;
    [done|].
  cbn [processConversationTurn] in Hrun.
  destruct (turn JSON_parse fuel (world n) config startMap startHeadId)
    as [out|] eqn:Hturn; [|done].
  destruct (Hnew n) as (Hm & Ht & Hm' & Ht' & Hj); [lia|].
  destruct (Hj n) as [Hdiff _]; [lia|].
  destruct (turn_outcome _ _ _ _ _ _ _ Hwf Hne Hsome Hm Ht Hm' Ht' Hdiff Hturn)
    as (Hwf' & Hleaf & Hne').
  pose proof (turn_keeps_nodes _ _ _ _ _ _ _ Hturn) as Hkeep.
  destruct (out_continue out).
  - destruct Hleaf as [x [Hx Hc]].
    destruct (IH (S n) (out_map out) (out_head out) endMap endHead Hwf' Hne'
                ltac:(by eexists)
                (new_ids_after _ _ _ _ _ _ _ _ Hnew Hturn) Hrun)
      as (H1 & H2 & H3).
    split; [exact H1|]. split; [exact H2|].
    intros k Hk. by apply H3, Hkeep.
  - apply (inj Some) in Hrun. injection Hrun as <- <-. done.
Qed.

(** X13. A chain of turns keeps the tree well formed. On a well-formed
    tree, from a stored head, and with ids that are new, non-empty and
    different from each other, whatever [processConversationTurn] returns
    after any number of automatic continuations is a well-formed tree that
    still holds every node of the start tree, with a head that is a stored
    node without children; and what it returns does not depend on the
    fuel, once there is enough of it. *)
Theorem processConversationTurn_keeps_tree
    (JSON_parse : string → option JSValue) (world : nat → World)
    (config : AppConfig) (fuel n : nat) (startMap : gmap string Message)
    (startHeadId : string) (endMap : gmap string Message)
    (endHead : string) :
  well_formed startMap → startHeadId ≠ "" →
  is_Some (startMap !! startHeadId) →
  new_ids world n startMap →
  processConversationTurn JSON_parse fuel world n config startMap startHeadId
    = Some (endMap, endHead) →
  well_formed endMap ∧ is_leaf endMap endHead ∧
  (∀ k, is_Some (startMap !! k) → is_Some (endMap !! k)) ∧
  ∀ fuel', fuel ≤ fuel' →
    processConversationTurn JSON_parse fuel' world n config startMap
      startHeadId = Some (endMap, endHead).
Proof.
  intros Hwf Hne Hsome Hnew Hrun.
  destruct (chain_invariant JSON_parse world config fuel n startMap
              startHeadId endMap endHead Hwf Hne Hsome Hnew Hrun)
    as (H1 & H2 & H3).
  split; [exact H1|]. split; [exact H2|]. split; [exact H3|].
  by apply processConversationTurn_more_fuel.
Qed.

Lemma numbered_world_new_ids : new_ids numbered_world 0 one_user.
Proof.
  intros i _. cbn [numbered_world w_modelMsgId w_toolMsgId].
  assert (∀ s t, "model-" +:+ s ≠ "tool-" +:+ t) as Hmt.
  { intros s t H. rewrite !string_app_cons in H. discriminate. }
  split; [|split; [|split; [|split]]].
  - unfold one_user. rewrite lookup_insert_ne; [done|].
    rewrite string_app_cons. discriminate.
  - unfold one_user. rewrite lookup_insert_ne; [done|].
    rewrite string_app_cons. discriminate.
  - rewrite string_app_cons. discriminate.
  - rewrite string_app_cons. discriminate.
  - intros j _. split; [by intros H; apply (Hmt (pretty j) (pretty i))|].
    intros Hij. split; intros H.
    + apply String.app_inj in H. by apply pretty_nat_inj in H.
    + apply String.app_inj in H. by apply pretty_nat_inj in H.
Qed.

Lemma processConversationTurn_keeps_tree_witness :
  ∃ endMap,
    processConversationTurn read_json 6 numbered_world 0 tools_config
      one_user "u1" = Some (endMap, "model-1") ∧
    well_formed endMap ∧ is_leaf endMap "model-1" ∧
    is_Some (endMap !! "u1").
Proof.
  destruct (processConversationTurn read_json 6 numbered_world 0 tools_config
              one_user "u1") as [[endMap endHead]|] eqn:Hrun.
  - assert (endHead = "model-1") as ->.
    { apply (f_equal (fmap snd)) in Hrun. vm_compute in Hrun.
      by injection Hrun as <-. }
    destruct (processConversationTurn_keeps_tree read_json numbered_world
                tools_config 6 0 one_user "u1" endMap "model-1"
                one_user_well_formed)
      as (Hwf & Hleaf & Hkeep & _);
      [done|by eexists|exact numbered_world_new_ids|exact Hrun|].
    exists endMap. split; [done|]. split; [exact Hwf|].
    split; [exact Hleaf|]. apply Hkeep. by eexists.
  - exfalso. apply (f_equal is_Some) in Hrun.
    assert (is_Some (processConversationTurn read_json 6 numbered_world 0
                       tools_config one_user "u1")) as Hsome.
    { vm_compute. by eexists. }
    rewrite Hrun in Hsome. by destruct Hsome.
Defined.

(** ** Regenerating an answer *)

Lemma indexOf_app_new cs c : c ∉ cs → indexOf (cs ++ [c]) c = Some (length cs).
Proof.
  induction cs as [|y cs IH]; intros Hc; simpl.
  - by rewrite String.eqb_refl.
  - apply not_elem_of_cons in Hc as [Hy Hcs].
    assert (String.eqb y c = false) as ->.
    { apply String.eqb_neq. congruence. }
    by rewrite IH.
Qed.

Lemma well_formed_not_own_parent (m : gmap string Message) k x :
  well_formed m → m !! k = Some x → parentId x ≠ Some k.
Proof.
  intros (_ & Hpres & _ & rank & bound & Hrank & _) Hx Hp.
  pose proof (Hrank k x k Hx Hp (Hpres k x k Hx Hp)). lia.
Qed.

Lemma nth_last_app (cs : list string) c d :
  last cs = Some c → nth (Nat.pred (length cs)) (cs ++ [d]) d = c.
Proof.
  induction cs as [|y cs IH]; [done|].
  destruct cs as [|z cs]; [by intros [= ->]|].
  rewrite last_cons_cons. intros Hl. specialize (IH Hl). exact IH.
Qed.

(** X14. [handleRegenerate] does nothing while a turn is running, for an
    unknown message and for a message without parent; otherwise it starts
    a turn from the parent of the message, on the same tree. On a
    well-formed tree and with new ids, that turn returns, the regenerated
    message is still stored, unchanged, and its parent lists the pending
    node as a new last child after the children it had. Going to the
    previous sibling from the pending node then sets the head to the
    latest leaf below the child that was last before. *)
Theorem handleRegenerate_adds_sibling (JSON_parse : string → option JSValue)
    (w : World) (config : AppConfig) (messageMap : gmap string Message)
    (msgId : string) (msg : Message) (p : string) :
  well_formed messageMap →
  messageMap !! msgId = Some msg → parentId msg = Some p → p ≠ "" →
  messageMap !! w_modelMsgId w = None → messageMap !! w_toolMsgId w = None →
  w_modelMsgId w ≠ "" → w_toolMsgId w ≠ "" →
  w_toolMsgId w ≠ w_modelMsgId w →
  (∀ loading,
     handleRegenerate messageMap loading msgId
       = if loading then Ignored else Started messageMap p) ∧
  (∀ (m : gmap string Message) k x,
     m !! k = None ∨ (m !! k = Some x ∧ truthy_opt (parentId x) = false) →
     handleRegenerate m false k = Ignored) ∧
  ∃ pm,
    messageMap !! p = Some pm ∧
    ∃ fuel0, ∀ fuel, fuel0 < fuel →
      ∃ out,
        turn JSON_parse fuel w config messageMap p = Some out ∧
        out_map out !! msgId = Some msg ∧
        out_map out !! p
          = Some (with_childrenIds pm (childrenIds pm ++ [w_modelMsgId w])) ∧
        ∀ c, last (childrenIds pm) = Some c →
          ∃ leaf,
            latest_leaf (out_map out) c leaf ∧
            ∃ fuel1, ∀ f, fuel1 < f →
              navigateBranch f (out_map out) (w_modelMsgId w) prev
                = Some (SetHead leaf).
Proof.
  intros Hwf Hmsg Hparent Hp Hmodel Htool Hm Ht Hdiff.
  split; [|split].
  { intros loading. unfold handleRegenerate. destruct loading; [done|].
    rewrite Hmsg, Hparent. cbn [truthy_opt default].
    apply truthy_string_true in Hp. by rewrite Hp. }
  { intros m k x [Hk | [Hk Hx]]; unfold handleRegenerate; rewrite Hk; [done|].
    by rewrite Hx. }
  pose proof Hwf as (Hkeys & Hpres & Hback & _).
  destruct (Hpres msgId msg p Hmsg Hparent) as [pm Hpm].
  exists pm. split; [exact Hpm|].
  assert (msgId ≠ p) as Hself.
  { intros ->. by apply (well_formed_not_own_parent messageMap p msg). }
  assert (msgId ≠ w_modelMsgId w ∧ msgId ≠ w_toolMsgId w) as [H1 H2].
  { split; intros ->; congruence. }
  assert (p ≠ w_modelMsgId w ∧ p ≠ w_toolMsgId w) as [H3 H4].
  { split; intros ->; congruence. }
  destruct (turn_well_formed JSON_parse w config messageMap p)
    as (history & Hhistory & _); try done.
  exists (length history). intros fuel Hfuel.
  eexists. split.
  { unfold turn. by rewrite (getThread_of_thread _ _ _ Hhistory fuel Hfuel). }
  set (out := respond JSON_parse w config _ _ _).
  assert (turn JSON_parse fuel w config messageMap p = Some out) as Hturn.
  { unfold turn. by rewrite (getThread_of_thread _ _ _ Hhistory fuel Hfuel). }
  destruct (turn_frame _ _ _ _ _ _ _ Hturn) as [Hother Hhead].
  split; [by rewrite Hother|]. split; [by apply Hhead|].
  intros c Hc.
  destruct (turn_outcome _ _ _ _ _ _ _ Hwf Hp ltac:(by eexists) Hmodel Htool
              Hm Ht Hdiff Hturn) as (Hwf' & _ & _).
  destruct (well_formed_latest_leaf (out_map out) Hwf' c) as [leaf Hleaf].
  exists leaf. split; [exact Hleaf|].
  destruct (descend_latest_leaf (out_map out) c leaf Hleaf) as [fuel1 Hdescend].
  exists fuel1. intros f Hf.
  destruct (turn_pending_node _ _ _ _ _ _ _ Hturn Hdiff) as (x & Hx & Hxp).
  unfold navigateBranch. rewrite Hx, Hxp.
  apply truthy_string_true in Hp as Hp'. rewrite Hp'.
  rewrite (Hhead pm Hpm Hp H3 H4). cbn [with_childrenIds childrenIds].
  assert (w_modelMsgId w ∉ childrenIds pm) as Hnew.
  { intros Hin. destruct (Hback p pm _ Hpm Hin) as (cm & Hcm & _). congruence. }
  rewrite (indexOf_app_new _ _ Hnew).
  rewrite length_app. cbn [length].
  rewrite clampIndex_spec by lia.
  rewrite (nth_last_app _ c _ Hc). by rewrite Hdescend.
Qed.

Lemma forked_well_formed : well_formed forked.
Proof.
  assert (forked =
            append_all [(None, node "r" user None []);
                        (Some "r", node "b1" model (Some "r") []);
                        (Some "r", node "b2" model (Some "r") [])] ∅) as ->.
  { vm_compute. reflexivity. }
  apply well_formed_append_all; [apply well_formed_empty| |].
  - repeat split; reflexivity.
  - split; [exact I|]. split; [by eexists|]. split; [by eexists|exact I].
Qed.

Lemma handleRegenerate_adds_sibling_witness :
  handleRegenerate forked false "b2" = Started forked "r" ∧
  ∃ fuel0, ∀ fuel, fuel0 < fuel →
    ∃ out,
      turn read_json fuel quiet_world tools_config forked "r" = Some out ∧
      out_map out !! "b2" = Some (node "b2" model (Some "r") []) ∧
      out_map out !! "r"
        = Some (node "r" user None ["b1"; "b2"; "model-1"]) ∧
      ∃ fuel1, ∀ f, fuel1 < f →
        navigateBranch f (out_map out) "model-1" prev = Some (SetHead "b2").
Proof.
  destruct (handleRegenerate_adds_sibling read_json quiet_world tools_config
              forked "b2" (node "b2" model (Some "r") []) "r"
              forked_well_formed)
    as (Hstart & _ & pm & Hpm & fuel0 & Hfuel); try done.
  split; [exact (Hstart false)|].
  exists fuel0. intros fuel Hlt.
  destruct (Hfuel fuel Hlt) as (out & Hturn & Hold & Hparent & Hnav).
  assert (pm = node "r" user None ["b1"; "b2"]) as ->.
  { vm_compute in Hpm. by injection Hpm as <-. }
  destruct (Hnav "b2" eq_refl) as (leaf & Hleaf & fuel1 & Hgo).
  assert (leaf = "b2") as ->.
  { inversion Hleaf as [| |? nd c ? Hnd Hlast]; subst; try done.
    rewrite Hold in Hnd. injection Hnd as <-. done. }
  exists out. split; [exact Hturn|]. split; [exact Hold|].
  split; [exact Hparent|]. by exists fuel1.
Defined.

(** ** Injecting a fake tool call *)

Lemma findIndex_app_new {A} (p : A → bool) l y r :
  Forall (λ x, p x = false) l → p y = true →
  findIndex p (l ++ y :: r) = Some (length l).
Proof.
  intros Hl Hy. induction Hl as [|x l Hx Hl IH]; simpl.
  - by rewrite Hy.
  - by rewrite Hx, IH.
Qed.

Lemma relink_absent h c l :
  Forall (λ x, msg_id x ≠ h) l → relink h c l = l.
Proof.
  intros Hl. induction Hl as [|x l Hx Hl IH]; [done|].
  cbn [relink map]. apply String.eqb_neq in Hx. rewrite Hx.
  f_equal. exact IH.
Qed.





(** ** Submitting a result by hand *)

Lemma findIndex_map {A B} (p : B → bool) (f : A → B) l :
  findIndex p (map f l) = findIndex (λ x, p (f x)) l.
Proof. induction l as [|x l IH]; simpl; [done|]. by rewrite IH. Qed.

Lemma findIndex_ext {A} (p q : A → bool) l :
  (∀ x, p x = q x) → findIndex p l = findIndex q l.
Proof.
  intros H. induction l as [|x l IH]; simpl; [done|]. by rewrite H, IH.
Qed.

Lemma findIndex_lt {A} (p : A → bool) l i :
  findIndex p l = Some i → i < length l.
Proof.
  revert i. induction l as [|x l IH]; intros i; simpl; [done|].
  destruct (p x); [intros [= <-]; lia|].
  destruct (findIndex p l) as [j|]; [|done].
  intros [= <-]. specialize (IH j eq_refl). lia.
Qed.

Lemma findIndex_app_found {A} (p : A → bool) l r i :
  findIndex p l = Some i → findIndex p (l ++ r) = Some i.
Proof.
  revert i. induction l as [|x l IH]; intros i; simpl; [done|].
  destruct (p x); [done|].
  destruct (findIndex p l) as [j|]; [|done].
  intros [= <-]. by rewrite (IH j).
Qed.

Lemma findIndex_elem (l : list Message) msg :
  msg ∈ l →
  is_Some (findIndex (λ m, String.eqb (msg_id m) (msg_id msg)) l).
Proof.
  induction l as [|x l IH]; intros Hin; [by inversion Hin|].
  simpl. destruct (String.eqb (msg_id x) (msg_id msg)) eqn:Hx; [by eexists|].
  apply elem_of_cons in Hin as [-> | Hin].
  - by rewrite String.eqb_refl in Hx.
  - destruct (IH Hin) as [i ->]. by eexists.
Qed.

Lemma nextMsg_app l r msg n :
  is_Some (findIndex (λ m, String.eqb (msg_id m) (msg_id msg)) l) →
  nextMsg l msg = Some n → nextMsg (l ++ r) msg = Some n.
Proof.
  intros [i Hi]. unfold nextMsg.
  rewrite Hi, (findIndex_app_found _ _ r _ Hi). intros Hn.
  by apply lookup_app_l_Some.
Qed.

Lemma shown_answered_app l r msg tc n :
  is_Some (findIndex (λ m, String.eqb (msg_id m) (msg_id msg)) l) →
  nextMsg l msg = Some n →
  shown_answered (l ++ r) msg tc = shown_answered l msg tc.
Proof.
  intros Hin Hn. unfold shown_answered.
  by rewrite (nextMsg_app l r msg n Hin Hn), Hn.
Qed.

Lemma findIndex_relink h c l msg :
  findIndex (λ m, String.eqb (msg_id m) (msg_id msg)) (relink h c l)
    = findIndex (λ m, String.eqb (msg_id m) (msg_id msg)) l.
Proof.
  unfold relink. rewrite findIndex_map. apply findIndex_ext.
  intros x. by destruct (String.eqb (msg_id x) h).
Qed.

Lemma nextMsg_relink h c l msg :
  nextMsg (relink h c l) msg
    = (λ x, if String.eqb (msg_id x) h
            then with_childrenIds x (childrenIds x ++ [c]) else x)
      <$> nextMsg l msg.
Proof.
  unfold nextMsg. rewrite findIndex_relink. unfold relink.
  apply list_lookup_fmap.
Qed.

Lemma shown_answered_relink h c l msg tc :
  shown_answered (relink h c l) msg tc = shown_answered l msg tc.
Proof.
  unfold shown_answered. rewrite nextMsg_relink.
  destruct (nextMsg l msg) as [n|]; [|done]. cbn [fmap option_fmap option_map].
  by destruct (String.eqb (msg_id n) h).
Qed.

Lemma thread_of_ranks (m : gmap string Message) rank bound h l :
  keys_are_ids m → parents_present m → ranked m rank bound →
  thread_of m h l →
  ∃ l0 x, l = l0 ++ [x] ∧ m !! h = Some x ∧
    Forall (λ y, rank (msg_id y) < rank h) l0.
Proof.
  intros Hkeys Hpres [Hrank _] Hl.
  induction Hl as [h msg Hh Hmsg Hend | h msg p l Hh Hmsg Hp Hl IH].
  - by exists [], msg.
  - destruct IH as (l0 & x & -> & Hx & Hl0).
    pose proof (Hrank h msg p Hmsg Hp ltac:(by eexists)) as Hlt.
    exists (l0 ++ [x]), msg. split; [done|]. split; [done|].
    apply Forall_app. split.
    + eapply Forall_impl; [exact Hl0|]. intros y Hy. simpl in Hy. lia.
    + apply Forall_singleton. by rewrite (Hkeys p x Hx).
Qed.

(** X16. [handleToolSubmit] does nothing while a turn is running;
    otherwise it appends, under the head, a tool message with the one
    result given, as typed, and starts the turn from it. On a well-formed
    tree whose head is null or stored, and with a new non-empty id: the
    thread of the new head is the old thread followed by the tool message;
    a call of the old head is then shown as answered exactly when its id
    is the submitted call id; and for every message of the thread that
    already had a next message, what is shown for its calls does not
    change, so that a result submitted for a call of an earlier message
    never marks that call as answered. *)
Theorem handleToolSubmit_answers (e : Clock)
    (messageMap : gmap string Message) (headId : option string)
    (loading : bool) (id answer : string) :
  let t := toolMessage e headId id answer in
  let nextMap := appendToTree headId t messageMap in
  handleToolSubmit e messageMap headId loading id answer
    = (if loading then Ignored else Started nextMap (h_randomUUID e 0)) ∧
  toolResults t = Some [ {| callId := id; result := Some answer |} ] ∧
  (well_formed messageMap → head_known messageMap headId →
   messageMap !! h_randomUUID e 0 = None → h_randomUUID e 0 ≠ "" →
   well_formed nextMap ∧
   ∃ old,
     thread_from messageMap headId old ∧
     let thread := relink_from headId (h_randomUUID e 0) old ++ [t] in
     (∀ fuel, length thread < fuel →
        getThread fuel nextMap (Some (h_randomUUID e 0)) = Some thread) ∧
     (∀ h hm tc, headId = Some h → messageMap !! h = Some hm →
        last (relink_from headId (h_randomUUID e 0) old)
          = Some (with_childrenIds hm (childrenIds hm ++ [h_randomUUID e 0])) ∧
        shown_answered thread
          (with_childrenIds hm (childrenIds hm ++ [h_randomUUID e 0])) tc
          = String.eqb id (tc_id tc)) ∧
     (∀ msg n tc, msg ∈ old → nextMsg old msg = Some n →
        shown_answered thread msg tc = shown_answered old msg tc)).
Proof.
  intros t nextMap. split; [by destruct loading|]. split; [done|].
  intros Hwf Hhead Hfresh Hne.
  destruct (head_known_thread messageMap headId Hwf Hhead) as [old Hold].
  destruct (append_extends_thread messageMap headId t old Hwf Hhead Hfresh Hne
              eq_refl eq_refl Hold) as (Hwf' & _ & Hthread).
  split; [exact Hwf'|]. exists old. split; [exact Hold|].
  intros thread. split; [|split].
  - intros fuel Hfuel. by apply (getThread_of_thread _ _ _ Hthread).
  - intros h hm tc -> Hhm. cbn [relink_from thread_from] in *.
    destruct Hwf as (Hkeys & Hpres & _ & rank & bound & Hranked).
    destruct (thread_of_ranks messageMap rank bound h old Hkeys Hpres Hranked
                Hold) as (l0 & x & -> & Hx & Hl0).
    assert (x = hm) as -> by congruence.
    assert (Forall (λ y, msg_id y ≠ h) l0) as Hids.
    { eapply Forall_impl; [exact Hl0|]. intros y Hy Heq. simpl in Hy.
      rewrite Heq in Hy. lia. }
    assert (relink h (h_randomUUID e 0) (l0 ++ [hm])
            = l0 ++ [with_childrenIds hm
                       (childrenIds hm ++ [h_randomUUID e 0])]) as Hre.
    { unfold relink. rewrite map_app.
      fold (relink h (h_randomUUID e 0) l0).
      rewrite (relink_absent _ _ _ Hids). cbn [map].
      by rewrite (Hkeys h hm Hhm), String.eqb_refl. }
    subst thread. cbn [relink_from]. rewrite Hre.
    split; [by rewrite last_snoc|].
    unfold shown_answered, nextMsg. rewrite <- app_assoc. cbn [app].
    rewrite (findIndex_app_new _ l0).
    + rewrite lookup_app_r by lia.
      replace (S (length l0) - length l0) with 1 by lia.
      cbn. by rewrite orb_false_r.
    + eapply Forall_impl; [exact Hids|]. intros y Hy. cbn.
      apply String.eqb_neq. by rewrite (Hkeys h hm Hhm).
    + cbn. apply String.eqb_refl.
  - intros msg n tc Hin Hn. subst thread.
    pose proof (findIndex_elem old msg Hin) as Hfound.
    destruct headId as [h|]; cbn [relink_from].
    + rewrite <- (shown_answered_relink h (h_randomUUID e 0) old msg tc).
      eapply shown_answered_app.
      * by rewrite findIndex_relink.
      * rewrite nextMsg_relink. by rewrite Hn.
    + by apply (shown_answered_app _ _ _ _ n).
Qed.

Lemma partial_map_well_formed : well_formed partial_map.
Proof.
  assert (partial_map = append_all partial_appends ∅) as ->.
  { vm_compute. reflexivity. }
  apply well_formed_append_all; [apply well_formed_empty| |].
  - repeat split; reflexivity.
  - split; [exact I|]. split; [by eexists|]. split; [by eexists|exact I].
Qed.

Lemma handleToolSubmit_answers_witness :
  ∃ old,
    getThread 4 partial_map (Some "tool-1") = Some old ∧
    asking ∈ old ∧
    shown_answered old asking time_call = false ∧
    ∀ fuel, 4 < fuel →
      ∃ thread,
        getThread fuel
          (appendToTree (Some "tool-1")
             (toolMessage (clock_of "t2" "" "") (Some "tool-1") "c2" "noon")
             partial_map) (Some "t2") = Some thread ∧
        shown_answered thread asking time_call = false ∧
        shown_answered thread asking weather_call = true.
Proof.
  destruct (handleToolSubmit_answers (clock_of "t2" "" "") partial_map
              (Some "tool-1") false "c2" "noon")
    as (_ & _ & Htree).
  destruct (Htree partial_map_well_formed)
    as (_ & old & Hold & Hthread & _ & Hsame);
    [by split; [|eexists]|reflexivity|done|].
  assert (getThread 4 partial_map (Some "tool-1") = Some old) as Hget.
  { assert (length old < 4 ∨ 4 ≤ length old) as [Hlt | Hge] by lia.
    - by apply (getThread_of_thread _ _ _ Hold).
    - pose proof (getThread_of_thread _ _ _ Hold (S (length old))
                    (Nat.lt_succ_diag_r _)) as Hrun.
      assert (getThread 4 partial_map (Some "tool-1")
              = getThread (S (length old)) partial_map (Some "tool-1"))
        as Hsame'.
      { symmetry. apply (getThread_more_fuel _ 4); [reflexivity|lia]. }
      by rewrite Hsame'. }
  assert (old = [node "u1" user None ["model-1"]; asking;
                 toolMsg_of sunny_world
                   [ {| callId := "c1"; result := Some (dq "sunny") |} ]
                   "model-1"]) as Hlist.
  { vm_compute in Hget. by injection Hget as <-. }
  exists old. split; [exact Hget|].
  assert (asking ∈ old) as Hin.
  { rewrite Hlist. apply list_elem_of_further, list_elem_of_here. }
  split; [exact Hin|].
  assert (nextMsg old asking
          = Some (toolMsg_of sunny_world
                    [ {| callId := "c1"; result := Some (dq "sunny") |} ]
                    "model-1")) as Hnext.
  { rewrite Hlist. reflexivity. }
  split; [by rewrite Hlist|].
  intros fuel Hfuel. eexists. split.
  - apply Hthread. rewrite length_app. cbn [relink_from].
    rewrite relink_length, Hlist. simpl. lia.
  - split.
    + rewrite (Hsame asking _ time_call Hin Hnext). by rewrite Hlist.
    + rewrite (Hsame asking _ weather_call Hin Hnext). by rewrite Hlist.
Defined.

(** ** Attachments *)

Lemma filter_indexed_after {A} (index : nat) (l : list A) :
  ∀ k, index < k →
    filter_indexed (λ _ i, negb (Nat.eqb i index)) k l = l.
Proof.
  induction l as [|x l IH]; intros k Hk; [done|]. simpl.
  assert (Nat.eqb k index = false) as -> by (apply Nat.eqb_neq; lia).
  simpl. f_equal. apply IH. lia.
Qed.

Lemma filter_indexed_from {A} (index : nat) (l : list A) :
  ∀ k, k ≤ index →
    filter_indexed (λ _ i, negb (Nat.eqb i index)) k l
      = take (index - k) l ++ drop (S (index - k)) l.
Proof.
  induction l as [|x l IH]; intros k Hk.
  - by rewrite take_nil, drop_nil.
  - simpl. destruct (Nat.eqb k index) eqn:Heq; simpl.
    + apply Nat.eqb_eq in Heq. subst k. rewrite Nat.sub_diag. simpl.
      rewrite drop_0. apply filter_indexed_after. lia.
    + apply Nat.eqb_neq in Heq.
      replace (index - k) with (S (index - S k)) by lia. simpl.
      f_equal. apply IH. lia.
Qed.

(** X17. [removeAttachment] removes exactly the attachment at the given
    position and keeps the others in their order: the list gets one
    shorter, the attachments before the position keep their place and
    those after it move up by one. A position beyond the end leaves the
    list as it is. *)
Theorem removeAttachment_position (index : nat) (prev : list AttachedFile) :
  removeAttachment index prev = take index prev ++ drop (S index) prev ∧
  (∀ i, removeAttachment index prev !! i
        = if decide (i < index) then prev !! i else prev !! S i) ∧
  (index < length prev →
     length (removeAttachment index prev) = length prev - 1) ∧
  (length prev ≤ index → removeAttachment index prev = prev).
Proof.
  assert (removeAttachment index prev
          = take index prev ++ drop (S index) prev) as Heq.
  { unfold removeAttachment. rewrite filter_indexed_from by lia.
    by rewrite Nat.sub_0_r. }
  split; [exact Heq|]. split; [|split].
  - intros i. rewrite Heq. destruct (decide (i < index)) as [Hlt | Hge].
    + destruct (decide (index ≤ length prev)) as [Hin | Hout].
      * rewrite lookup_app_l by (rewrite length_take; lia).
        by apply lookup_take_lt.
      * rewrite take_ge, drop_ge, app_nil_r by lia. done.
    + destruct (decide (index ≤ length prev)) as [Hin | Hout].
      * rewrite lookup_app_r by (rewrite length_take; lia).
        rewrite length_take, lookup_drop.
        f_equal. lia.
      * rewrite take_ge, drop_ge, app_nil_r by lia.
        rewrite !lookup_ge_None_2 by lia. done.
  - intros Hlt. rewrite Heq, length_app, length_take, length_drop. lia.
  - intros Hge. rewrite Heq. by rewrite take_ge, drop_ge, app_nil_r by lia.
Qed.

(** ** The navigation buttons *)



Lemma navigateBranch_listed fuel (m : gmap string Message) msg p pm i
    direction :
  m !! msg_id msg = Some msg → parentId msg = Some p → p ≠ "" →
  m !! p = Some pm → indexOf (childrenIds pm) (msg_id msg) = Some i →
  ∀ target,
    childrenIds pm !!
      match direction with
      | prev => Nat.pred i
      | next => Nat.min (S i) (length (childrenIds pm) - 1)
      end = Some target →
    navigateBranch fuel m (msg_id msg) direction
      = SetHead <$> descend fuel m target.
Proof.
  intros Hmsg Hp Hne Hpm Hi target Ht.
  unfold navigateBranch. rewrite Hmsg, Hp.
  apply truthy_string_true in Hne. rewrite Hne, Hpm, Hi.
  pose proof (lookup_lt_Some _ _ _ (indexOf_Some _ _ _ Hi)) as Hlt.
  rewrite (clampIndex_spec direction i _ Hlt).
  rewrite (nth_lookup_Some _ _ (msg_id msg) _ Ht).
  by destruct (descend fuel m target).
Qed.



(** ** Branch navigation *)

Lemma descend_own_child (m : gmap string Message) b x :
  m !! b = Some x → last (childrenIds x) = Some b →
  ∀ fuel, descend fuel m b = None.
Proof.
  intros Hx Hlast fuel. induction fuel as [|fuel IH]; [done|].
  simpl. by rewrite Hx, Hlast.
Qed.

Lemma parent_of_None (m : gmap string Message) msg :
  parentId msg = None ∨ parentId msg = Some "" ∨
  (∃ p, parentId msg = Some p ∧ m !! p = None) →
  parent_of m msg = None.
Proof.
  unfold parent_of. intros [-> | [-> | (p & -> & Hp)]]; [done|done|].
  change (default EmptyString (Some p)) with p. rewrite Hp.
  by destruct (truthy_opt (Some p)).
Qed.

Lemma parent_of_stored (m : gmap string Message) msg p pm :
  parentId msg = Some p → p ≠ "" → m !! p = Some pm →
  parent_of m msg = Some pm.
Proof.
  intros Hp Hne Hpm. unfold parent_of. rewrite Hp.
  change (default EmptyString (Some p)) with p.
  change (truthy_opt (Some p)) with (truthy_string p).
  apply truthy_string_true in Hne. by rewrite Hne.
Qed.

Lemma navigateBranch_unlisted fuel (m : gmap string Message) msg p pm
    direction :
  m !! msg_id msg = Some msg → parentId msg = Some p → m !! p = Some pm →
  indexOf (childrenIds pm) (msg_id msg) = None →
  navigateBranch fuel m (msg_id msg) direction = Some Unchanged.
Proof.
  intros Hmsg Hp Hpm Hi. unfold navigateBranch.
  rewrite Hmsg, Hp. destruct (truthy_string p); [|done].
  by rewrite Hpm, Hi.
Qed.

Lemma navigation_click_enabled fuel (m : gmap string Message) msg pm i
    direction :
  parent_of m msg = Some pm →
  indexOf (childrenIds pm) (msg_id msg) = Some i →
  match direction with
  | prev => 0 < i
  | next => S i < length (childrenIds pm)
  end →
  navigation_click fuel m msg direction
    = navigateBranch fuel m (msg_id msg) direction.
Proof.
  intros Hparent Hi Hroom.
  pose proof (lookup_lt_Some _ _ _ (indexOf_Some _ _ _ Hi)) as Hlt.
  unfold navigation_click, prev_enabled, next_enabled, shows_navigation,
    currentSiblingIndex, siblingCount.
  rewrite Hparent, Hi.
  assert ((1 <? Z.of_nat (length (childrenIds pm)))%Z = true) as ->.
  { apply Z.ltb_lt. destruct direction; lia. }
  destruct direction; cbn [andb].
  - assert ((Z.of_nat i =? 0)%Z = false) as -> by (apply Z.eqb_neq; lia).
    done.
  - assert ((Z.of_nat i =? Z.of_nat (length (childrenIds pm)) - 1)%Z = false)
      as -> by (apply Z.eqb_neq; lia).
    done.
Qed.

(** C9 (amended). Branch navigation is clamped, with no wraparound. At
    the interface a navigation leaves the head unchanged when the message
    has no parent (a null or empty [parentId], or one that names no
    node and is no inherited name), when it is an only child, when its
    parent does not list it, for [prev] on the first sibling and for
    [next] on the last sibling: no button is rendered, the button is
    disabled, or [navigateBranch] returns early. Otherwise the click
    reaches [navigateBranch] with the sibling just before or just after
    the message as its target, and the head is set to the leaf reached
    from that sibling through the last child at every level, whenever
    that descent is finite and does not end on an inherited name: it
    returns with enough fuel, and it returns nothing else.
    [navigateBranch] itself holds the target index at the first and last
    position. *)
Theorem navigation_is_clamped (messageMap : gmap string Message)
    (msg : Message) (direction : Direction) :
  messageMap !! msg_id msg = Some msg →
  ((parentId msg = None ∨ parentId msg = Some "" ∨
    (∃ p, parentId msg = Some p ∧ messageMap !! p = None ∧
          inherited p = false) ∨
    (∃ p pm, parentId msg = Some p ∧ messageMap !! p = Some pm ∧
       (length (childrenIds pm) ≤ 1 ∨
        indexOf (childrenIds pm) (msg_id msg) = None ∨
        (direction = prev ∧
         indexOf (childrenIds pm) (msg_id msg) = Some 0) ∨
        (direction = next ∧
         ∃ i, indexOf (childrenIds pm) (msg_id msg) = Some i ∧
              S i = length (childrenIds pm))))) →
   ∀ fuel, navigation_click fuel messageMap msg direction = Some Unchanged) ∧
  (∀ p pm i,
     parentId msg = Some p → p ≠ "" → messageMap !! p = Some pm →
     indexOf (childrenIds pm) (msg_id msg) = Some i →
     (∃ clamped,
        childrenIds pm !!
          match direction with
          | prev => Nat.pred i
          | next => Nat.min (S i) (length (childrenIds pm) - 1)
          end = Some clamped ∧
        (descends_on_own_keys messageMap clamped →
         ∀ fuel,
           navigateBranch fuel messageMap (msg_id msg) direction
             = SetHead <$> descend fuel messageMap clamped)) ∧
     (match direction with
      | prev => 0 < i
      | next => S i < length (childrenIds pm)
      end →
      ∃ target,
        childrenIds pm !!
          match direction with
          | prev => Nat.pred i
          | next => S i
          end = Some target ∧
        (descends_on_own_keys messageMap target →
         (∀ fuel,
            navigation_click fuel messageMap msg direction
              = SetHead <$> descend fuel messageMap target) ∧
         (∀ leaf, latest_leaf messageMap target leaf →
            ∃ k, ∀ fuel, k < fuel →
              navigation_click fuel messageMap msg direction
                = Some (SetHead leaf)) ∧
         (∀ fuel r,
            navigation_click fuel messageMap msg direction = Some r →
            ∃ leaf, r = SetHead leaf ∧
                    latest_leaf messageMap target leaf)))).
Proof.
  intros Hmsg. split.
  - intros Hcase fuel.
    assert (parent_of messageMap msg = None
            ∨ ∃ p pm, parentId msg = Some p ∧ p ≠ "" ∧
                messageMap !! p = Some pm ∧
                parent_of messageMap msg = Some pm ∧
                (length (childrenIds pm) ≤ 1 ∨
                 indexOf (childrenIds pm) (msg_id msg) = None ∨
                 (direction = prev ∧
                  indexOf (childrenIds pm) (msg_id msg) = Some 0) ∨
                 (direction = next ∧
                  ∃ i, indexOf (childrenIds pm) (msg_id msg) = Some i ∧
                       S i = length (childrenIds pm))))
      as [Hnone | (p & pm & Hp & Hne & Hpm & Hparent & Hin)].
    { destruct Hcase
        as [Hp | [Hp | [(p & Hp & Hpm & _) | (p & pm & Hp & Hpm & Hin)]]].
      - left. by apply parent_of_None; left.
      - left. by apply parent_of_None; right; left.
      - left. apply parent_of_None. right. right. by exists p.
      - destruct (decide (p = "")) as [-> | Hne].
        + left. by apply parent_of_None; right; left.
        + right. exists p, pm. repeat (split; [done|]).
          split; [by apply (parent_of_stored _ _ p)|done]. }
    + unfold navigation_click, prev_enabled, next_enabled, shows_navigation,
        siblingCount.
      rewrite Hnone. by destruct direction.
    + unfold navigation_click, prev_enabled, next_enabled, shows_navigation,
        currentSiblingIndex, siblingCount.
      rewrite Hparent.
      destruct Hin as [Hone | [Hnone | [[-> Hfirst] | [-> (i & Hi & Hlast)]]]].
      * assert ((1 <? Z.of_nat (length (childrenIds pm)))%Z = false) as ->
          by (apply Z.ltb_ge; lia).
        by destruct direction.
      * rewrite (navigateBranch_unlisted fuel messageMap msg p pm direction)
          by done.
        by destruct direction;
          destruct ((1 <? Z.of_nat (length (childrenIds pm)))%Z && _).
      * rewrite Hfirst. cbn [Z.of_nat Z.eqb negb]. by rewrite andb_false_r.
      * rewrite Hi.
        assert ((Z.of_nat i =? Z.of_nat (length (childrenIds pm)) - 1)%Z
                = true) as -> by (apply Z.eqb_eq; lia).
        cbn [negb]. by rewrite andb_false_r.
  - intros p pm i Hp Hne Hpm Hi.
    pose proof (lookup_lt_Some _ _ _ (indexOf_Some _ _ _ Hi)) as Hlt.
    pose proof (parent_of_stored messageMap msg p pm Hp Hne Hpm) as Hparent.
    split.
    + destruct (lookup_lt_is_Some_2 (childrenIds pm)
                  match direction with
                  | prev => Nat.pred i
                  | next => Nat.min (S i) (length (childrenIds pm) - 1)
                  end) as [clamped Hc].
      { destruct direction; lia. }
      exists clamped. split; [exact Hc|]. intros _ fuel.
      by apply (navigateBranch_listed fuel messageMap msg p pm i direction).
    + intros Hroom.
      destruct (lookup_lt_is_Some_2 (childrenIds pm)
                  match direction with
                  | prev => Nat.pred i
                  | next => S i
                  end) as [target Ht].
      { destruct direction; lia. }
      assert (∀ fuel,
                navigation_click fuel messageMap msg direction
                  = SetHead <$> descend fuel messageMap target) as Hclick.
      { intros fuel.
        rewrite (navigation_click_enabled fuel messageMap msg pm i direction)
          by done.
        apply (navigateBranch_listed fuel messageMap msg p pm i direction);
          try done.
        destruct direction; [done|].
        by replace (Nat.min (S i) (length (childrenIds pm) - 1)) with (S i)
          by lia. }
      exists target. split; [exact Ht|]. intros _.
      split; [exact Hclick|]. split.
      * intros leaf Hleaf.
        destruct (descend_latest_leaf messageMap target leaf Hleaf) as [k Hk].
        exists k. intros fuel Hf. by rewrite Hclick, Hk.
      * intros fuel r. rewrite Hclick.
        destruct (descend fuel messageMap target) as [ptr|] eqn:Hd; [|done].
        intros [= <-]. exists ptr. split; [done|]. by eapply descend_sound.
Qed.

Lemma navigation_is_clamped_witness :
  (∃ k, ∀ fuel, k < fuel →
     navigation_click fuel forked (node "b2" model (Some "r") []) prev
       = Some (SetHead "b1")) ∧
  (∀ fuel,
     navigation_click fuel forked (node "b2" model (Some "r") []) next
       = Some Unchanged) ∧
  (∀ fuel,
     navigation_click fuel forked (node "r" user None ["b1"; "b2"]) prev
       = Some Unchanged).
Proof.
  destruct (navigation_is_clamped forked (node "b2" model (Some "r") []) prev
              eq_refl) as [_ Hprev].
  destruct (navigation_is_clamped forked (node "b2" model (Some "r") []) next
              eq_refl) as [Hnext _].
  destruct (navigation_is_clamped forked (node "r" user None ["b1"; "b2"])
              prev eq_refl) as [Hroot _].
  assert (forked !! "r" = Some (node "r" user None ["b1"; "b2"])) as Hr
    by reflexivity.
  assert ("r" ≠ "") as Hne by done.
  assert (indexOf ["b1"; "b2"] "b2" = Some 1) as Hidx by reflexivity.
  destruct (Hprev "r" _ 1 eq_refl Hne Hr Hidx) as [_ Hgo].
  destruct (Hgo ltac:(simpl; lia)) as (target & Ht & Hown).
  simpl in Ht. injection Ht as <-.
  destruct Hown as (_ & Hleaf & _).
  { intros leaf Hleaf. inversion Hleaf; subst; try reflexivity.
    match goal with H : forked !! "b1" = Some _ |- _ =>
      vm_compute in H; injection H as <- end.
    done. }
  split; [|split].
  - apply Hleaf. eapply leaf_childless; reflexivity.
  - apply Hnext. right. right. right.
    exists "r", (node "r" user None ["b1"; "b2"]).
    split; [reflexivity|]. split; [exact Hr|].
    right. right. right. split; [reflexivity|]. by exists 1.
  - apply Hroot. by left.
Defined.

(** C9, as stated, fails on trees that the import of a session can set.
    In [looping] the head [a] is shown with its button for the next
    sibling enabled; that sibling lists itself as its child, the descent
    reaches no leaf and the navigation never returns. In [unlisted] the
    head [a] has a parent with two other children, both buttons are
    enabled, and the navigation changes nothing. *)
Lemma navigation_counterexample :
  (getThread 3 looping (Some "a")
     = Some [node "p" user None ["a"; "b"]; node "a" model (Some "p") []] ∧
   next_enabled looping (node "a" model (Some "p") []) = true ∧
   ∀ fuel,
     navigation_click fuel looping (node "a" model (Some "p") []) next
       = None) ∧
  (getThread 3 unlisted (Some "a")
     = Some [node "p" user None ["b"; "c"]; node "a" model (Some "p") []] ∧
   prev_enabled unlisted (node "a" model (Some "p") []) = true ∧
   next_enabled unlisted (node "a" model (Some "p") []) = true ∧
   ∀ fuel direction,
     navigation_click fuel unlisted (node "a" model (Some "p") []) direction
       = Some Unchanged).
Proof.
  split.
  - split; [reflexivity|]. split; [reflexivity|]. intros fuel.
    unfold navigation_click.
    assert (next_enabled looping (node "a" model (Some "p") []) = true) as ->
      by reflexivity.
    rewrite (navigateBranch_listed fuel looping (node "a" model (Some "p") [])
               "p" (node "p" user None ["a"; "b"]) 0 next eq_refl eq_refl
               ltac:(done) eq_refl eq_refl "b" eq_refl).
    by rewrite (descend_own_child looping "b" (node "b" model (Some "p") ["b"])).
  - split; [reflexivity|]. split; [reflexivity|]. split; [reflexivity|].
    intros fuel direction. unfold navigation_click.
    assert (navigateBranch fuel unlisted "a" direction = Some Unchanged) as Hnav
      by reflexivity.
    cbn [msg_id node]. rewrite Hnav. by destruct direction.
Qed.

(** ** The import of legacy sessions *)









(** ** The tools of a request *)

Lemma nonempty_map {A B} (f : A → B) l : nonempty (map f l) = nonempty l.
Proof. by destruct l. Qed.

Lemma nonempty_filter {A} (p : A → bool) l :
  nonempty (List.filter p l) = existsb p l.
Proof.
  induction l as [|x l IH]; [done|]. simpl. by destruct (p x).
Qed.

(** X20. A request names the tools that are switched on, and no others:
    the OpenAI-compatible body has a [tools] field exactly when at least
    one registered tool is active, and it then lists the declarations of
    the active tools in the order of the configuration; the Gemini
    argument has one [functionDeclarations] entry with the same
    declarations, or no tools at all. With no active model,
    [getRawRequest] throws instead. *)
Theorem request_lists_active_tools (JSON_parse : string → option JSValue)
    (config : AppConfig) (messages : list Message) :
  (find_active_model config = None →
     getRawRequest JSON_parse config messages
       = Err "No active model selected.") ∧
  (∀ activeModel,
     find_active_model config = Some activeModel →
     let declarations :=
       map definition (List.filter active (tools config)) in
     (provider activeModel = "openai" →
        ∃ payload,
          getRawRequest JSON_parse config messages
            = Ok (OpenAIRequest payload) ∧
          get_prop_opt payload "model" = JStr (modelId activeModel) ∧
          get_prop_opt payload "stream" = JBool true ∧
          get_prop_opt payload "tools" =
            if existsb active (tools config)
            then JArr (mapToolsToOpenAI declarations)
            else JUndefined) ∧
     (provider activeModel ≠ "openai" →
        ∃ args,
          getRawRequest JSON_parse config messages = Ok (GeminiRequest args) ∧
          ga_model args = modelId activeModel ∧
          ga_tools args =
            if existsb active (tools config) then Some declarations
            else None)).
Proof.
  split.
  - intros Hm. unfold getRawRequest. by rewrite Hm.
  - intros activeModel Hm declarations.
    assert (nonempty (active_tools config) = existsb active (tools config))
      as Hsome.
    { unfold active_tools. by rewrite nonempty_map, nonempty_filter. }
    split.
    + intros Hp. eexists. split.
      { unfold getRawRequest. by rewrite Hm, Hp. }
      unfold openai_body. rewrite Hsome.
      by destruct (existsb active (tools config)).
    + intros Hp. apply String.eqb_neq in Hp. eexists. split.
      { unfold getRawRequest. by rewrite Hm, Hp. }
      unfold gemini_args. cbn [ga_model ga_tools]. by rewrite Hsome.
Qed.

Lemma request_lists_active_tools_witness :
  (∃ payload,
     getRawRequest read_json tools_config [] = Ok (OpenAIRequest payload) ∧
     get_prop_opt payload "tools"
       = JArr (mapToolsToOpenAI
                 [definition get_weather_tool; definition get_time_tool])) ∧
  (∃ payload,
     getRawRequest read_json disabled_config [] = Ok (OpenAIRequest payload) ∧
     get_prop_opt payload "tools" = JUndefined).
Proof.
  destruct (request_lists_active_tools read_json tools_config [])
    as [_ Hon].
  destruct (Hon openai_model eq_refl) as [Hopen _].
  destruct (Hopen eq_refl) as (payload & Hraw & _ & _ & Htools).
  destruct (request_lists_active_tools read_json disabled_config [])
    as [_ Hoff].
  destruct (Hoff openai_model eq_refl) as [Hopen' _].
  destruct (Hopen' eq_refl) as (payload' & Hraw' & _ & _ & Htools').
  split.
  - exists payload. split; [exact Hraw|exact Htools].
  - exists payload'. split; [exact Hraw'|exact Htools'].
Defined.

(** ** The configuration panel *)

Lemma find_filter_keep {A} (p q : A → bool) l :
  (∀ x, p x = true → q x = true) →
  List.find p (List.filter q l) = List.find p l.
Proof.
  intros Hpq. induction l as [|x l IH]; [done|]. simpl.
  destruct (q x) eqn:Hq; simpl.
  - by rewrite IH.
  - destruct (p x) eqn:Hp; [|done]. apply Hpq in Hp. congruence.
Qed.

Lemma filter_other_ids (id : string) (l : list ModelConfig) :
  NoDup (map mc_id l) →
  length l ≤ S (length (List.filter (λ m, negb (String.eqb (mc_id m) id)) l)).
Proof.
  induction l as [|x l IH]; intros Hnodup; [simpl; lia|].
  apply NoDup_cons in Hnodup as [Hx Hnodup]. simpl.
  destruct (String.eqb (mc_id x) id) eqn:Hid; simpl.
  - apply String.eqb_eq in Hid.
    assert (List.filter (λ m, negb (String.eqb (mc_id m) id)) l = l) as ->;
      [|lia].
    clear IH Hnodup. induction l as [|y l IH]; [done|]. simpl.
    assert (mc_id y ≠ id) as Hy.
    { intros Heq. apply Hx. simpl. rewrite Hid, <- Heq.
      apply list_elem_of_here. }
    apply String.eqb_neq in Hy. rewrite Hy. simpl. f_equal. apply IH.
    intros Hin. apply Hx. simpl. by apply list_elem_of_further.
  - specialize (IH Hnodup). lia.
Qed.

(** X21. [handleDeleteModel] refuses to delete the only model. With two
    or more models whose ids are all different, it removes the model with
    the given id and keeps the others in their order, and the
    configuration still has an active model afterwards: the same one when
    another model was deleted, and the first remaining model when the
    active one was deleted. When every model has the id that is deleted
    and that id is the active one, the state updater raises instead. *)
Theorem handleDeleteModel_keeps_active (id : string) (config : AppConfig) :
  (length (models config) ≤ 1 → handleDeleteModel id config = Refused) ∧
  (1 < length (models config) → NoDup (map mc_id (models config)) →
   ∃ config',
     handleDeleteModel id config = Updated config' ∧
     models config'
       = List.filter (λ m, negb (String.eqb (mc_id m) id)) (models config) ∧
     (activeModelId config ≠ id →
        activeModelId config' = activeModelId config ∧
        find_active_model config' = find_active_model config) ∧
     (activeModelId config = id →
        ∃ first, head (models config') = Some first ∧
          find_active_model config' = Some first) ∧
     (is_Some (find_active_model config) →
        is_Some (find_active_model config'))) ∧
  (1 < length (models config) → activeModelId config = id →
   Forall (λ m, mc_id m = id) (models config) →
   handleDeleteModel id config = Raised).
Proof.
  split; [|split].
  - intros Hlen. unfold handleDeleteModel.
    by destruct (Nat.leb_spec (length (models config)) 1); [|lia].
  - intros Hlen Hnodup. unfold handleDeleteModel.
    destruct (Nat.leb_spec (length (models config)) 1) as [|_]; [lia|].
    pose proof (filter_other_ids id (models config) Hnodup) as Hrest.
    set (newModels := List.filter _ (models config)) in *.
    destruct (String.eqb (activeModelId config) id) eqn:Hactive.
    + apply String.eqb_eq in Hactive.
      destruct newModels as [|first rest] eqn:Hnew; [simpl in Hrest; lia|].
      assert (find_active_model
                (with_models (first :: rest) (mc_id first) config)
              = Some first) as Hfind.
      { unfold find_active_model. simpl. by rewrite String.eqb_refl. }
      eexists. split; [done|]. split; [done|]. split; [done|].
      split; [|by rewrite Hfind]. intros _. by exists first.
    + apply String.eqb_neq in Hactive.
      assert (find_active_model
                (with_models newModels (activeModelId config) config)
              = find_active_model config) as Hfind.
      { unfold find_active_model. cbn [with_models models activeModelId].
        apply find_filter_keep. intros x Hx.
        apply String.eqb_eq in Hx. apply negb_true_iff, String.eqb_neq.
        congruence. }
      eexists. split; [done|]. split; [done|]. split; [done|].
      split; [done|]. by rewrite Hfind.
  - intros Hlen Hactive Hall. unfold handleDeleteModel.
    destruct (Nat.leb_spec (length (models config)) 1) as [|_]; [lia|].
    apply String.eqb_eq in Hactive. rewrite Hactive.
    assert (List.filter (λ m, negb (String.eqb (mc_id m) id)) (models config)
            = []) as ->; [|done].
    clear Hlen. induction Hall as [|x l Hx Hl IH]; [done|]. simpl.
    apply String.eqb_eq in Hx. rewrite Hx. simpl. exact IH.
Qed.

Lemma handleDeleteModel_keeps_active_witness :
  handleDeleteModel "m-openai" two_models
    = Updated (with_models [gemini_model] "m-gemini" tools_config) ∧
  handleDeleteModel "m-openai" tools_config = Refused ∧
  handleDeleteModel "m-openai" twin_models = Raised.
Proof.
  destruct (handleDeleteModel_keeps_active "m-openai" two_models)
    as (_ & Hdelete & _).
  destruct Hdelete as (config' & Hrun & _); [simpl; lia| |].
  { apply NoDup_cons. split; [|apply NoDup_singleton].
    by intros Hin%list_elem_of_singleton. }
  destruct (handleDeleteModel_keeps_active "m-openai" tools_config)
    as (Hone & _).
  destruct (handleDeleteModel_keeps_active "m-openai" twin_models)
    as (_ & _ & Htwins).
  split; [|split].
  - rewrite Hrun. vm_compute in Hrun. by injection Hrun as <-.
  - apply Hone. simpl. lia.
  - apply Htwins; [simpl; lia|done|]. by repeat constructor.
Defined.

Lemma toggleTool_with_active id config :
  toggleTool id config
    = with_active (λ t, xorb (active t) (String.eqb (ut_id t) id)) config.
Proof.
  unfold toggleTool, with_active, with_tools. f_equal.
  apply map_ext. intros [i d a impl auto]. cbn.
  destruct (String.eqb i id); [by rewrite xorb_true_r|by rewrite xorb_false_r].
Qed.

(** X22. Switching a tool, or a memory, off and on again gives the
    configuration back: [toggleTool] and [toggleMemory] are their own
    inverses. Switching a tool changes which declarations a request
    carries, those of the tools that are active afterwards, but not which
    calls are run by themselves: the execution queue of every list of
    calls holds the same calls before and after. *)
Theorem toggling_twice (id : string) (config : AppConfig) :
  toggleTool id (toggleTool id config) = config ∧
  toggleMemory id (toggleMemory id config) = config ∧
  active_tools (toggleTool id config)
    = map definition
        (List.filter (λ t, xorb (active t) (String.eqb (ut_id t) id))
           (tools config)) ∧
  ∀ tcs,
    map fst (executionQueue (toggleTool id config) tcs)
      = map fst (executionQueue config tcs).
Proof.
  split; [|split; [|split]].
  - destruct config as [a ms p mem ts].
    unfold toggleTool, with_tools. cbn. f_equal.
    rewrite map_map. rewrite <- (map_id ts) at 2. apply map_ext.
    intros [i d act impl auto]. cbn.
    destruct (String.eqb i id) eqn:Hi; cbn; [|by rewrite Hi].
    by rewrite Hi, negb_involutive.
  - destruct config as [a ms p mem ts].
    unfold toggleMemory, with_memories. cbn. f_equal.
    rewrite map_map. rewrite <- (map_id mem) at 2. apply map_ext.
    intros [i n c act]. cbn.
    destruct (String.eqb i id) eqn:Hi; cbn; [|by rewrite Hi].
    by rewrite Hi, negb_involutive.
  - rewrite toggleTool_with_active. unfold active_tools, with_active.
    cbn [tools].
    induction (tools config) as [|t ts IH]; [done|].
    cbn [map List.filter active]. destruct (xorb _ _); cbn [map]; by rewrite IH.
  - intros tcs. rewrite toggleTool_with_active, !executionQueue_calls.
    induction tcs as [|tc tcs IH]; [done|]. simpl.
    by rewrite auto_executable_with_active, IH.
Qed.

Lemma concat_snoc sep l b :
  String.concat sep (l ++ [b]) =
    match l with
    | [] => b
    | _ :: _ => String.concat sep l +:+ sep +:+ b
    end.
Proof.
  induction l as [|x l IH]; [done|].
  destruct l as [|y l]; [done|].
  change (String.concat sep ((x :: y :: l) ++ [b]))
    with (x +:+ sep +:+ String.concat sep ((y :: l) ++ [b])).
  rewrite IH.
  change (String.concat sep (x :: y :: l))
    with (x +:+ sep +:+ String.concat sep (y :: l)).
  by rewrite !string_app_assoc.
Qed.

(** X23. [handleAddMemory] changes nothing when the name or the content is
    empty. Otherwise it appends an active memory, and the system
    instruction built from the new configuration is the one built before
    followed by a blank line and the block of the new memory; when no
    memory was active before, it is the prompt, a blank line, the header
    line and that block. *)
Theorem handleAddMemory_extends_instruction (uuid : string)
    (newMemoryName newMemoryContent : string) (prev : AppConfig) :
  (newMemoryName = "" ∨ newMemoryContent = "" →
     handleAddMemory uuid newMemoryName newMemoryContent prev = Refused) ∧
  (newMemoryName ≠ "" → newMemoryContent ≠ "" →
   let memory :=
     {| vm_id := uuid; vm_name := newMemoryName;
        vm_content := newMemoryContent; vm_active := true |} in
   ∃ config,
     handleAddMemory uuid newMemoryName newMemoryContent prev
       = Updated config ∧
     memories config = memories prev ++ [memory] ∧
     buildSystemInstruction config =
       if existsb vm_active (memories prev)
       then buildSystemInstruction prev +:+ nl +:+ nl +:+ memory_block memory
       else systemPrompt prev +:+ nl +:+ nl
              +:+ "=== VIRTUAL MEMORY CONTEXT ===" +:+ nl
              +:+ memory_block memory).
Proof.
  split.
  - intros [-> | ->]; unfold handleAddMemory; [done|].
    by rewrite orb_true_r.
  - intros Hname Hcontent memory. unfold handleAddMemory.
    apply truthy_string_true in Hname, Hcontent. rewrite Hname, Hcontent.
    fold memory.
    eexists. split; [done|]. split; [done|].
    rewrite !buildSystemInstruction_blocks.
    cbn [with_memories memories systemPrompt].
    assert (existsb vm_active (memories prev ++ [memory]) = true) as ->.
    { rewrite existsb_app. cbn. apply orb_true_r. }
    rewrite List.filter_app, map_app.
    change (List.filter vm_active [memory]) with [memory].
    change (map memory_block [memory]) with [memory_block memory].
    rewrite concat_snoc.
    destruct (existsb vm_active (memories prev)) eqn:He.
    + destruct (List.filter vm_active (memories prev)) as [|x l] eqn:Hf.
      { apply existsb_filter_nil in Hf. congruence. }
      cbn [map]. by rewrite !string_app_assoc.
    + apply existsb_filter_nil in He. by rewrite He.
Qed.

Lemma handleAddMemory_extends_instruction_witness :
  ∃ config,
    handleAddMemory "mem-1" "Project" "Ge Brain" DEFAULT_CONFIG
      = Updated config ∧
    buildSystemInstruction config =
      "You are a helpful AI assistant." +:+ nl +:+ nl
        +:+ "=== VIRTUAL MEMORY CONTEXT ===" +:+ nl
        +:+ "<Memory name=" +:+ dq "Project" +:+ ">" +:+ nl +:+ "Ge Brain"
        +:+ nl +:+ "</Memory>".
Proof.
  destruct (handleAddMemory_extends_instruction "mem-1" "Project" "Ge Brain"
              DEFAULT_CONFIG) as [_ Hadd].
  destruct Hadd as (config & Hrun & _ & Hinstruction); [done|done|].
  exists config. split; [exact Hrun|]. exact Hinstruction.
Defined.

(** ** A stream that delivers nothing *)

(** X24. A stream that yields no chunk and does not fail is no error: the
    turn ends on the pending node, which keeps the empty text and the
    empty call list of the placeholder, nothing else is added to the tree
    and the turn does not continue. This is what happens when an
    OpenAI-compatible response is [ok] but has no body, and when the
    Gemini stream ends without a chunk. *)
Theorem empty_stream_keeps_placeholder (JSON_parse : string → option JSValue)
    (fuel : nat) (w : World) (config : AppConfig)
    (startMap : gmap string Message) (startHeadId : string)
    (historyForApi : list Message) :
  let currentMap :=
    appendToTree (Some startHeadId) (initialModelMsg w startHeadId) startMap in
  getThread fuel currentMap (Some startHeadId) = Some historyForApi →
  (stream_failure JSON_parse w config historyForApi = None →
   stream_chunks JSON_parse w config historyForApi = [] →
   turn JSON_parse fuel w config startMap startHeadId
     = Some {| out_map := currentMap; out_head := w_modelMsgId w;
               out_continue := false |} ∧
   ∃ x, currentMap !! w_modelMsgId w = Some x ∧
        content x = Some EmptyString ∧ toolCalls x = Some []) ∧
  (∀ activeModel res,
     find_active_model config = Some activeModel →
     apiKey activeModel ≠ "" → provider activeModel = "openai" →
     w_fetch w (openai_request activeModel historyForApi
                  (buildSystemInstruction config) (active_tools config))
       = Fetched res →
     ok res = true → body res = None →
     stream_failure JSON_parse w config historyForApi = None ∧
     stream_chunks JSON_parse w config historyForApi = []) ∧
  (∀ activeModel,
     find_active_model config = Some activeModel →
     apiKey activeModel ≠ "" → provider activeModel ≠ "openai" →
     w_generateContentStream w (apiKey activeModel)
       (gemini_args JSON_parse activeModel historyForApi
          (buildSystemInstruction config) (active_tools config))
       = {| g_chunks := []; g_failure := None |} →
     stream_failure JSON_parse w config historyForApi = None ∧
     stream_chunks JSON_parse w config historyForApi = []).
Proof.
  intros currentMap Hthread. split; [|split].
  - intros Hfail Hchunks.
    destruct (pending_node_present w startMap startHeadId)
      as (x & Hx & Hcontent & Hcalls & _).
    fold currentMap in Hx. split; [|by exists x].
    unfold turn. fold currentMap. rewrite Hthread. f_equal.
    unfold respond. unfold stream_failure in Hfail.
    unfold stream_chunks in Hchunks.
    destruct (sendMessageStream config historyForApi) as [stream|]; [|done].
    rewrite Hchunks, Hfail. cbn [consume foldl].
    unfold dispatch. by rewrite Hx, Hcalls.
  - intros activeModel res Hm Hkey Hp Hfetch Hok Hbody.
    apply truthy_string_true in Hkey.
    unfold stream_failure, stream_chunks, sendMessageStream.
    rewrite Hm, Hkey, Hp. cbn [negb]. rewrite String.eqb_refl.
    cbn [run_generator].
    unfold streamOpenAI. by rewrite Hfetch, Hok, Hbody.
  - intros activeModel Hm Hkey Hp Hstream.
    apply truthy_string_true in Hkey. apply String.eqb_neq in Hp.
    unfold stream_failure, stream_chunks, sendMessageStream.
    rewrite Hm, Hkey, Hp. cbn [negb run_generator].
    unfold streamGemini. by rewrite Hstream.
Qed.

Lemma empty_stream_keeps_placeholder_witness :
  turn read_json 3 quiet_world
    (with_models [gemini_model] "m-gemini" tools_config) one_user "u1"
    = Some {| out_map :=
                appendToTree (Some "u1") (initialModelMsg quiet_world "u1")
                  one_user;
              out_head := "model-1"; out_continue := false |}.
Proof.
  destruct (empty_stream_keeps_placeholder read_json 3 quiet_world
              (with_models [gemini_model] "m-gemini" tools_config)
              one_user "u1" [node "u1" user None ["model-1"]] eq_refl)
    as (Hturn & _ & Hgemini).
  destruct (Hgemini gemini_model eq_refl) as [Hfail Hchunks];
    [done|done|reflexivity|].
  by destruct (Hturn Hfail Hchunks) as [Hrun _].
Defined.

(** ** The thread after a navigation *)

Lemma latest_leaf_thread (m : gmap string Message) c leaf :
  keys_are_ids m → children_point_back m → m !! "" = None →
  latest_leaf m c leaf →
  ∀ l, thread_of m c l → ∃ rest, thread_of m leaf (l ++ rest).
Proof.
  intros Hkeys Hback Hempty Hleaf.
  induction Hleaf as [ptr Hnone | ptr nd Hnd Hc | ptr nd c leaf Hnd Hlast _ IH];
    intros l Hl.
  - exists []. by rewrite app_nil_r.
  - exists []. by rewrite app_nil_r.
  - assert (c ∈ childrenIds nd) as Hin by by apply last_elem.
    destruct (Hback ptr nd c Hnd Hin) as (cm & Hcm & Hp).
    rewrite (Hkeys ptr nd Hnd) in Hp.
    assert (c ≠ "") as Hne by (intros ->; congruence).
    destruct (IH (l ++ [cm])) as [rest Hrest].
    { by eapply thread_step. }
    exists (cm :: rest). by rewrite <- app_assoc in Hrest.
Qed.

(** X25. In a well-formed tree without a node under the empty id, a
    navigation from a message that its parent lists changes the thread at
    one place: the thread of the new head runs through the same messages
    as before down to the parent, then through the sibling that was
    chosen (the one before or after the message, held at the ends) in
    place of the message, and on through the latest child at every level
    down to the new head. [navigateBranch] and [getThread] both return
    with enough fuel. *)
Theorem navigateBranch_switches_branch (messageMap : gmap string Message)
    (msgId : string) (msg : Message) (p : string) (pm : Message) (i : nat)
    (direction : Direction) :
  well_formed messageMap → messageMap !! "" = None →
  messageMap !! msgId = Some msg → parentId msg = Some p →
  messageMap !! p = Some pm →
  indexOf (childrenIds pm) msgId = Some i →
  ∃ target sibling leaf above below,
    childrenIds pm !!
      match direction with
      | prev => Nat.pred i
      | next => Nat.min (S i) (length (childrenIds pm) - 1)
      end = Some target ∧
    messageMap !! target = Some sibling ∧
    last above = Some pm ∧
    latest_leaf messageMap target leaf ∧
    ∃ fuel0, ∀ fuel, fuel0 < fuel →
      navigateBranch fuel messageMap msgId direction = Some (SetHead leaf) ∧
      getThread fuel messageMap (Some msgId) = Some (above ++ [msg]) ∧
      getThread fuel messageMap (Some leaf)
        = Some (above ++ sibling :: below).
Proof.
  intros Hwf Hempty Hmsg Hp Hpm Hi.
  pose proof Hwf as (Hkeys & Hpres & Hback & _).
  assert (p ≠ "") as Hpne by (intros ->; congruence).
  assert (msgId ≠ "") as Hmne by (intros ->; congruence).
  pose proof (lookup_lt_Some _ _ _ (indexOf_Some _ _ _ Hi)) as Hlt.
  set (j := match direction with
            | prev => Nat.pred i
            | next => Nat.min (S i) (length (childrenIds pm) - 1)
            end).
  destruct (lookup_lt_is_Some_2 (childrenIds pm) j) as [target Ht].
  { subst j. destruct direction; lia. }
  assert (target ∈ childrenIds pm) as Hin by by eapply list_elem_of_lookup_2.
  destruct (Hback p pm target Hpm Hin) as (sibling & Hs & Hsp).
  rewrite (Hkeys p pm Hpm) in Hsp.
  assert (target ≠ "") as Htne by (intros ->; congruence).
  destruct (well_formed_thread messageMap Hwf p Hpne ltac:(by eexists))
    as [above Habove].
  destruct (well_formed_latest_leaf messageMap Hwf target) as [leaf Hleaf].
  assert (thread_of messageMap msgId (above ++ [msg])) as Hold.
  { by eapply thread_step. }
  assert (thread_of messageMap target (above ++ [sibling])) as Hnew.
  { by eapply thread_step. }
  destruct (latest_leaf_thread messageMap target leaf Hkeys Hback Hempty Hleaf
              _ Hnew) as [below Hbelow].
  rewrite <- app_assoc in Hbelow. cbn [app] in Hbelow.
  destruct (descend_latest_leaf messageMap target leaf Hleaf) as [k Hk].
  exists target, sibling, leaf, above, below.
  split; [exact Ht|]. split; [exact Hs|].
  split; [by rewrite (thread_of_last _ _ _ Habove)|].
  split; [exact Hleaf|].
  exists (k + length (above ++ [msg]) + length (above ++ sibling :: below)).
  intros fuel Hfuel. split; [|split].
  - pose proof (Hkeys msgId msg Hmsg) as Hid.
    pose proof (navigateBranch_listed fuel messageMap msg p pm i direction)
      as Hnav.
    rewrite Hid in Hnav.
    rewrite (Hnav Hmsg Hp Hpne Hpm Hi target Ht).
    rewrite Hk by lia. done.
  - apply (getThread_of_thread _ _ _ Hold). lia.
  - apply (getThread_of_thread _ _ _ Hbelow). lia.
Qed.

Lemma navigateBranch_switches_branch_witness :
  ∃ leaf above below fuel0, ∀ fuel, fuel0 < fuel →
    navigateBranch fuel forked "b2" prev = Some (SetHead leaf) ∧
    getThread fuel forked (Some "b2")
      = Some (above ++ [node "b2" model (Some "r") []]) ∧
    getThread fuel forked (Some leaf)
      = Some (above ++ node "b1" model (Some "r") [] :: below).
Proof.
  destruct (navigateBranch_switches_branch forked "b2"
              (node "b2" model (Some "r") []) "r"
              (node "r" user None ["b1"; "b2"]) 1 prev forked_well_formed)
    as (target & sibling & leaf & above & below & Ht & Hs & _ & _ & fuel0
        & Hrun);
    try reflexivity.
  assert (target = "b1") as -> by (vm_compute in Ht; by injection Ht as <-).
  assert (sibling = node "b1" model (Some "r") []) as ->.
  { vm_compute in Hs. by injection Hs as <-. }
  by exists leaf, above, below, fuel0.
Defined.
